(** * models/transform.py: mask generation and frame transforms

    A shallow embedding of the Python module [models/transform.py].

    Conventions of the embedding.
    - Python [int] is [Z]; Python and numpy floats are idealised as exact
      rationals ([Q]): rounding is not modelled, ordering and the
      arithmetic structure are.
    - Exceptions are values of [exn]; a computation is a function from the
      [world] (the two pseudo-random generators and the heap of numpy
      arrays) to a [result] and the world it leaves behind.
    - The generators of [numpy.random] and of the [random] module are
      tapes of raw draws read through a cursor, so that a statement
      quantified over the world is a statement about every sequence of
      random draws.
    - numpy arrays holding control points live in the heap and are passed
      by reference, as in Python; PIL images are only ever reached through
      one name in this module and are passed as values.
    - [numpy.cos], [numpy.sin] and the two [ImageDraw] primitives are
      parameters of the development. *)

From Stdlib Require Import ZArith QArith Qround Qabs Qminmax String Lia Lqa.
From stdpp Require Import base list.

Open Scope Q_scope.

(** ** Python values and exceptions *)

Inductive exn : Type :=
| AssertionError
| NotImplementedError (msg : string)
| ValueError
| IndexError
| UnboundLocalError
| InvalidReference. (* a heap address that was never allocated: unreachable from Python *)

Inductive result (A : Type) : Type :=
| Ok (a : A)
| Raise (e : exn).
Arguments Ok {A} a.
Arguments Raise {A} e.

(** [int(x)] on a float: truncation toward zero. *)
Definition py_int (x : Q) : Z := Z.quot (Qnum x) (Zpos (Qden x)).

(** [range(n)] and [range(a, b)]. *)
Definition py_range (n : Z) : list nat := seq 0 (Z.to_nat n).
Definition py_range2 (a b : nat) : list nat := seq a (b - a).

(** [l[:k]]: a negative [k] counts from the end. *)
Definition py_slice_to {A} (l : list A) (k : Z) : list A :=
  if (0 <=? k)%Z then take (Z.to_nat k) l
  else take (length l - Z.to_nat (- k)) l.

(** [np.clip(x, lo, hi)] is [minimum(maximum(x, lo), hi)]. *)
Definition np_clip (x lo hi : Q) : Q := Qmin (Qmax x lo) hi.
Definition np_clipZ (x lo hi : Z) : Z := Z.min (Z.max x lo) hi.

(** [np.pi], the double nearest to pi: 0x400921FB54442D18. *)
Definition np_pi : Q := 884279719003555 # 281474976710656.

(** ** The world: random generators and the heap of arrays *)

Record tape : Type := Tape { draws : nat -> Q; cursor : nat }.

(** Addresses of arrays in the heap. *)
Abbreviation loc := nat.

Record world : Type := World {
  np_state : tape;            (* numpy.random's global generator *)
  py_state : tape;            (* the random module's global generator *)
  heap : list (list Q)        (* one-dimensional numpy arrays, by address *)
}.

Definition M (A : Type) : Type := world -> result A * world.

Definition ret {A} (a : A) : M A := fun w => (Ok a, w).
Definition raise {A} (e : exn) : M A := fun w => (Raise e, w).
Definition bind {A B} (m : M A) (k : A -> M B) : M B :=
  fun w => match m w with
           | (Ok a, w') => k a w'
           | (Raise e, w') => (Raise e, w')
           end.

Notation "x <- m ;; k" := (bind m (fun x => k))
  (at level 100, m at next level, right associativity).

(** [for x in l: s = f(s, x)] *)
Fixpoint foldM {A S} (f : S -> A -> M S) (s : S) (l : list A) : M S :=
  match l with
  | [] => ret s
  | x :: l' => s' <- f s x ;; foldM f s' l'
  end.

(** *** Raw draws *)

Definition advance (t : tape) : tape := Tape (draws t) (S (cursor t)).
Definition peek (t : tape) : Q := draws t (cursor t).

Definition np_next : M Q :=
  fun w => (Ok (peek (np_state w)),
            World (advance (np_state w)) (py_state w) (heap w)).
Definition py_next : M Q :=
  fun w => (Ok (peek (py_state w)),
            World (np_state w) (advance (py_state w)) (heap w)).

(** The fractional part brings any raw draw into [0, 1). *)
Definition frac (x : Q) : Q := x - inject_Z (Qfloor x).

(** *** numpy.random *)

Definition np_random_sample : M Q := x <- np_next ;; ret (frac x).
Definition np_random_standard_normal : M Q := np_next.

(** [np.random.uniform(low, high)]: [low + (high - low) * random_sample()]. *)
Definition np_random_uniform (low high : Q) : M Q :=
  r <- np_random_sample ;; ret (low + (high - low) * r).

(** [np.random.normal(loc, scale)]: [ValueError] on a negative scale. *)
Definition np_random_normal (loc_ scale : Q) : M Q :=
  if Qle_bool 0 scale then
    z <- np_random_standard_normal ;; ret (loc_ + scale * z)
  else raise ValueError.

(** [np.random.randint(low, high)]: an integer of [low, high);
    [ValueError] when the range is empty. *)
Definition np_random_randint (low high : Z) : M Z :=
  if (low <? high)%Z then
    r <- np_random_sample ;;
    ret (low + Qfloor (r * inject_Z (high - low)))%Z
  else raise ValueError.

(** [random_interval(max)]: an index of [0, max], both ends included. *)
Definition np_random_interval (max : nat) : M nat :=
  r <- np_random_sample ;;
  ret (Z.to_nat (Qfloor (r * inject_Z (Z.of_nat (S max))))).

Definition swap {A} (l : list A) (i j : nat) : list A :=
  match l !! i, l !! j with
  | Some a, Some b => <[i := b]> (<[j := a]> l)
  | _, _ => l
  end.

(** [np.random.shuffle(x)] on a one-dimensional array:
    [for i in reversed(range(1, n)): j = random_interval(i); x[i], x[j] = x[j], x[i]]. *)
Definition np_random_shuffle {A} (l : list A) : M (list A) :=
  foldM (fun l i => j <- np_random_interval i ;; ret (swap l i j))
        l (rev (py_range2 1 (length l))).

(** *** The random module *)

(** [random.randint(a, b)]: an integer of [a, b], both ends included. *)
Definition random_randint (a b : Z) : M Z :=
  if (a <=? b)%Z then
    x <- py_next ;;
    ret (a + Qfloor (frac x * inject_Z (b - a + 1)))%Z
  else raise ValueError.

(** *** Arrays in the heap *)

Definition set_heap (w : world) (h : list (list Q)) : world :=
  World (np_state w) (py_state w) h.

(** [np.array(l)] and [a.copy()] allocate a new array. *)
Definition np_array (l : list Q) : M loc :=
  fun w => (Ok (length (heap w)), set_heap w (heap w ++ [l])).

Definition ndarray_read (a : loc) : M (list Q) :=
  fun w => match heap w !! a with
           | Some xs => (Ok xs, w)
           | None => (Raise InvalidReference, w)
           end.

Definition ndarray_write (a : loc) (xs : list Q) : M unit :=
  fun w => (Ok tt, set_heap w (<[a := xs]> (heap w))).

Definition ndarray_copy (a : loc) : M loc :=
  xs <- ndarray_read a ;; np_array xs.

Definition ndarray_len (a : loc) : M nat :=
  xs <- ndarray_read a ;; ret (length xs).

(** [a += k] for a scalar [k]: every element, in place. *)
Definition ndarray_iadd (a : loc) (k : Q) : M unit :=
  xs <- ndarray_read a ;; ndarray_write a (map (fun x => x + k) xs).

(** [a[i]] *)
Definition ndarray_getitem (a : loc) (i : nat) : M Q :=
  xs <- ndarray_read a ;;
  match xs !! i with
  | Some x => ret x
  | None => raise IndexError
  end.

(** [a[i] = v] *)
Definition ndarray_setitem (a : loc) (i : nat) (v : Q) : M unit :=
  xs <- ndarray_read a ;;
  if (i <? length xs)%nat then ndarray_write a (<[i := v]> xs)
  else raise IndexError.

(** [a[i] += e]: the target is read, then [e] is evaluated, then the sum
    is stored. *)
Definition ndarray_iadd_item (a : loc) (i : nat) (e : M Q) : M unit :=
  x <- ndarray_getitem a i ;;
  d <- e ;;
  ndarray_setitem a i (x + d).

(** ** Velocities *)

Definition Velocity : Type := (Q * Q)%type.   (* (speed, angle) *)

Definition unsupported (dist : string) : exn :=
  NotImplementedError ("Distribution type " ++ dist ++ " is not supported.").

(** [random_accelerate(velocity, maxAcceleration, dist='uniform')] *)
Definition random_accelerate (velocity : Velocity) (maxAcceleration : Q * Q)
    (dist : string) : M Velocity :=
  let '(speed, angle) := velocity in
  let '(d_speed, d_angle) := maxAcceleration in
  if (dist =? "uniform")%string then
    ds <- np_random_uniform (- d_speed) d_speed ;;
    da <- np_random_uniform (- d_angle) d_angle ;;
    ret (speed + ds, angle + da)
  else if (dist =? "guassian")%string then
    ds <- np_random_normal 0 (d_speed / 2) ;;
    da <- np_random_normal 0 (d_angle / 2) ;;
    ret (speed + ds, angle + da)
  else raise (unsupported dist).

(** [get_random_velocity(max_speed, dist='uniform')].  In the uniform
    branch the single positional argument of [np.random.uniform] is its
    [low]; [high] keeps its default, [1.0]. *)
Definition get_random_velocity (max_speed : Q) (dist : string) : M Velocity :=
  speed <- (if (dist =? "uniform")%string then
              np_random_uniform max_speed 1
            else if (dist =? "guassian")%string then
              z <- np_random_normal 0 (max_speed / 2) ;; ret (Qabs z)
            else raise (unsupported dist)) ;;
  angle <- np_random_uniform 0 (2 * np_pi) ;;
  ret (speed, angle).

(** ** PIL images *)

(** Multi-band 8-bit modes other than the three the module handles. *)
Inductive other_mode : Type := LA | RGBA | CMYK | YCbCr | LAB | HSV.

Definition other_mode_name (m : other_mode) : string :=
  match m with
  | LA => "LA" | RGBA => "RGBA" | CMYK => "CMYK"
  | YCbCr => "YCbCr" | LAB => "LAB" | HSV => "HSV"
  end.

(** Pixel data by rows: [height] rows of [width] pixels. *)
Inductive Image : Type :=
| Image1 (px : list (list bool))               (* mode '1' *)
| ImageL (px : list (list Z))                  (* mode 'L' *)
| ImageRGB (px : list (list (list Z)))         (* mode 'RGB', bands innermost *)
| ImageOther (m : other_mode) (px : list (list (list Z))).

Definition Image_mode (img : Image) : string :=
  match img with
  | Image1 _ => "1"
  | ImageL _ => "L"
  | ImageRGB _ => "RGB"
  | ImageOther m _ => other_mode_name m
  end.

Definition dims {A} (px : list (list A)) : nat * nat :=
  (length (hd [] px), length px).

(** [img.size], that is [(width, height)]. *)
Definition Image_size (img : Image) : nat * nat :=
  match img with
  | Image1 px => dims px
  | ImageL px => dims px
  | ImageRGB px => dims px
  | ImageOther _ px => dims px
  end.

(** Every row has the width of the image. *)
Definition rectangular {A} (px : list (list A)) : Prop :=
  Forall (fun row => length row = fst (dims px)) px.

(** [Image.new(mode='1', size=(w, h), color=0)] *)
Definition Image_new (w h : Z) : M Image :=
  if ((w <? 0) || (h <? 0))%Z then raise ValueError
  else ret (Image1 (replicate (Z.to_nat h) (replicate (Z.to_nat w) false))).

Definition count {A} (p : A -> bool) (px : list (list A)) : nat :=
  length (filter (fun x => p x = true) (concat px)).

(** [img.histogram()[0]]: the pixels whose (first) band is 0. *)
Definition histogram0 (img : Image) : nat :=
  match img with
  | Image1 px => count negb px
  | ImageL px => count (Z.eqb 0) px
  | ImageRGB px => count (fun p => Z.eqb 0 (hd 1%Z p)) px
  | ImageOther _ px => count (fun p => Z.eqb 0 (hd 1%Z p)) px
  end.

(** ** Coverage ratio *)

Inductive np_float : Type := Finite (q : Q) | PosInf | NegInf | NaN.

(** True division of a Python [int] by a numpy integer. *)
Definition np_true_divide (a b : Z) : np_float :=
  if (b =? 0)%Z then
    if (a =? 0)%Z then NaN else if (0 <? a)%Z then PosInf else NegInf
  else Finite (Qmake a 1 / Qmake b 1).

(** [get_masked_ratio(mask)] *)
Definition get_masked_ratio (mask : Image) : np_float :=
  let hist0 := histogram0 mask in
  let '(w, h) := Image_size mask in
  np_true_divide (Z.of_nat hist0) (Z.of_nat w * Z.of_nat h).

(** ** Stack *)

Definition array2 : Type := list (list Z).
Definition array3 : Type := list (list (list Z)).
Definition array4 : Type := list (list (list (list Z))).

Definition shape3 {A} (a : list (list (list A))) : nat * nat * nat :=
  (length a, length (hd [] a), length (hd [] (hd [] a))).
Definition shape4 {A} (a : list (list (list (list A)))) : nat * nat * nat * nat :=
  (length a, length (hd [] a), length (hd [] (hd [] a)),
   length (hd [] (hd [] (hd [] a)))).

Definition shape3_eqb (s t : nat * nat * nat) : bool :=
  let '(a, b, c) := s in
  let '(a', b', c') := t in
  (a =? a')%nat && (b =? b')%nat && (c =? c')%nat.

(** [img.convert('L')] on a bilevel image. *)
Definition convert_L (px : list (list bool)) : array2 :=
  map (map (fun b : bool => if b then 255%Z else 0%Z)) px.

(** [np.expand_dims(a, 2)] on a two-dimensional array. *)
Definition expand_dims2 {A} (a : list (list A)) : list (list (list A)) :=
  map (map (fun x => [x])) a.

(** [a[:, :, ::-1]] on a three-dimensional array. *)
Definition reverse_axis2 {A} (a : list (list (list A))) : list (list (list A)) :=
  map (map (@rev A)) a.

(** The entries of [np.stack(arrays, axis=2)]:
    [out[h][w][t] = arrays[t][h][w]]. *)
Fixpoint stack_axis2 {A} (arrays : list (list (list A))) : list (list (list A)) :=
  match arrays with
  | [] => []
  | a :: rest =>
      match rest with
      | [] => expand_dims2 a
      | _ => zip_with (zip_with cons) a (stack_axis2 rest)
      end
  end.

(** [np.stack(arrays, axis=2)] on three-dimensional arrays:
    [ValueError] on an empty list or on arrays of different shapes. *)
Definition np_stack_axis2 (arrays : list array3) : result array4 :=
  match arrays with
  | [] => Raise ValueError
  | a :: _ =>
      if forallb (fun b => shape3_eqb (shape3 b) (shape3 a)) arrays
      then Ok (stack_axis2 arrays)
      else Raise ValueError
  end.

(** [for x in l: out.append(f(x))], stopping at the first exception. *)
Fixpoint mapR {A B} (f : A -> result B) (l : list A) : result (list B) :=
  match l with
  | [] => Ok []
  | x :: l' =>
      match f x with
      | Raise e => Raise e
      | Ok y => match mapR f l' with
                | Raise e => Raise e
                | Ok ys => Ok (y :: ys)
                end
      end
  end.

Section StackTransform.
(** [img.convert('L')] on the modes whose conversion is not modelled. *)
Variable convert_L_colour : Image -> array2.

Definition Image_convert_L (img : Image) : Image :=
  match img with
  | Image1 px => ImageL (convert_L px)
  | ImageL px => ImageL px
  | _ => ImageL (convert_L_colour img)
  end.

(** The array [x] becomes in the 'L' branch, [np.expand_dims(x, 2)]:
    three-dimensional for a single-band frame; a frame with bands gives
    a four-dimensional array, which [np.stack] then refuses next to the
    three-dimensional first one. *)
Definition expand_frame (x : Image) : result array3 :=
  match x with
  | Image1 px => Ok (expand_dims2 (map (map (fun b : bool => if b then 1%Z else 0%Z)) px))
  | ImageL px => Ok (expand_dims2 px)
  | _ => Raise ValueError
  end.

(** [np.array(x)[:, :, ::-1]]: [IndexError] on a two-dimensional array. *)
Definition roll_frame (x : Image) : result array3 :=
  match x with
  | ImageRGB px => Ok (reverse_axis2 px)
  | ImageOther _ px => Ok (reverse_axis2 px)
  | _ => Raise IndexError
  end.

(** The array of [x] among the operands of [np.stack(img_group, axis=2)]
    in the 'RGB' branch: a two-dimensional one is refused. *)
Definition plain_frame (x : Image) : result array3 :=
  match x with
  | ImageRGB px => Ok px
  | ImageOther _ px => Ok px
  | _ => Raise ValueError
  end.

Definition stack_frames (f : Image -> result array3) (img_group : list Image)
  : result array4 :=
  match mapR f img_group with
  | Raise e => Raise e
  | Ok arrays => np_stack_axis2 arrays
  end.

(** [Stack(roll).__call__(img_group)] *)
Definition Stack_call (roll : bool) (img_group : list Image) : result array4 :=
  match img_group with
  | [] => Raise IndexError
  | first :: _ =>
      let mode := Image_mode first in
      let '(img_group, mode) :=
        if (mode =? "1")%string
        then (map Image_convert_L img_group, "L"%string)
        else (img_group, mode) in
      if (mode =? "L")%string then stack_frames expand_frame img_group
      else if (mode =? "RGB")%string then
        if roll then stack_frames roll_frame img_group
        else stack_frames plain_frame img_group
      else Raise (NotImplementedError ("Image mode " ++ mode))
  end.
End StackTransform.

(** ** Moving strokes *)

(** One entry of [control_points_set]: [(Xs, Ys, velocity, brushWidth)]. *)
Definition Stroke : Type := (loc * loc * Velocity * Z)%type.

Record settings : Type := Settings {
  imageWidth : Z;
  imageHeight : Z;
  nStroke : Z;
  nVertexBound : Z * Z;
  maxHeadSpeed : Q;
  maxHeadAcceleration : Q * Q;
  brushWidthBound : Z * Z;
  boarderGap : Z;
  nMovePointRatio : Q;
  maxPiontMove : Z;
  maxLineAcceleration : Q * Q;
  maxInitSpeed : Q
}.

(** The defaults of [get_video_masks_by_moving_random_stroke]. *)
Definition default_settings : settings :=
  {| imageWidth := 424; imageHeight := 240; nStroke := 3;
     nVertexBound := (5, 20)%Z; maxHeadSpeed := 15;
     maxHeadAcceleration := (15, 314 # 100);
     brushWidthBound := (30, 50)%Z; boarderGap := 50;
     nMovePointRatio := 1 # 2; maxPiontMove := 10;
     maxLineAcceleration := (5, 1 # 2); maxInitSpeed := 10 |}.

(** The test of the loop of [random_move_control_points]:
    [(x > imageWidth) or (x < 0) or (y > imageHeight) or (y < 0)]. *)
Definition escaped (x y : Q) (imageWidth imageHeight : Z) : bool :=
  negb (Qle_bool x (inject_Z imageWidth)) || negb (Qle_bool 0 x)
  || negb (Qle_bool y (inject_Z imageHeight)) || negb (Qle_bool 0 y).

Section Strokes.
Variables np_cos np_sin : Q -> Q.
(** [ImageDraw.Draw(mask).line(xy, fill=fill, width=width)], and
    [ImageDraw.Draw(mask).ellipse(box, fill=fill)] on a box that Pillow
    accepts. *)
Variable ImageDraw_line : Image -> Q * Q * Q * Q -> Z -> Z -> Image.
Variable ImageDraw_ellipse : Image -> Q * Q * Q * Q -> Z -> Image.

(** [draw.ellipse(box, fill=fill)]: Pillow refuses, with [ValueError],
    a box [(x0, y0, x1, y1)] with [x1 < x0] or [y1 < y0]. *)
Definition draw_ellipse (mask : Image) (box : Q * Q * Q * Q) (fill : Z)
  : M Image :=
  let '(x0, y0, x1, y1) := box in
  if Qle_bool x0 x1 && Qle_bool y0 y1
  then ret (ImageDraw_ellipse mask box fill)
  else raise ValueError.

(** The body of [for i in chosen] in [random_move_control_points]. *)
Definition move_point (new_Xs new_Ys : loc) (imageWidth imageHeight : Z)
    (maxPiontMove boarderGap : Z) (new_velocity : bool) (i : nat) : M bool :=
  _ <- ndarray_iadd_item new_Xs i
         (d <- np_random_randint (- maxPiontMove) maxPiontMove ;; ret (inject_Z d)) ;;
  _ <- ndarray_iadd_item new_Ys i
         (d <- np_random_randint (- maxPiontMove) maxPiontMove ;; ret (inject_Z d)) ;;
  x <- ndarray_getitem new_Xs i ;;
  y <- ndarray_getitem new_Ys i ;;
  let new_velocity :=
    if negb new_velocity && escaped x y imageWidth imageHeight
    then true else new_velocity in
  _ <- ndarray_setitem new_Xs i
         (np_clip x (inject_Z boarderGap) (inject_Z (imageWidth - boarderGap))) ;;
  y <- ndarray_getitem new_Ys i ;;
  _ <- ndarray_setitem new_Ys i
         (np_clip y (inject_Z boarderGap) (inject_Z (imageHeight - boarderGap))) ;;
  ret new_velocity.

(** [random_move_control_points(Xs, Ys, imageWidth, imageHeight,
    lineVelocity, nMovePointRatio, maxPiontMove, maxLineAcceleration,
    boarderGap, maxInitSpeed)] *)
Definition random_move_control_points (Xs Ys : loc) (imageWidth imageHeight : Z)
    (lineVelocity : Velocity) (nMovePointRatio : Q) (maxPiontMove : Z)
    (maxLineAcceleration : Q * Q) (boarderGap : Z) (maxInitSpeed : Q)
  : M (loc * loc * Velocity) :=
  new_Xs <- ndarray_copy Xs ;;
  new_Ys <- ndarray_copy Ys ;;
  let '(speed, angle) := lineVelocity in
  _ <- ndarray_iadd new_Xs (inject_Z (py_int (speed * np_cos angle))) ;;
  _ <- ndarray_iadd new_Ys (inject_Z (py_int (speed * np_sin angle))) ;;
  lineVelocity <- random_accelerate lineVelocity maxLineAcceleration "guassian" ;;
  n <- ndarray_len Xs ;;
  chosen <- np_random_shuffle (seq 0 n) ;;
  let chosen := py_slice_to chosen (py_int (inject_Z (Z.of_nat n) * nMovePointRatio)) in
  new_velocity <- foldM (move_point new_Xs new_Ys imageWidth imageHeight
                           maxPiontMove boarderGap) false chosen ;;
  lineVelocity <- (if new_velocity : bool
                   then get_random_velocity maxInitSpeed "guassian"
                   else ret lineVelocity) ;;
  ret (new_Xs, new_Ys, lineVelocity).

(** The state of the loop of [get_random_stroke_control_points]. *)
Record head : Type := Head {
  startX : Q; startY : Q; head_speed : Q; head_angle : Q;
  head_Xs : list Q; head_Ys : list Q
}.

Definition next_vertex (imageWidth imageHeight : Z) (maxHeadSpeed : Q)
    (maxHeadAcceleration : Q * Q) (boarderGap : option Z) (h : head) (i : nat)
  : M head :=
  v <- random_accelerate (head_speed h, head_angle h) maxHeadAcceleration "uniform" ;;
  let '(speed, angle) := v in
  let speed := np_clip speed 0 maxHeadSpeed in
  let nextX := startX h + speed * np_sin angle in
  let nextY := startY h + speed * np_cos angle in
  let '(nextX, nextY) :=
    match boarderGap with
    | Some gap =>
        (np_clip nextX (inject_Z gap) (inject_Z (imageWidth - gap)),
         np_clip nextY (inject_Z gap) (inject_Z (imageHeight - gap)))
    | None => (nextX, nextY)
    end in
  ret (Head nextX nextY speed angle (head_Xs h ++ [nextX]) (head_Ys h ++ [nextY])).

(** [get_random_stroke_control_points(imageWidth, imageHeight,
    nVertexBound, maxHeadSpeed, maxHeadAcceleration, boarderGap,
    maxInitSpeed)] *)
Definition get_random_stroke_control_points (imageWidth imageHeight : Z)
    (nVertexBound : Z * Z) (maxHeadSpeed : Q) (maxHeadAcceleration : Q * Q)
    (boarderGap : option Z) (maxInitSpeed : Q) : M (loc * loc * Velocity) :=
  startX <- np_random_randint 0 imageWidth ;;
  startY <- np_random_randint 0 imageHeight ;;
  numVertex <- np_random_randint (fst nVertexBound) (snd nVertexBound) ;;
  angle <- np_random_uniform 0 (2 * np_pi) ;;
  speed <- np_random_uniform 0 maxHeadSpeed ;;
  h <- foldM (next_vertex imageWidth imageHeight maxHeadSpeed
                maxHeadAcceleration boarderGap)
         (Head (inject_Z startX) (inject_Z startY) speed angle
               [inject_Z startX] [inject_Z startY])
         (py_range numVertex) ;;
  velocity <- get_random_velocity maxInitSpeed "guassian" ;;
  Xs <- np_array (head_Xs h) ;;
  Ys <- np_array (head_Ys h) ;;
  ret (Xs, Ys, velocity).

(** [draw_mask_by_control_points(mask, Xs, Ys, brushWidth, fill)].
    The name [draw] is bound by the body of the first loop only.  With
    [brushWidth < 2] the radius [brushWidth // 2 - 1] is negative and
    the box of every ellipse is refused. *)
Definition draw_mask_by_control_points (mask : Image) (Xs Ys : loc)
    (brushWidth fill : Z) : M Image :=
  let radius := inject_Z (brushWidth / 2 - 1) in
  n <- ndarray_len Xs ;;
  mask <- foldM (fun mask i =>
                   startX <- ndarray_getitem Xs (i - 1) ;;
                   startY <- ndarray_getitem Ys (i - 1) ;;
                   nextX <- ndarray_getitem Xs i ;;
                   nextY <- ndarray_getitem Ys i ;;
                   ret (ImageDraw_line mask (startX, startY, nextX, nextY)
                          fill brushWidth))
             mask (py_range2 1 n) ;;
  let draw_is_bound := negb (n <? 2)%nat in
  xs <- ndarray_read Xs ;;
  ys <- ndarray_read Ys ;;
  foldM (fun mask xy =>
           let '(x, y) := xy in
           if draw_is_bound
           then draw_ellipse mask
                  (x - radius, y - radius, x + radius, y + radius) fill
           else raise UnboundLocalError)
        mask (zip xs ys).

(** The body of the first loop of
    [get_video_masks_by_moving_random_stroke]: one new stroke, drawn on
    the first mask. *)
Definition new_stroke (s : settings) (acc : Image * list Stroke) (i : nat)
  : M (Image * list Stroke) :=
  let '(mask, control_points_set) := acc in
  brushWidth <- np_random_randint (fst (brushWidthBound s)) (snd (brushWidthBound s)) ;;
  stroke <- get_random_stroke_control_points (imageWidth s) (imageHeight s)
              (nVertexBound s) (maxHeadSpeed s) (maxHeadAcceleration s)
              (Some (boarderGap s)) (maxInitSpeed s) ;;
  let '(Xs, Ys, velocity) := stroke in
  mask <- draw_mask_by_control_points mask Xs Ys brushWidth 255 ;;
  ret (mask, control_points_set ++ [(Xs, Ys, velocity, brushWidth)]).

(** [for j in range(len(control_points_set)): control_points_set[j] = ...] *)
Definition move_stroke (s : settings) (control_points_set : list Stroke) (j : nat)
  : M (list Stroke) :=
  match control_points_set !! j with
  | None => raise IndexError
  | Some (Xs, Ys, velocity, brushWidth) =>
      moved <- random_move_control_points Xs Ys (imageWidth s) (imageHeight s)
                 velocity (nMovePointRatio s) (maxPiontMove s)
                 (maxLineAcceleration s) (boarderGap s) (maxInitSpeed s) ;;
      let '(new_Xs, new_Ys, velocity) := moved in
      ret (<[j := (new_Xs, new_Ys, velocity, brushWidth)]> control_points_set)
  end.

(** The body of [for _ in range(video_len - 1)]: one animation step of
    every stroke, then one new mask. *)
Definition next_frame (s : settings) (acc : list Image * list Stroke) (k : nat)
  : M (list Image * list Stroke) :=
  let '(masks, control_points_set) := acc in
  mask <- Image_new (imageWidth s) (imageHeight s) ;;
  control_points_set <- foldM (move_stroke s) control_points_set
                          (py_range (Z.of_nat (length control_points_set))) ;;
  mask <- foldM (fun mask (st : Stroke) =>
                   let '(Xs, Ys, _, brushWidth) := st in
                   draw_mask_by_control_points mask Xs Ys brushWidth 255)
             mask control_points_set ;;
  ret (masks ++ [mask], control_points_set).

(** The part of [get_video_masks_by_moving_random_stroke] before its
    second loop: the strokes and the first mask. *)
Definition first_frame (s : settings) : M (Image * list Stroke) :=
  mask <- Image_new (imageWidth s) (imageHeight s) ;;
  foldM (new_stroke s) (mask, []) (py_range (nStroke s)).

(** [get_video_masks_by_moving_random_stroke(video_len, **s)], with the
    strokes it holds when it returns. *)
Definition video_masks_and_strokes (video_len : Z) (s : settings)
  : M (list Image * list Stroke) :=
  if (1 <=? video_len)%Z then
    first <- first_frame s ;;
    let '(mask, control_points_set) := first in
    foldM (next_frame s) ([mask], control_points_set) (py_range (video_len - 1))
  else raise AssertionError.

Definition get_video_masks_by_moving_random_stroke (video_len : Z) (s : settings)
  : M (list Image) :=
  r <- video_masks_and_strokes video_len s ;; ret (fst r).
End Strokes.

(** ** Random-walk mask *)

Inductive dtype : Type := float64 | int64.

(** [np.array(l)] on a list of integers: the empty list gives an array of
    the default type, [float64]. *)
Definition np_array_int (l : list Z) : dtype * list Z :=
  match l with
  | [] => (float64, [])
  | _ => (int64, l)
  end.

(** [np.zeros((h, w)).astype("i")] *)
Definition np_zeros (h w : Z) : M array2 :=
  if ((h <? 0) || (w <? 0))%Z then raise ValueError
  else ret (replicate (Z.to_nat h) (replicate (Z.to_nat w) 0%Z)).

(** An index of an axis of length [n]: negative indices count from the end. *)
Definition np_index (n : nat) (i : Z) : option nat :=
  if ((0 <=? i) && (i <? Z.of_nat n))%Z then Some (Z.to_nat i)
  else if ((- Z.of_nat n <=? i) && (i <? 0))%Z then Some (Z.to_nat (Z.of_nat n + i))
  else None.

Definition set_cell (canvas : array2) (x y : Z) (v : Z) : option array2 :=
  match np_index (length canvas) x with
  | None => None
  | Some i =>
      match canvas !! i with
      | None => None
      | Some row =>
          match np_index (length row) y with
          | None => None
          | Some j => Some (<[i := <[j := v]> row]> canvas)
          end
      end
  end.

Fixpoint set_cells (canvas : array2) (cells : list (Z * Z)) (v : Z) : option array2 :=
  match cells with
  | [] => Some canvas
  | (x, y) :: rest =>
      match set_cell canvas x y v with
      | None => None
      | Some canvas' => set_cells canvas' rest v
      end
  end.

(** [canvas[xs, ys] = v] with two index arrays: [IndexError] unless both
    are arrays of integers, and on an index out of range. *)
Definition ndarray_setitem2 (canvas : array2) (xs ys : dtype * list Z) (v : Z)
  : M array2 :=
  match fst xs, fst ys with
  | int64, int64 =>
      match set_cells canvas (zip (snd xs) (snd ys)) v with
      | Some canvas' => ret canvas'
      | None => raise IndexError
      end
  | _, _ => raise IndexError
  end.

Definition action_list : list (Z * Z) := [(0, 1); (0, -1); (1, 0); (-1, 0)]%Z.

(** [Image.fromarray(canvas * 255).convert('1')], for a canvas of 0 and 1. *)
Definition fromarray_convert_1 (canvas : array2) : Image :=
  Image1 (map (map (fun v => negb (v * 255 =? 0)%Z)) canvas).

Record walk : Type := Walk { walk_x : Z; walk_y : Z; x_list : list Z; y_list : list Z }.

Definition walk_step (imageWidth imageHeight : Z) (s : walk) (i : nat) : M walk :=
  r <- random_randint 0 (Z.of_nat (length action_list) - 1) ;;
  match action_list !! Z.to_nat r with
  | None => raise IndexError
  | Some (dx, dy) =>
      let x := np_clipZ (walk_x s + dx) 0 (imageHeight - 1) in
      let y := np_clipZ (walk_y s + dy) 0 (imageWidth - 1) in
      ret (Walk x y (x_list s ++ [x]) (y_list s ++ [y]))
  end.

(** [get_random_walk_mask(imageWidth, imageHeight, length)] *)
Definition get_random_walk_mask (imageWidth imageHeight : Z) (length : option Z)
  : M Image :=
  canvas <- np_zeros imageHeight imageWidth ;;
  let length := match length with
                | None => (imageWidth * imageHeight)%Z
                | Some n => n
                end in
  x <- random_randint 0 (imageHeight - 1) ;;
  y <- random_randint 0 (imageWidth - 1) ;;
  s <- foldM (walk_step imageWidth imageHeight) (Walk x y [] []) (py_range length) ;;
  canvas <- ndarray_setitem2 canvas (np_array_int (x_list s)) (np_array_int (y_list s)) 1 ;;
  ret (fromarray_convert_1 canvas).

(** ** The vocabulary of the properties *)

(** [m], run in [w], returns a value that satisfies [post]. *)
Definition succeeds {A} (m : M A) (w : world) (post : A -> world -> Prop) : Prop :=
  exists a w', m w = (Ok a, w') /\ post a w'.

(** [m], run in [w], raises [NotImplementedError]. *)
Definition unsupported_error {A} (m : M A) (w : world) : Prop :=
  exists msg, fst (m w) = Raise (NotImplementedError msg).

(** The [k]-th raw draw that [numpy.random] will make from [w] on. *)
Definition np_draw (w : world) (k : nat) : Q :=
  draws (np_state w) (k + cursor (np_state w)).

(** The world after one draw from [numpy.random]. *)
Definition np_skip (w : world) : world :=
  World (advance (np_state w)) (py_state w) (heap w).

(** A generator that yields the draws of [l], then zeros. *)
Definition tape_of (l : list Q) : tape := Tape (fun i => nth i l 0) 0.

Definition world_of (np py : list Q) (h : list (list Q)) : world :=
  World (tape_of np) (tape_of py) h.

(** The pixel values of a single-band image, 0 or 255 for a bilevel one. *)
Definition mask_pixels (img : Image) : option array2 :=
  match img with
  | Image1 px => Some (convert_L px)
  | ImageL px => Some px
  | _ => None
  end.

(** [px] has [h] rows of [w] entries. *)
Definition grid {A} (h w : nat) (px : list (list A)) : Prop :=
  length px = h /\ Forall (fun row => length row = w) px.

(** A frame of mode '1' or 'L' of height [h] and width [w]. *)
Definition single_channel_frame (h w : nat) (img : Image) : Prop :=
  match img with
  | Image1 px => grid h w px
  | ImageL px => grid h w px
  | _ => False
  end.

(** A frame of mode 'RGB' of height [h] and width [w]. *)
Definition rgb_frame (h w : nat) (img : Image) : Prop :=
  match img with
  | ImageRGB px => grid h w px /\ Forall (Forall (fun p => length p = 3%nat)) px
  | _ => False
  end.

(** [a[..., ::-1]] on a four-dimensional array. *)
Definition reverse_axis3 {A} (a : list (list (list (list A)))) : list (list (list (list A))) :=
  map (map (map (@rev A))) a.

(** A 4x4 frame of mode 'L' and one of mode 'RGB'. *)
Definition grey_4x4 : Image := ImageL (replicate 4 (replicate 4 7%Z)).
Definition rgb_4x4 : Image := ImageRGB (replicate 4 (replicate 4 [1; 2; 3]%Z)).

(** Stand-ins for the parameters of the stroke functions, for concrete
    runs: the trigonometric functions at angle 0 and drawing primitives
    that leave the canvas as it is. *)
Definition cos_at_0 : Q -> Q := fun _ => 1.
Definition sin_at_0 : Q -> Q := fun _ => 0.
Definition no_line : Image -> Q * Q * Q * Q -> Z -> Z -> Image := fun img _ _ _ => img.
Definition no_ellipse : Image -> Q * Q * Q * Q -> Z -> Image := fun img _ _ => img.

(** The world after one draw from the [random] module. *)
Definition py_skip (w : world) : world :=
  World (np_state w) (advance (py_state w)) (heap w).

(** [m], run in [w], either returns a value with [Q] or raises an
    exception with [E]. *)
Definition outcome {A} (m : M A) (w : world) (Q : A -> world -> Prop)
    (E : exn -> world -> Prop) : Prop :=
  match m w with
  | (Ok a, w') => Q a w'
  | (Raise e, w') => E e w'
  end.

(** The arrays of the heap [h0] are in the heap of [w], at the same
    addresses and with the same contents. *)
Definition keeps (h0 : list (list Q)) (w : world) : Prop :=
  take (length h0) (heap w) = h0.

(** [m] leaves the heap as it is, whatever it returns or raises. *)
Definition heap_stable {A} (m : M A) : Prop :=
  forall w, heap (snd (m w)) = heap w.

(** [m] leaves the arrays of [h0] as they are, whatever it returns or
    raises. *)
Definition frames (h0 : list (list Q)) {A} (m : M A) : Prop :=
  forall w, keeps h0 w -> keeps h0 (snd (m w)).

(** In the heap of [w] the arrays of [h0] are as they were, and the arrays
    at [a] and [b] are [X] and [Y]. *)
Definition holds (h0 : list (list Q)) (a b : loc) (X Y : list Q) (w : world) : Prop :=
  keeps h0 w /\ heap w !! a = Some X /\ heap w !! b = Some Y.

(** The whole-line displacement of [random_move_control_points]:
    [int(speed * cos(angle))] and [int(speed * sin(angle))]. *)
Definition line_shift (trig : Q -> Q) (lineVelocity : Velocity) : Q :=
  inject_Z (py_int (fst lineVelocity * trig (snd lineVelocity))).

(** The control points at [Xs] and [Ys] after a step: [chosen] are the
    indices that the step selected. *)
Definition moved_points (np_cos np_sin : Q -> Q) (imageWidth imageHeight boarderGap : Z)
    (lineVelocity : Velocity) (xs ys : list Q) (chosen : list nat) (X Y : list Q)
  : Prop :=
  length X = length xs /\ length Y = length xs
  /\ (forall i, i ∉ chosen ->
        X !! i = (fun x => x + line_shift np_cos lineVelocity) <$> xs !! i
        /\ Y !! i = (fun y => y + line_shift np_sin lineVelocity) <$> ys !! i)
  /\ (forall i, i ∈ chosen ->
        exists vx vy,
          X !! i = Some (np_clip vx (inject_Z boarderGap)
                           (inject_Z (imageWidth - boarderGap)))
          /\ Y !! i = Some (np_clip vy (inject_Z boarderGap)
                              (inject_Z (imageHeight - boarderGap)))).

(** A stroke of two points, both inside the margin of 50 of a 424x240
    canvas, and the draws of one animation step: two normal draws for the
    acceleration, one for the shuffle, which selects the point 1, and two
    for its jitter, which is 0. *)
Definition two_point_world : world :=
  world_of [0; 0; 0; 1 # 2; 1 # 2] [] [[370; 200]; [100; 100]].

(** In the heap [h] the stroke has two arrays of one length, of two
    points at least, and a brush width of 2 at least. *)
Definition stroke_ok (h : list (list Q)) (st : Stroke) : Prop :=
  exists xs ys,
    h !! (fst (fst (fst st))) = Some xs /\ h !! (snd (fst (fst st))) = Some ys
    /\ length ys = length xs /\ (2 <= length xs)%nat /\ (2 <= snd st)%Z.

(** Settings with which no call of the generator is refused: the ranges
    of the integer draws are not empty, the scales of the normal draws are
    not negative, every stroke has a vertex besides its start, and every
    brush a radius [brushWidth // 2 - 1] that is not negative. *)
Record valid_settings (s : settings) : Prop := {
  width_positive : (0 < imageWidth s)%Z;
  height_positive : (0 < imageHeight s)%Z;
  vertex_range : (fst (nVertexBound s) < snd (nVertexBound s))%Z;
  vertex_min : (1 <= fst (nVertexBound s))%Z;
  brush_range : (fst (brushWidthBound s) < snd (brushWidthBound s))%Z;
  brush_min : (2 <= fst (brushWidthBound s))%Z;
  move_range : (0 < maxPiontMove s)%Z;
  line_speed_scale : 0 <= fst (maxLineAcceleration s);
  line_angle_scale : 0 <= snd (maxLineAcceleration s);
  init_speed_scale : 0 <= maxInitSpeed s
}.

(** The settings of a small run: one stroke of three vertices besides its
    start, of width 10, on a 50x50 canvas with a margin of 5. *)
Definition small_settings : settings :=
  {| imageWidth := 50; imageHeight := 50; nStroke := 1;
     nVertexBound := (3, 4)%Z; maxHeadSpeed := 15;
     maxHeadAcceleration := (15, 314 # 100);
     brushWidthBound := (10, 11)%Z; boarderGap := 5;
     nMovePointRatio := 1 # 2; maxPiontMove := 10;
     maxLineAcceleration := (5, 1 # 2); maxInitSpeed := 10 |}.

(** The default settings with one stroke and a range of vertex counts
    that starts at 0. *)
Definition zero_vertex_settings : settings :=
  {| imageWidth := 424; imageHeight := 240; nStroke := 1;
     nVertexBound := (0, 20)%Z; maxHeadSpeed := 15;
     maxHeadAcceleration := (15, 314 # 100);
     brushWidthBound := (30, 50)%Z; boarderGap := 50;
     nMovePointRatio := 1 # 2; maxPiontMove := 10;
     maxLineAcceleration := (5, 1 # 2); maxInitSpeed := 10 |}.

(** The default settings with brushes of width 1. *)
Definition narrow_brush_settings : settings :=
  {| imageWidth := 424; imageHeight := 240; nStroke := 3;
     nVertexBound := (5, 20)%Z; maxHeadSpeed := 15;
     maxHeadAcceleration := (15, 314 # 100);
     brushWidthBound := (1, 2)%Z; boarderGap := 50;
     nMovePointRatio := 1 # 2; maxPiontMove := 10;
     maxLineAcceleration := (5, 1 # 2); maxInitSpeed := 10 |}.

Definition small_world : world :=
  world_of [1 # 10; 3 # 10; 1 # 2; 7 # 10; 2 # 10; 9 # 10; 4 # 10;
            1 # 3; 2 # 3; 1 # 5; 3 # 5] [] [].

(** [x] lies between the integers [lo] and [hi], both included. *)
Definition within (lo hi : Z) (x : Q) : Prop :=
  inject_Z lo <= x /\ x <= inject_Z hi.

(** [x] is a value that [np.clip] returned for the bounds [lo] and [hi]. *)
Definition clipped (lo hi : Z) (x : Q) : Prop :=
  exists v, x = np_clip v (inject_Z lo) (inject_Z hi).

(** The segments of the polyline through [pts], in order. *)
Definition polyline (pts : list (Q * Q)) : list (Q * Q * Q * Q) :=
  zip_with (fun p q => (fst p, snd p, fst q, snd q)) pts (tail pts).

(** The canvas after the segments of the polyline through [pts], then a
    cap of radius [brushWidth // 2 - 1] at every point. *)
Definition drawn_stroke (line : Image -> Q * Q * Q * Q -> Z -> Z -> Image)
    (ellipse : Image -> Q * Q * Q * Q -> Z -> Image) (mask : Image)
    (pts : list (Q * Q)) (brushWidth fill : Z) : Image :=
  let radius := inject_Z (brushWidth / 2 - 1) in
  fold_left (fun m p => ellipse m (fst p - radius, snd p - radius,
                                   fst p + radius, snd p + radius) fill)
    pts (fold_left (fun m seg => line m seg fill brushWidth) (polyline pts) mask).

(** [x] is [x0] moved by an integer of [-m, m), then clipped into
    [lo, hi]: a point that the animation step selected. *)
Definition jittered (lo hi m : Z) (x0 x : Q) : Prop :=
  exists d : Z, (- m <= d < m)%Z
                /\ x = np_clip (x0 + inject_Z d) (inject_Z lo) (inject_Z hi).

(** The velocity that [random_accelerate], with ['guassian'], makes of
    [v] with the next two normal draws of [w]. *)
Definition perturbed (v : Velocity) (maxAcceleration : Q * Q) (w : world) : Velocity :=
  (fst v + (0 + fst maxAcceleration / 2 * np_draw w 0),
   snd v + (0 + snd maxAcceleration / 2 * np_draw w 1)).

(** The number of draws made so far from the generator of
    [numpy.random]: one for each call of [np.random.normal],
    [np.random.uniform] and [np.random.randint], and one for each swap of
    [np.random.shuffle]. *)
Definition np_cursor (w : world) : nat := cursor (np_state w).

(** What one call of [random_move_control_points] on the arrays [xs] and
    [ys] makes of them, of the heap and of the velocity: [chosen] are the
    first [int(n * nMovePointRatio)] indices of a permutation [perm] of
    [0 .. n - 1]; the arrays [X] and [Y] are new.  The call makes two
    normal draws, [n - 1] draws for the shuffle, two integer draws for
    each index it selects, and two more draws when it samples the
    velocity again. *)
Record step_result (np_cos np_sin : Q -> Q) (imageWidth imageHeight : Z)
    (lineVelocity : Velocity) (nMovePointRatio : Q) (maxPiontMove : Z)
    (maxLineAcceleration : Q * Q) (boarderGap : Z) (w : world) (xs ys : list Q)
    (r : loc * loc * Velocity) (w' : world) (perm : list nat) (X Y : list Q)
  : Prop := {
  step_chosen := py_slice_to perm
                   (py_int (inject_Z (Z.of_nat (length xs)) * nMovePointRatio));
  step_perm : perm ≡ₚ seq 0 (length xs);
  step_heap : heap w' = heap w ++ [X; Y];
  step_new_Xs : fst (fst r) = length (heap w);
  step_new_Ys : snd (fst r) = S (length (heap w));
  step_length_X : length X = length xs;
  step_length_Y : length Y = length xs;
  step_others : forall i x y,
    xs !! i = Some x -> ys !! i = Some y -> i ∉ step_chosen ->
    X !! i = Some (x + line_shift np_cos lineVelocity)
    /\ Y !! i = Some (y + line_shift np_sin lineVelocity);
  step_selected : forall i x y,
    xs !! i = Some x -> ys !! i = Some y -> i ∈ step_chosen ->
    exists x' y',
      X !! i = Some x' /\ Y !! i = Some y'
      /\ jittered boarderGap (imageWidth - boarderGap) maxPiontMove
           (x + line_shift np_cos lineVelocity) x'
      /\ jittered boarderGap (imageHeight - boarderGap) maxPiontMove
           (y + line_shift np_sin lineVelocity) y';
  step_velocity :
    snd r = perturbed lineVelocity maxLineAcceleration w \/ 0 <= fst (snd r);
  step_no_escape :
    (forall i x y, xs !! i = Some x -> ys !! i = Some y ->
       within maxPiontMove (imageWidth - maxPiontMove)
         (x + line_shift np_cos lineVelocity)
       /\ within maxPiontMove (imageHeight - maxPiontMove)
            (y + line_shift np_sin lineVelocity)) ->
    snd r = perturbed lineVelocity maxLineAcceleration w;
  step_draws :
    let base := (np_cursor w + 2 + (length xs - 1) + 2 * length step_chosen)%nat in
    np_cursor w' = base \/ np_cursor w' = (base + 2)%nat
}.

(** The world after [n] more draws from the generator of the [random]
    module. *)
Definition py_skips (n : nat) (w : world) : world :=
  World (np_state w) (Tape (draws (py_state w)) (n + cursor (py_state w))) (heap w).

(** The entry of a two-dimensional array at row [i] and column [j]. *)
Definition cell {A} (px : list (list A)) (i j : nat) : option A :=
  match px !! i with
  | Some row => row !! j
  | None => None
  end.

(** The cell [(x, y)], row then column as the walk has them, lies on the
    canvas. *)
Definition in_canvas (imageWidth imageHeight : Z) (c : Z * Z) : Prop :=
  (0 <= fst c < imageHeight)%Z /\ (0 <= snd c < imageWidth)%Z.

(** [c'] is one step of the walk after [c]: one of the four actions, then
    the clip to the canvas. *)
Definition walk_move (imageWidth imageHeight : Z) (c c' : Z * Z) : Prop :=
  exists a, a ∈ action_list
            /\ c' = (np_clipZ (fst c + fst a) 0 (imageHeight - 1),
                     np_clipZ (snd c + snd a) 0 (imageWidth - 1)).

(** The cells that a walk from [c] visits, in order. *)
Fixpoint walk_from (imageWidth imageHeight : Z) (c : Z * Z) (cells : list (Z * Z))
  : Prop :=
  match cells with
  | [] => True
  | c' :: rest =>
      walk_move imageWidth imageHeight c c' /\ walk_from imageWidth imageHeight c' rest
  end.

(** The entry [a[i][j][t][c]] of a four-dimensional array. *)
Definition cell4 {A} (a : list (list (list (list A)))) (i j t c : nat) : option A :=
  match cell a i j with
  | Some l => cell l t c
  | None => None
  end.

(** A three-dimensional array of shape [(h, w, c)]. *)
Definition grid3 {A} (h w c : nat) (a : list (list (list A))) : Prop :=
  grid h w a /\ Forall (Forall (fun p => length p = c)) a.

(** The number that [Stack] makes of the pixel in row [i] and column [j]
    of a single-band frame.  A group whose first frame has the mode ['1']
    is converted to ['L'], where a white pixel is 255; in a group whose
    first frame has the mode ['L'] a frame of mode ['1'] is read as an
    array of booleans, where a white pixel is 1. *)
Definition grey_level (first_is_bilevel : bool) (img : Image) (i j : nat)
  : option Z :=
  match img with
  | Image1 px =>
      (fun b : bool => if b then (if first_is_bilevel then 255 else 1) else 0)%Z
        <$> cell px i j
  | ImageL px => cell px i j
  | _ => None
  end.

(** The bands of the pixel in row [i] and column [j] of a frame with
    bands. *)
Definition bands (img : Image) (i j : nat) : option (list Z) :=
  match img with
  | ImageRGB px => cell px i j
  | ImageOther _ px => cell px i j
  | _ => None
  end.

(** ** GroupRandomHorizontalFlip *)

(** [random.random()]: a float of [0, 1). *)
Definition random_random : M Q := x <- py_next ;; ret (frac x).

(** The [k]-th draw to come from the generator of the [random] module,
    as [random.random()] returns it. *)
Definition py_draw (w : world) (k : nat) : Q :=
  frac (draws (py_state w) (k + cursor (py_state w))).

(** [img.transpose(Image.FLIP_LEFT_RIGHT)]: every row is reversed. *)
Definition transpose_FLIP_LEFT_RIGHT (img : Image) : Image :=
  match img with
  | Image1 px => Image1 (map (@rev bool) px)
  | ImageL px => ImageL (map (@rev Z) px)
  | ImageRGB px => ImageRGB (map (@rev (list Z)) px)
  | ImageOther m px => ImageOther m (map (@rev (list Z)) px)
  end.

(** [range(0, n, 2)] *)
Definition py_range_step2 (n : nat) : list nat :=
  map (fun k => 2 * k)%nat (seq 0 (Nat.div2 (S n))).

(** A value or an exception that does not depend on the world. *)
Definition of_result {A} (r : result A) : M A := fun w => (r, w).

Section Flip.
(** [ImageOps.invert], with the exception it raises on the modes it
    does not support. *)
Variable ImageOps_invert : Image -> result Image.

(** [ret[i] = ImageOps.invert(ret[i])] *)
Definition invert_at (flipped : list Image) (i : nat) : M (list Image) :=
  match flipped !! i with
  | None => raise IndexError
  | Some img =>
      inverted <- of_result (ImageOps_invert img) ;;
      ret (<[i := inverted]> flipped)
  end.

(** [GroupRandomHorizontalFlip(self_is_flow).__call__(img_group, is_flow)]:
    the body reads [self.is_flow], not its argument [is_flow]. *)
Definition GroupRandomHorizontalFlip_call (self_is_flow : bool)
    (img_group : list Image) (is_flow : bool) : M (list Image) :=
  v <- random_random ;;
  if negb (Qle_bool (1 # 2) v) then
    let flipped := map transpose_FLIP_LEFT_RIGHT img_group in
    if self_is_flow
    then foldM invert_at flipped (py_range_step2 (length flipped))
    else ret flipped
  else ret img_group.
End Flip.

(** ** ToTorchFormatTensor *)

(** [pic] is a four-dimensional [numpy.ndarray] of bytes, as [Stack]
    returns it, or a PIL image. *)
Inductive pic : Type := Ndarray (a : array4) | PIL (img : Image).

(** A [torch.FloatTensor] of three or of four dimensions. *)
Inductive tensor : Type :=
| Tensor3 (t : list (list (list Q)))
| Tensor4 (t : list (list (list (list Q)))).

(** What a call into torch gives: a value, or [RuntimeError]. *)
Inductive torch_result (A : Type) : Type :=
| Returned (a : A)
| RuntimeError.
Arguments Returned {A} a.
Arguments RuntimeError {A}.

Definition tabulate {A} (n : nat) (f : nat -> A) : list A := map f (seq 0 n).

(** [torch.from_numpy(a).permute(2, 3, 0, 1).contiguous()]:
    [out[l][c][h][w] = a[h][w][l][c]]. *)
Definition permute_2301 (a : array4) : array4 :=
  let '(H, W, L, C) := shape4 a in
  tabulate L (fun l => tabulate C (fun c => tabulate H (fun h => tabulate W (fun w =>
    default 0%Z (cell4 a h w l c))))).

(** One byte of [tobytes()] on the mode ['1']: eight pixels, the first
    in the highest bit. *)
Definition byte_of_bits (bits : list bool) : Z :=
  fold_left (fun acc k => (2 * acc + (if nth k bits false then 1 else 0))%Z)
    (seq 0 8) 0%Z.

(** A row of the mode ['1'] in [tobytes()]: eight pixels to a byte, the
    last byte padded. *)
Definition pack_bits (row : list bool) : list Z :=
  tabulate ((length row + 7) / 8) (fun k => byte_of_bits (take 8 (drop (8 * k) row))).

(** [pic.tobytes()] *)
Definition Image_tobytes (img : Image) : list Z :=
  match img with
  | Image1 px => concat (map pack_bits px)
  | ImageL px => concat px
  | ImageRGB px => concat (concat px)
  | ImageOther _ px => concat (concat px)
  end.

(** [img.float().div(255) if self.div else img.float()], on one entry. *)
Definition to_float (div : bool) (x : Z) : Q :=
  if div then inject_Z x / 255 else inject_Z x.

(** [ToTorchFormatTensor(div).__call__(pic)].  In the branch of the PIL
    images the bytes are viewed as [(height, width, len(pic.mode))], which
    torch refuses unless their number is the product of the three, and
    [out[c][h][w]] is the byte [(h * width + w) * len(pic.mode) + c]. *)
Definition ToTorchFormatTensor_call (div : bool) (p : pic) : torch_result tensor :=
  match p with
  | Ndarray a =>
      Returned (Tensor4 (map (map (map (map (to_float div)))) (permute_2301 a)))
  | PIL img =>
      let buffer := Image_tobytes img in
      let '(W, H) := Image_size img in
      let C := String.length (Image_mode img) in
      if (length buffer =? H * W * C)%nat then
        Returned (Tensor3 (tabulate C (fun c => tabulate H (fun h => tabulate W (fun w =>
          to_float div (nth ((h * W + w) * C + c) buffer 0%Z))))))
      else RuntimeError
  end.

(** In the heap [h] the stroke [st] has two arrays of [fst shape] points
    each and the brush width [snd shape]. *)
Definition stroke_shape (h : list (list Q)) (st : Stroke) (shape : nat * Z) : Prop :=
  exists xs ys,
    h !! (fst (fst (fst st))) = Some xs /\ h !! (snd (fst (fst st))) = Some ys
    /\ length xs = fst shape /\ length ys = fst shape /\ snd st = snd shape.

(** * Properties *)

(** ** Numbers *)

Lemma frac_range (x : Q) : 0 <= frac x /\ frac x < 1.
Proof.
  unfold frac. pose proof (Qfloor_le x) as Hlo. pose proof (Qlt_floor x) as Hhi.
  rewrite inject_Z_plus in Hhi. change (inject_Z 1) with 1 in Hhi. lra.
Qed.

Lemma np_clip_range (x lo hi : Q) : lo <= hi -> lo <= np_clip x lo hi /\ np_clip x lo hi <= hi.
Proof.
  intros Hle. unfold np_clip. split.
  - apply Q.min_glb; [apply Q.le_max_r | exact Hle].
  - apply Q.le_min_r.
Qed.

Lemma Qle_bool_true (x y : Q) : x <= y -> Qle_bool x y = true.
Proof. apply Qle_bool_iff. Qed.

Lemma Qle_bool_false (x y : Q) : y < x -> Qle_bool x y = false.
Proof.
  intros H. destruct (Qle_bool x y) eqn:E; [|reflexivity].
  apply Qle_bool_iff in E. lra.
Qed.

Lemma half_nonneg (x : Q) : 0 <= x -> 0 <= x / 2.
Proof. intros H. unfold Qdiv. change (/ 2) with (1 # 2). lra. Qed.

Lemma half_negative (x : Q) : x < 0 -> x / 2 < 0.
Proof. intros H. unfold Qdiv. change (/ 2) with (1 # 2). lra. Qed.

(** ** numpy.random *)

Lemma np_random_uniform_eq (low high : Q) (w : world) :
  np_random_uniform low high w
  = (Ok (low + (high - low) * frac (np_draw w 0)), np_skip w).
Proof. reflexivity. Qed.

Lemma np_random_normal_eq (loc_ scale : Q) (w : world) :
  0 <= scale ->
  np_random_normal loc_ scale w = (Ok (loc_ + scale * np_draw w 0), np_skip w).
Proof.
  intros H. unfold np_random_normal. rewrite (Qle_bool_true _ _ H). reflexivity.
Qed.

Lemma np_random_normal_negative (loc_ scale : Q) (w : world) :
  scale < 0 -> np_random_normal loc_ scale w = (Raise ValueError, w).
Proof.
  intros H. unfold np_random_normal. rewrite (Qle_bool_false _ _ H). reflexivity.
Qed.

(** With a scale of either sign the only exception is [ValueError]. *)
Lemma np_random_normal_cases (loc_ scale : Q) (w : world) :
  (exists z w', np_random_normal loc_ scale w = (Ok z, w'))
  \/ np_random_normal loc_ scale w = (Raise ValueError, w).
Proof.
  unfold np_random_normal. destruct (Qle_bool 0 scale).
  - left. eexists _, _. reflexivity.
  - right. reflexivity.
Qed.

Lemma np_random_randint_eq (low high : Z) (w : world) :
  (low < high)%Z ->
  exists k, np_random_randint low high w = (Ok k, np_skip w) /\ (low <= k < high)%Z.
Proof.
  intros H. unfold np_random_randint.
  destruct (Z.ltb_spec low high) as [_|]; [|lia].
  eexists. split; [reflexivity|].
  destruct (frac_range (np_draw w 0)) as [Hlo Hhi].
  change (peek (np_state w)) with (np_draw w 0).
  set (r := frac (np_draw w 0)) in *.
  assert (Hd : 0 < inject_Z (high - low)).
  { change 0 with (inject_Z 0). rewrite <- Zlt_Qlt. lia. }
  assert (H0 : (0 <= Qfloor (r * inject_Z (high - low)))%Z).
  { change 0%Z with (Qfloor 0). apply Qfloor_resp_le. nra. }
  assert (H1 : (Qfloor (r * inject_Z (high - low)) < high - low)%Z).
  { rewrite Zlt_Qlt. eapply Qle_lt_trans; [apply Qfloor_le|]. nra. }
  lia.
Qed.

(** ** Velocities *)

Lemma get_random_velocity_uniform (max_speed : Q) (w : world) :
  get_random_velocity max_speed "uniform" w
  = (Ok (max_speed + (1 - max_speed) * frac (np_draw w 0),
         0 + (2 * np_pi - 0) * frac (np_draw w 1)),
     np_skip (np_skip w)).
Proof. reflexivity. Qed.

Lemma get_random_velocity_guassian (max_speed : Q) (w : world) :
  0 <= max_speed ->
  get_random_velocity max_speed "guassian" w
  = (Ok (Qabs (0 + max_speed / 2 * np_draw w 0),
         0 + (2 * np_pi - 0) * frac (np_draw w 1)),
     np_skip (np_skip w)).
Proof.
  intros H. unfold get_random_velocity, bind. simpl.
  rewrite (np_random_normal_eq _ _ _ (half_nonneg _ H)). reflexivity.
Qed.

Lemma get_random_velocity_unsupported (max_speed : Q) (dist : string) (w : world) :
  dist <> "uniform"%string -> dist <> "guassian"%string ->
  get_random_velocity max_speed dist w = (Raise (unsupported dist), w).
Proof.
  intros Hu Hg. unfold get_random_velocity, bind.
  destruct (String.eqb_spec dist "uniform"); [contradiction|].
  destruct (String.eqb_spec dist "guassian"); [contradiction|].
  reflexivity.
Qed.

Lemma random_accelerate_uniform (speed angle d_speed d_angle : Q) (w : world) :
  random_accelerate (speed, angle) (d_speed, d_angle) "uniform" w
  = (Ok (speed + (- d_speed + (d_speed - - d_speed) * frac (np_draw w 0)),
         angle + (- d_angle + (d_angle - - d_angle) * frac (np_draw w 1))),
     np_skip (np_skip w)).
Proof. reflexivity. Qed.

Lemma random_accelerate_guassian (speed angle d_speed d_angle : Q) (w : world) :
  0 <= d_speed -> 0 <= d_angle ->
  random_accelerate (speed, angle) (d_speed, d_angle) "guassian" w
  = (Ok (speed + (0 + d_speed / 2 * np_draw w 0),
         angle + (0 + d_angle / 2 * np_draw w 1)),
     np_skip (np_skip w)).
Proof.
  intros Hs Ha. unfold random_accelerate, bind. simpl.
  rewrite (np_random_normal_eq _ _ _ (half_nonneg _ Hs)).
  rewrite (np_random_normal_eq _ _ _ (half_nonneg _ Ha)). reflexivity.
Qed.

Lemma random_accelerate_unsupported (v : Velocity) (acc : Q * Q) (dist : string)
    (w : world) :
  dist <> "uniform"%string -> dist <> "guassian"%string ->
  random_accelerate v acc dist w = (Raise (unsupported dist), w).
Proof.
  intros Hu Hg. destruct v as [speed angle], acc as [d_speed d_angle].
  unfold random_accelerate.
  destruct (String.eqb_spec dist "uniform"); [contradiction|].
  destruct (String.eqb_spec dist "guassian"); [contradiction|].
  reflexivity.
Qed.

Lemma get_random_velocity_supported (max_speed : Q) (dist : string) (w : world) :
  dist = "uniform"%string \/ dist = "guassian"%string ->
  ~ unsupported_error (get_random_velocity max_speed dist) w.
Proof.
  intros [-> | ->] [msg H].
  - rewrite get_random_velocity_uniform in H. discriminate.
  - unfold get_random_velocity, bind in H. simpl in H.
    destruct (np_random_normal_cases 0 (max_speed / 2) w) as [(z & w' & E) | E];
      rewrite E in H; simpl in H; discriminate.
Qed.

Lemma random_accelerate_supported (v : Velocity) (acc : Q * Q) (dist : string)
    (w : world) :
  dist = "uniform"%string \/ dist = "guassian"%string ->
  ~ unsupported_error (random_accelerate v acc dist) w.
Proof.
  destruct v as [speed angle], acc as [d_speed d_angle].
  intros [-> | ->] [msg H].
  - rewrite random_accelerate_uniform in H. discriminate.
  - unfold random_accelerate, bind in H. simpl in H.
    destruct (np_random_normal_cases 0 (d_speed / 2) w) as [(z & w' & E) | E];
      rewrite E in H; simpl in H; [|discriminate].
    destruct (np_random_normal_cases 0 (d_angle / 2) w') as [(z' & w'' & E') | E'];
      rewrite E' in H; simpl in H; discriminate.
Qed.

(** C5, at the failing input [max_speed = 10], [dist = 'uniform'], with
    the uniform sample [r = 1/2]: the speed returned is
    [10 + (1 - 10) * r = 11/2], a draw between [max_speed] and 1, and not
    [r * max_speed = 5]; the angle is [2 * pi * r'] for its own sample
    [r' = 0]. *)
Theorem uniform_velocity_speed_from_low :
  exists v w',
    get_random_velocity 10 "uniform" (world_of [1 # 2; 0] [] []) = (Ok v, w')
    /\ fst v == 11 # 2
    /\ ~ fst v == (1 # 2) * 10
    /\ snd v == 2 * np_pi * 0.
Proof.
  eexists _, _. split; [reflexivity|]. simpl.
  repeat split; try reflexivity. intros H. vm_compute in H. discriminate.
Qed.

(** In general the uniform branch returns
    [max_speed + (1 - max_speed) * r] for its sample [r] of [0, 1), and
    the angle [2 * pi * r']. *)
Lemma uniform_velocity_formula (max_speed : Q) (w : world) :
  succeeds (get_random_velocity max_speed "uniform") w
    (fun v _ => fst v == max_speed + (1 - max_speed) * frac (np_draw w 0)
                /\ snd v == 2 * np_pi * frac (np_draw w 1)).
Proof.
  eexists _, _. split; [apply get_random_velocity_uniform|]. cbn [fst snd]. split; ring.
Qed.

(** C8, as the code has it: sampling and perturbation raise
    [NotImplementedError] exactly when [dist] is neither ['uniform'] nor
    ['guassian'] (the spelling of the code); with ['uniform'] they return,
    and with ['guassian'] they return when the bounds are not negative;
    the perturbed velocity is the old one plus the two draws, unclamped. *)
Theorem unsupported_distribution_iff (dist : string) (w : world) :
  (forall max_speed,
      unsupported_error (get_random_velocity max_speed dist) w
      <-> dist <> "uniform"%string /\ dist <> "guassian"%string)
  /\ (forall v acc,
      unsupported_error (random_accelerate v acc dist) w
      <-> dist <> "uniform"%string /\ dist <> "guassian"%string)
  /\ (forall max_speed,
      exists v w', get_random_velocity max_speed "uniform" w = (Ok v, w'))
  /\ (forall max_speed, 0 <= max_speed ->
      exists v w', get_random_velocity max_speed "guassian" w = (Ok v, w'))
  /\ (forall speed angle d_speed d_angle,
      random_accelerate (speed, angle) (d_speed, d_angle) "uniform" w
      = (Ok (speed + (- d_speed + (d_speed - - d_speed) * frac (np_draw w 0)),
             angle + (- d_angle + (d_angle - - d_angle) * frac (np_draw w 1))),
         np_skip (np_skip w)))
  /\ (forall speed angle d_speed d_angle, 0 <= d_speed -> 0 <= d_angle ->
      random_accelerate (speed, angle) (d_speed, d_angle) "guassian" w
      = (Ok (speed + (0 + d_speed / 2 * np_draw w 0),
             angle + (0 + d_angle / 2 * np_draw w 1)),
         np_skip (np_skip w))).
Proof.
  assert (Hdec : (dist <> "uniform"%string /\ dist <> "guassian"%string)
                 \/ (dist = "uniform"%string \/ dist = "guassian"%string)).
  { destruct (String.eqb_spec dist "uniform"); [right; left; assumption|].
    destruct (String.eqb_spec dist "guassian"); [right; right; assumption|].
    left. split; assumption. }
  split; [|split; [|split; [|split; [|split]]]].
  - intros max_speed. split.
    + intros Herr. destruct Hdec as [Hn | Hs]; [assumption|].
      exfalso. exact (get_random_velocity_supported _ _ _ Hs Herr).
    + intros [Hu Hg].
      exists ("Distribution type " ++ dist ++ " is not supported.")%string.
      rewrite get_random_velocity_unsupported by assumption. reflexivity.
  - intros v acc. split.
    + intros Herr. destruct Hdec as [Hn | Hs]; [assumption|].
      exfalso. exact (random_accelerate_supported _ _ _ _ Hs Herr).
    + intros [Hu Hg].
      exists ("Distribution type " ++ dist ++ " is not supported.")%string.
      rewrite random_accelerate_unsupported by assumption. reflexivity.
  - intros max_speed. eexists _, _. apply get_random_velocity_uniform.
  - intros max_speed H. eexists _, _. apply get_random_velocity_guassian, H.
  - intros. apply random_accelerate_uniform.
  - intros. apply random_accelerate_guassian; assumption.
Qed.

Lemma unsupported_distribution_iff_witness :
  0 <= 10 /\
  exists v w', get_random_velocity 10 "guassian" (world_of [1; 0] [] []) = (Ok v, w').
Proof.
  split; [discriminate|].
  apply (unsupported_distribution_iff "guassian" (world_of [1; 0] [] [])).
  discriminate.
Defined.

(** The name ['gaussian'] of the claim is not one the code accepts, and
    ['guassian'] with a negative bound raises [ValueError]. *)
Lemma gaussian_spelling_raises :
  fst (get_random_velocity 10 "gaussian" (world_of [] [] []))
  = Raise (NotImplementedError "Distribution type gaussian is not supported.")
  /\ fst (random_accelerate (1, 0) (5, 1 # 2) "gaussian" (world_of [] [] []))
     = Raise (NotImplementedError "Distribution type gaussian is not supported.")
  /\ fst (get_random_velocity (-1) "guassian" (world_of [] [] [])) = Raise ValueError.
Proof. repeat split; reflexivity. Qed.

(** C2, as the code has it: the speed is not negative after sampling by
    [get_random_velocity] with a bound that is not negative, after the
    first draw [np.random.uniform(0, maxHeadSpeed)] of the head speed, and
    after each perturbation of the head in stroke creation, where it is
    clipped into [0, maxHeadSpeed]. *)
Theorem sampled_and_head_speed_nonneg (max_speed : Q) (w : world) :
  0 <= max_speed ->
  (forall dist, dist = "uniform"%string \/ dist = "guassian"%string ->
     succeeds (get_random_velocity max_speed dist) w (fun v _ => 0 <= fst v))
  /\ succeeds (np_random_uniform 0 max_speed) w (fun speed _ => 0 <= speed)
  /\ (forall np_cos np_sin imageWidth imageHeight maxHeadAcceleration boarderGap h i,
     succeeds (next_vertex np_cos np_sin imageWidth imageHeight max_speed
                 maxHeadAcceleration boarderGap h i) w
       (fun h' _ => 0 <= head_speed h' /\ head_speed h' <= max_speed)).
Proof.
  intros Hmax. split; [|split].
  - intros dist [-> | ->].
    + eexists _, _. split; [apply get_random_velocity_uniform|]. cbn [fst].
      destruct (frac_range (np_draw w 0)). nra.
    + eexists _, _. split; [apply get_random_velocity_guassian, Hmax|]. cbn [fst].
      apply Qabs_nonneg.
  - eexists _, _. split; [apply np_random_uniform_eq|].
    destruct (frac_range (np_draw w 0)). nra.
  - intros np_cos np_sin imageWidth imageHeight [d_speed d_angle] boarderGap h i.
    unfold succeeds, next_vertex, bind. rewrite random_accelerate_uniform.
    destruct boarderGap; eexists _, _; (split; [reflexivity|]); cbn [head_speed];
      apply np_clip_range; assumption.
Qed.

Lemma sampled_and_head_speed_nonneg_witness :
  0 <= 10 /\
  succeeds (get_random_velocity 10 "guassian") (world_of [-3; 0] [] [])
    (fun v _ => 0 <= fst v).
Proof.
  split; [discriminate|].
  apply (sampled_and_head_speed_nonneg 10 (world_of [-3; 0] [] []));
    [discriminate | right; reflexivity].
Defined.

(** After a perturbation the speed can be negative: from speed 1, with
    [maxAcceleration = (5, 0.5)] and the normal draw [-3], the new speed
    is [1 + 5/2 * (-3) = -13/2]. *)
Lemma perturbed_speed_negative :
  exists v w',
    random_accelerate (1, 0) (5, 1 # 2) "guassian" (world_of [-3; 0] [] [])
    = (Ok v, w')
    /\ fst v < 0.
Proof. eexists _, _. split; [reflexivity|]. reflexivity. Qed.

(** ** Coverage ratio *)

Lemma count_le {A} (p : A -> bool) (px : list (list A)) :
  (count p px <= length (concat px))%nat.
Proof. unfold count. apply length_filter. Qed.

Lemma count_flat_all {A} (p : A -> bool) (l : list A) :
  Forall (fun x => p x = true) l -> filter (fun x => p x = true) l = l.
Proof.
  induction 1 as [|x l Hx _ IH]; [reflexivity|].
  rewrite filter_cons_True by exact Hx. f_equal. exact IH.
Qed.

Lemma count_flat_none {A} (p : A -> bool) (l : list A) :
  Forall (fun x => p x = false) l -> filter (fun x => p x = true) l = [].
Proof.
  induction 1 as [|x l Hx _ IH]; [reflexivity|].
  rewrite filter_cons_False; [exact IH|]. rewrite Hx. discriminate.
Qed.

Lemma Forall_concat {A} (P : A -> Prop) (px : list (list A)) :
  Forall (Forall P) px -> Forall P (concat px).
Proof.
  induction 1 as [|row px Hrow _ IH]; simpl; [constructor|].
  apply Forall_app. split; assumption.
Qed.

Lemma count_all {A} (p : A -> bool) (px : list (list A)) :
  Forall (Forall (fun x => p x = true)) px -> count p px = length (concat px).
Proof.
  intros H. unfold count. rewrite count_flat_all; [reflexivity|].
  apply Forall_concat, H.
Qed.

Lemma count_none {A} (p : A -> bool) (px : list (list A)) :
  Forall (Forall (fun x => p x = false)) px -> count p px = 0%nat.
Proof.
  intros H. unfold count. rewrite count_flat_none; [reflexivity|].
  apply Forall_concat, H.
Qed.

Lemma length_filter_map {A B} (f : A -> B) (p : B -> bool) (q : A -> bool) (l : list A) :
  (forall x, p (f x) = q x) ->
  length (filter (fun y => p y = true) (map f l))
  = length (filter (fun x => q x = true) l).
Proof.
  intros Hpq. induction l as [|x l IH]; [reflexivity|].
  simpl. destruct (q x) eqn:E.
  - rewrite filter_cons_True by (rewrite Hpq; exact E).
    rewrite (filter_cons_True (fun x => q x = true)) by exact E.
    simpl. f_equal. exact IH.
  - rewrite filter_cons_False by (rewrite Hpq, E; discriminate).
    rewrite (filter_cons_False (fun x => q x = true)) by (rewrite E; discriminate).
    exact IH.
Qed.

Lemma count_convert_L (px : list (list bool)) :
  count (Z.eqb 0) (convert_L px) = count negb px.
Proof.
  unfold count, convert_L. rewrite <- concat_map.
  apply length_filter_map. intros []; reflexivity.
Qed.

Lemma dims_convert_L (px : list (list bool)) : dims (convert_L px) = dims px.
Proof.
  unfold dims, convert_L. rewrite length_map. f_equal.
  destruct px; [reflexivity|]. simpl. apply length_map.
Qed.

Lemma rectangular_area {A} (px : list (list A)) :
  rectangular px -> length (concat px) = (fst (dims px) * snd (dims px))%nat.
Proof.
  unfold rectangular. generalize (fst (dims px)) as w. intros w H.
  unfold dims. cbn [snd]. induction H as [|row px Hrow _ IH]; simpl; [lia|].
  rewrite length_app, IH, Hrow. lia.
Qed.

Lemma mask_pixels_histogram0 (mask : Image) (px : array2) :
  mask_pixels mask = Some px ->
  histogram0 mask = count (Z.eqb 0) px /\ Image_size mask = dims px.
Proof.
  destruct mask; simpl; intros H; inversion H; subst; clear H.
  - rewrite count_convert_L, dims_convert_L. split; reflexivity.
  - split; reflexivity.
Qed.

Lemma ratio_range (a b : nat) :
  (a <= b)%nat -> (0 < b)%nat ->
  0 <= Qmake (Z.of_nat a) 1 / Qmake (Z.of_nat b) 1
  /\ Qmake (Z.of_nat a) 1 / Qmake (Z.of_nat b) 1 <= 1.
Proof.
  intros Hab Hb.
  assert (H0 : 0 < Qmake (Z.of_nat b) 1).
  { unfold Qlt. simpl. lia. }
  split.
  - apply Qle_shift_div_l; [exact H0|]. unfold Qle. simpl. lia.
  - apply Qle_shift_div_r; [exact H0|]. unfold Qle. simpl. lia.
Qed.

(** C4, as the code has it: the ratio of a single-band mask with at least
    one pixel is the number of its pixels equal to 0 over the number of
    its pixels; it lies in [0, 1], is 1 when every pixel is 0 and 0 when
    no pixel is 0. *)
Theorem masked_ratio_counts_zero_pixels (mask : Image) (px : array2) :
  mask_pixels mask = Some px ->
  rectangular px ->
  (0 < length (concat px))%nat ->
  exists q,
    get_masked_ratio mask = Finite q
    /\ q == Qmake (Z.of_nat (count (Z.eqb 0) px)) 1
            / Qmake (Z.of_nat (length (concat px))) 1
    /\ 0 <= q /\ q <= 1
    /\ (Forall (Forall (fun v => v = 0%Z)) px -> q == 1)
    /\ (Forall (Forall (fun v => v <> 0%Z)) px -> q == 0).
Proof.
  intros Hpx Hrect Hpos.
  destruct (mask_pixels_histogram0 _ _ Hpx) as [Hhist Hsize].
  pose proof (rectangular_area _ Hrect) as Harea.
  unfold get_masked_ratio. rewrite Hhist, Hsize.
  destruct (dims px) as [w h] eqn:Hd. cbn [fst snd] in Harea.
  unfold np_true_divide. rewrite <- Nat2Z.inj_mul, <- Harea.
  destruct (Z.eqb_spec (Z.of_nat (length (concat px))) 0) as [E|Hne]; [lia|].
  eexists. split; [reflexivity|]. split; [reflexivity|].
  pose proof (count_le (Z.eqb 0) px) as Hle.
  destruct (ratio_range _ _ Hle Hpos) as [Hlo Hhi].
  split; [exact Hlo|]. split; [exact Hhi|].
  assert (Hnz : ~ Qmake (Z.of_nat (length (concat px))) 1 == 0).
  { unfold Qeq. simpl. lia. }
  split.
  - intros Hall. rewrite count_all.
    + field. exact Hnz.
    + eapply Forall_impl; [exact Hall|]. intros row Hrow.
      eapply Forall_impl; [exact Hrow|]. intros v ->. reflexivity.
  - intros Hnone. rewrite count_none.
    + field. exact Hnz.
    + eapply Forall_impl; [exact Hnone|]. intros row Hrow.
      eapply Forall_impl; [exact Hrow|]. intros v Hv.
      destruct v; [congruence|reflexivity|reflexivity].
Qed.

Lemma masked_ratio_counts_zero_pixels_witness :
  exists q,
    get_masked_ratio (Image1 [[false; true]; [true; true]]) = Finite q
    /\ q == Qmake (Z.of_nat (count (Z.eqb 0) (convert_L [[false; true]; [true; true]]))) 1
            / Qmake (Z.of_nat (length (concat (convert_L [[false; true]; [true; true]])))) 1
    /\ 0 <= q /\ q <= 1
    /\ (Forall (Forall (fun v => v = 0%Z)) (convert_L [[false; true]; [true; true]]) -> q == 1)
    /\ (Forall (Forall (fun v => v <> 0%Z)) (convert_L [[false; true]; [true; true]]) -> q == 0).
Proof.
  apply (masked_ratio_counts_zero_pixels (Image1 [[false; true]; [true; true]])).
  - reflexivity.
  - repeat constructor.
  - simpl. lia.
Defined.

(** The ratio of an all-zero canvas is 1, not 0. *)
Lemma all_zero_canvas_ratio_is_one :
  exists q,
    get_masked_ratio (Image1 [[false; false]; [false; false]]) = Finite q
    /\ q == 1 /\ ~ q == 0.
Proof.
  eexists. split; [reflexivity|]. split; [reflexivity|]. intros H. discriminate.
Qed.

(** ** Stack *)

Lemma zip_with_map_natural {A B C A' B' C'} (f : A -> B -> C) (f' : A' -> B' -> C')
    (g1 : A -> A') (g2 : B -> B') (g3 : C -> C') (l : list A) (k : list B) :
  (forall x y, f' (g1 x) (g2 y) = g3 (f x y)) ->
  zip_with f' (map g1 l) (map g2 k) = map g3 (zip_with f l k).
Proof.
  intros Hf. revert k. induction l as [|x l IH]; intros [|y k]; simpl; try reflexivity.
  rewrite Hf, IH. reflexivity.
Qed.

Lemma expand_dims2_map {A B} (g : A -> B) (a : list (list A)) :
  expand_dims2 (map (map g) a) = map (map (map g)) (expand_dims2 a).
Proof.
  unfold expand_dims2. rewrite !map_map. apply map_ext. intros row.
  rewrite !map_map. reflexivity.
Qed.

(** Stacking commutes with a map over the entries of the frames. *)
Lemma stack_axis2_map {A B} (g : A -> B) (arrays : list (list (list A))) :
  stack_axis2 (map (map (map g)) arrays) = map (map (map g)) (stack_axis2 arrays).
Proof.
  induction arrays as [|a rest IH]; [reflexivity|].
  destruct rest as [|b rest]; [apply expand_dims2_map|].
  change (stack_axis2 (map (map (map g)) (a :: b :: rest)))
    with (zip_with (zip_with cons) (map (map g) a)
            (stack_axis2 (map (map (map g)) (b :: rest)))).
  rewrite IH.
  change (stack_axis2 (a :: b :: rest))
    with (zip_with (zip_with cons) a (stack_axis2 (b :: rest))).
  apply zip_with_map_natural. intros row rows.
  apply zip_with_map_natural. reflexivity.
Qed.

Lemma shape3_reverse_axis2 {A} (a : list (list (list A))) :
  shape3 (reverse_axis2 a) = shape3 a.
Proof.
  unfold shape3, reverse_axis2. rewrite length_map.
  destruct a as [|row a]; [reflexivity|]. simpl. rewrite length_map.
  destruct row as [|p row]; [reflexivity|]. simpl. rewrite length_rev. reflexivity.
Qed.

Lemma same_shapes_reversed {A} (a : list (list (list A))) (l : list (list (list (list A)))) :
  forallb (fun b => shape3_eqb (shape3 b) (shape3 (reverse_axis2 a))) (map reverse_axis2 l)
  = forallb (fun b => shape3_eqb (shape3 b) (shape3 a)) l.
Proof.
  induction l as [|b l IH]; [reflexivity|].
  cbn [map forallb]. rewrite IH, !shape3_reverse_axis2. reflexivity.
Qed.

Lemma np_stack_axis2_reversed (arrays : list array3) :
  np_stack_axis2 (map reverse_axis2 arrays)
  = match np_stack_axis2 arrays with
    | Ok a => Ok (reverse_axis3 a)
    | Raise e => Raise e
    end.
Proof.
  destruct arrays as [|a rest]; [reflexivity|].
  unfold np_stack_axis2.
  change (map reverse_axis2 (a :: rest))
    with (reverse_axis2 a :: map reverse_axis2 rest) at 1.
  cbv beta iota.
  rewrite (same_shapes_reversed a (a :: rest)).
  destruct (forallb (fun b => shape3_eqb (shape3 b) (shape3 a)) (a :: rest));
    [|reflexivity].
  f_equal. exact (stack_axis2_map (@rev Z) (a :: rest)).
Qed.

Lemma length_4 {A} (l : list A) :
  length l = 4%nat -> exists a b c d, l = [a; b; c; d].
Proof.
  destruct l as [|a [|b [|c [|d [|e l]]]]]; try discriminate.
  intros _. eexists _, _, _, _. reflexivity.
Qed.

Lemma grid_4_4 {A} (px : list (list A)) :
  grid 4 4 px ->
  exists a1 a2 a3 a4 b1 b2 b3 b4 c1 c2 c3 c4 d1 d2 d3 d4,
    px = [[a1; a2; a3; a4]; [b1; b2; b3; b4]; [c1; c2; c3; c4]; [d1; d2; d3; d4]].
Proof.
  intros [Hlen Hrows].
  destruct (length_4 _ Hlen) as (ra & rb & rc & rd & ->).
  inversion Hrows as [|? ? Ha Hrows1]; subst.
  inversion Hrows1 as [|? ? Hb Hrows2]; subst.
  inversion Hrows2 as [|? ? Hc Hrows3]; subst.
  inversion Hrows3 as [|? ? Hd _]; subst.
  destruct (length_4 _ Ha) as (a1 & a2 & a3 & a4 & ->).
  destruct (length_4 _ Hb) as (b1 & b2 & b3 & b4 & ->).
  destruct (length_4 _ Hc) as (c1 & c2 & c3 & c4 & ->).
  destruct (length_4 _ Hd) as (d1 & d2 & d3 & d4 & ->).
  repeat eexists.
Qed.

(** Two single-channel 4x4 frames stack to height x width x time x channel. *)
Lemma Stack_single_channel_shape (convert : Image -> array2) (roll : bool)
    (f1 f2 : Image) :
  single_channel_frame 4 4 f1 -> single_channel_frame 4 4 f2 ->
  exists a, Stack_call convert roll [f1; f2] = Ok a /\ shape4 a = (4, 4, 2, 1)%nat.
Proof.
  intros H1 H2.
  destruct f1 as [px1|px1| |]; try contradiction;
    destruct f2 as [px2|px2| |]; try contradiction;
    cbn [single_channel_frame] in H1, H2;
    destruct (grid_4_4 _ H1)
      as (a1 & a2 & a3 & a4 & b1 & b2 & b3 & b4 & c1 & c2 & c3 & c4
          & d1 & d2 & d3 & d4 & ->);
    destruct (grid_4_4 _ H2)
      as (a1' & a2' & a3' & a4' & b1' & b2' & b3' & b4' & c1' & c2' & c3' & c4'
          & d1' & d2' & d3' & d4' & ->);
    eexists; split; reflexivity.
Qed.

Lemma rgb_frame_inv (g : Image) :
  rgb_frame 4 4 g ->
  exists a1 a2 a3 a4 b1 b2 b3 b4 c1 c2 c3 c4 d1 d2 d3 d4,
    g = ImageRGB [[a1; a2; a3; a4]; [b1; b2; b3; b4];
                  [c1; c2; c3; c4]; [d1; d2; d3; d4]]
    /\ length a1 = 3%nat.
Proof.
  destruct g as [| |px|]; try contradiction. intros [Hgrid Hpix].
  destruct (grid_4_4 _ Hgrid)
    as (a1 & a2 & a3 & a4 & b1 & b2 & b3 & b4 & c1 & c2 & c3 & c4
        & d1 & d2 & d3 & d4 & E).
  subst px. exists a1, a2, a3, a4, b1, b2, b3, b4, c1, c2, c3, c4, d1, d2, d3, d4.
  split; [reflexivity|].
  inversion Hpix as [|? ? Hrow _]; subst. inversion Hrow; subst. assumption.
Qed.

(** For two RGB 4x4 frames, [roll=True] gives the array of [roll=False]
    with the last axis, the channels, reversed. *)
Lemma Stack_rgb_roll (convert : Image -> array2) (g1 g2 : Image) :
  rgb_frame 4 4 g1 -> rgb_frame 4 4 g2 ->
  exists a, Stack_call convert false [g1; g2] = Ok a
            /\ Stack_call convert true [g1; g2] = Ok (reverse_axis3 a)
            /\ shape4 a = (4, 4, 2, 3)%nat.
Proof.
  intros H1 H2.
  destruct (rgb_frame_inv _ H1)
    as (a1 & a2 & a3 & a4 & b1 & b2 & b3 & b4 & c1 & c2 & c3 & c4
        & d1 & d2 & d3 & d4 & -> & L1).
  destruct (rgb_frame_inv _ H2)
    as (a1' & a2' & a3' & a4' & b1' & b2' & b3' & b4' & c1' & c2' & c3' & c4'
        & d1' & d2' & d3' & d4' & -> & L2).
  match goal with
  | |- exists a, Stack_call _ false [ImageRGB ?px1; ImageRGB ?px2] = _ /\ _ =>
      assert (Hplain : Stack_call convert false [ImageRGB px1; ImageRGB px2]
                       = np_stack_axis2 [px1; px2]) by reflexivity;
      assert (Hroll : Stack_call convert true [ImageRGB px1; ImageRGB px2]
                      = np_stack_axis2 (map reverse_axis2 [px1; px2])) by reflexivity;
      assert (Hok : np_stack_axis2 [px1; px2] = Ok (stack_axis2 [px1; px2]))
        by (unfold np_stack_axis2; cbn; rewrite L1, L2; reflexivity)
  end.
  rewrite Hplain, Hroll, np_stack_axis2_reversed, Hok.
  eexists. split; [reflexivity|]. split; [reflexivity|].
  unfold shape4. cbn [stack_axis2 expand_dims2 zip_with map hd]. 
  rewrite L1. reflexivity.
Qed.

(** C6, as the code has it: two single-channel 4x4 frames stack to an
    array of shape 4x4x2x1, height x width x time x channel, the time axis
    before the channel axis; for two RGB 4x4 frames [roll=True] gives the
    array of [roll=False] with the channel order reversed. *)
Theorem Stack_shape_and_roll (convert : Image -> array2) (roll : bool)
    (f1 f2 g1 g2 : Image) :
  single_channel_frame 4 4 f1 -> single_channel_frame 4 4 f2 ->
  rgb_frame 4 4 g1 -> rgb_frame 4 4 g2 ->
  (exists a, Stack_call convert roll [f1; f2] = Ok a
             /\ shape4 a = (4, 4, 2, 1)%nat)
  /\ (exists a, Stack_call convert false [g1; g2] = Ok a
                /\ Stack_call convert true [g1; g2] = Ok (reverse_axis3 a)
                /\ shape4 a = (4, 4, 2, 3)%nat).
Proof.
  intros Hf1 Hf2 Hg1 Hg2. split.
  - apply Stack_single_channel_shape; assumption.
  - apply Stack_rgb_roll; assumption.
Qed.

Lemma Stack_shape_and_roll_witness :
  (exists a, Stack_call (fun _ => []) false [grey_4x4; grey_4x4] = Ok a
             /\ shape4 a = (4, 4, 2, 1)%nat)
  /\ (exists a, Stack_call (fun _ => []) false [rgb_4x4; rgb_4x4] = Ok a
                /\ Stack_call (fun _ => []) true [rgb_4x4; rgb_4x4] = Ok (reverse_axis3 a)
                /\ shape4 a = (4, 4, 2, 3)%nat).
Proof.
  apply (Stack_shape_and_roll (fun _ => []) false grey_4x4 grey_4x4 rgb_4x4 rgb_4x4);
    cbn; repeat constructor.
Defined.

(** The stack of two single-channel 4x4 frames does not have the shape
    4x4x1x2: the time axis is the third one. *)
Lemma stack_time_axis_is_third :
  exists a, Stack_call (fun _ => []) false [grey_4x4; grey_4x4] = Ok a
            /\ shape4 a = (4, 4, 2, 1)%nat
            /\ shape4 a <> (4, 4, 1, 2)%nat.
Proof. eexists. split; [reflexivity|]. split; [reflexivity|]. discriminate. Qed.

(** ** Random-walk mask *)

(** C9, at the failing input [imageWidth = 10], [imageHeight = 10],
    [length = 0], for every world: after the two draws of the start cell
    the two index arrays are empty arrays of floats and the assignment
    [canvas[np.array(x_list), np.array(y_list)] = 1] raises [IndexError];
    no mask is returned. *)
Theorem random_walk_length_0_raises (w : world) :
  get_random_walk_mask 10 10 (Some 0%Z) w = (Raise IndexError, py_skip (py_skip w)).
Proof. reflexivity. Qed.

(** A negative length raises in the same way. *)
Lemma random_walk_negative_length_raises (w : world) (n : Z) :
  (n <= 0)%Z ->
  get_random_walk_mask 10 10 (Some n) w = (Raise IndexError, py_skip (py_skip w)).
Proof.
  intros Hn. unfold get_random_walk_mask, bind, py_range.
  replace (Z.to_nat n) with 0%nat by lia. reflexivity.
Qed.

(** With one step the mask is returned: the index arrays are arrays of
    integers. *)
Lemma random_walk_length_1_returns :
  exists mask w',
    get_random_walk_mask 3 2 (Some 1%Z) (world_of [] [0; 0; 0] []) = (Ok mask, w')
    /\ mask = Image1 [[false; true; false]; [false; false; false]].
Proof. eexists _, _. split; [vm_compute; reflexivity | reflexivity]. Qed.

(** ** The assertion on [video_len] *)

Section FailFast.
Variables np_cos np_sin : Q -> Q.
Variable ImageDraw_line : Image -> Q * Q * Q * Q -> Z -> Z -> Image.
Variable ImageDraw_ellipse : Image -> Q * Q * Q * Q -> Z -> Image.

(** C7: for [video_len < 1] the call raises [AssertionError] and leaves
    the world as it found it: no draw is made from either generator, no
    array is allocated, and no mask is returned. *)
Theorem video_len_below_1_raises (video_len : Z) (s : settings) (w : world) :
  (video_len < 1)%Z ->
  get_video_masks_by_moving_random_stroke np_cos np_sin ImageDraw_line
    ImageDraw_ellipse video_len s w
  = (Raise AssertionError, w).
Proof.
  intros H. unfold get_video_masks_by_moving_random_stroke,
    video_masks_and_strokes, bind.
  destruct (Z.leb_spec 1 video_len) as [|_]; [lia|]. reflexivity.
Qed.
End FailFast.

Lemma video_len_below_1_raises_witness :
  (0 < 1)%Z /\
  get_video_masks_by_moving_random_stroke cos_at_0 sin_at_0 no_line no_ellipse
    0 default_settings (world_of [] [] [])
  = (Raise AssertionError, world_of [] [] []).
Proof.
  split; [lia|].
  apply (video_len_below_1_raises cos_at_0 sin_at_0 no_line no_ellipse
           0 default_settings (world_of [] [] [])).
  lia.
Defined.

(** ** Reasoning about computations *)

Lemma succeeds_outcome {A} (m : M A) (w : world) (Q : A -> world -> Prop) :
  succeeds m w Q <-> outcome m w Q (fun _ _ => False).
Proof.
  unfold succeeds, outcome. split.
  - intros (a & w' & -> & H). exact H.
  - destruct (m w) as [[a|e] w']; [|contradiction]. intros H. eauto.
Qed.

Lemma outcome_ret {A} (a : A) (w : world) Q E : Q a w -> outcome (ret a) w Q E.
Proof. intros H. exact H. Qed.

Lemma outcome_raise {A} (e : exn) (w : world) (Q : A -> world -> Prop) E :
  E e w -> outcome (raise e) w Q E.
Proof. intros H. exact H. Qed.

Lemma outcome_bind {A B} (m : M A) (k : A -> M B) (w : world) Q E :
  outcome m w (fun a w' => outcome (k a) w' Q E) E -> outcome (bind m k) w Q E.
Proof.
  unfold outcome, bind. destruct (m w) as [[a|e] w']; intros H; exact H.
Qed.

Lemma outcome_mono {A} (m : M A) (w : world) (Q Q' : A -> world -> Prop)
    (E E' : exn -> world -> Prop) :
  outcome m w Q E ->
  (forall a w', Q a w' -> Q' a w') -> (forall e w', E e w' -> E' e w') ->
  outcome m w Q' E'.
Proof.
  unfold outcome. destruct (m w) as [[a|e] w']; intros H HQ HE; auto.
Qed.

Lemma outcome_eq {A} (m : M A) (w : world) (r : result A) (w' : world) Q E :
  m w = (r, w') ->
  match r with Ok a => Q a w' | Raise e => E e w' end ->
  outcome m w Q E.
Proof. unfold outcome. intros ->. destruct r; auto. Qed.

(** The rule of [for]: [I k] holds before the [k]-th turn. *)
Lemma outcome_foldM {A T} (f : T -> A -> M T) (I : nat -> T -> world -> Prop)
    (E : exn -> world -> Prop) (l : list A) :
  (forall k x s w, l !! k = Some x -> I k s w -> outcome (f s x) w (I (S k)) E) ->
  forall s w, I 0%nat s w -> outcome (foldM f s l) w (I (length l)) E.
Proof.
  intros Hstep.
  assert (Hgen : forall (done todo : list A) s w,
             l = done ++ todo -> I (length done) s w ->
             outcome (foldM f s todo) w (I (length l)) E).
  { intros done todo. revert done.
    induction todo as [|x todo IH]; intros done s w Hl HI.
    - rewrite app_nil_r in Hl. subst done. exact HI.
    - cbn [foldM]. apply outcome_bind.
      eapply outcome_mono; [apply (Hstep (length done) x s w)| |auto].
      + subst l. rewrite lookup_app_r by lia.
        replace (length done - length done)%nat with 0%nat by lia. reflexivity.
      + exact HI.
      + intros s' w' HI'. apply (IH (done ++ [x])).
        * rewrite <- app_assoc. exact Hl.
        * rewrite length_app, Nat.add_1_r. exact HI'. }
  intros s w HI. apply (Hgen [] l); [reflexivity | exact HI].
Qed.

(** ** The heap *)

Lemma keeps_refl (w : world) : keeps (heap w) w.
Proof. unfold keeps. apply firstn_all. Qed.

Lemma keeps_lookup (h0 : list (list Q)) (w : world) (c : loc) :
  keeps h0 w -> (c < length h0)%nat -> heap w !! c = h0 !! c.
Proof.
  unfold keeps. intros H Hc.
  rewrite <- (lookup_take_lt (heap w) (length h0) c) by exact Hc.
  rewrite H. reflexivity.
Qed.

Lemma keeps_length (h0 : list (list Q)) (w : world) :
  keeps h0 w -> (length h0 <= length (heap w))%nat.
Proof.
  unfold keeps. intros H. apply (f_equal length) in H.
  rewrite length_take in H. lia.
Qed.

Lemma keeps_alloc (h0 : list (list Q)) (w : world) (xs : list Q) :
  keeps h0 w -> keeps h0 (set_heap w (heap w ++ [xs])).
Proof.
  intros H. pose proof (keeps_length _ _ H) as Hlen. unfold keeps in *. cbn [heap set_heap].
  rewrite take_app_le by exact Hlen. exact H.
Qed.

Lemma keeps_write (h0 : list (list Q)) (w : world) (a : loc) (xs : list Q) :
  keeps h0 w -> (length h0 <= a)%nat -> keeps h0 (set_heap w (<[a := xs]> (heap w))).
Proof.
  unfold keeps. cbn [heap set_heap]. intros H Ha.
  rewrite take_insert_ge by exact Ha. exact H.
Qed.

(** ** Computations that leave the heap, or a part of it, alone *)

Lemma heap_stable_ret {A} (a : A) : heap_stable (ret a).
Proof. intros w. reflexivity. Qed.

Lemma heap_stable_raise {A} (e : exn) : heap_stable (@raise A e).
Proof. intros w. reflexivity. Qed.

Lemma heap_stable_bind {A B} (m : M A) (k : A -> M B) :
  heap_stable m -> (forall a, heap_stable (k a)) -> heap_stable (bind m k).
Proof.
  intros Hm Hk w. unfold bind. specialize (Hm w).
  destruct (m w) as [[a|e] w']; cbn [snd] in *.
  - rewrite Hk. exact Hm.
  - exact Hm.
Qed.

Lemma heap_stable_foldM {A T} (f : T -> A -> M T) (l : list A) (s : T) :
  (forall s x, heap_stable (f s x)) -> heap_stable (foldM f s l).
Proof.
  intros Hf. revert s. induction l as [|x l IH]; intros s.
  - apply heap_stable_ret.
  - cbn [foldM]. apply heap_stable_bind; [apply Hf | intros s'; apply IH].
Qed.

Lemma heap_stable_np_next : heap_stable np_next.
Proof. intros w. reflexivity. Qed.

Lemma heap_stable_np_random_sample : heap_stable np_random_sample.
Proof. intros w. reflexivity. Qed.

Lemma heap_stable_np_random_uniform (low high : Q) :
  heap_stable (np_random_uniform low high).
Proof. intros w. reflexivity. Qed.

Lemma heap_stable_np_random_normal (loc_ scale : Q) :
  heap_stable (np_random_normal loc_ scale).
Proof. intros w. unfold np_random_normal. destruct (Qle_bool 0 scale); reflexivity. Qed.

Lemma heap_stable_np_random_randint (low high : Z) :
  heap_stable (np_random_randint low high).
Proof. intros w. unfold np_random_randint. destruct (low <? high)%Z; reflexivity. Qed.

Lemma heap_stable_np_random_interval (max : nat) :
  heap_stable (np_random_interval max).
Proof. intros w. reflexivity. Qed.

Lemma heap_stable_np_random_shuffle {A} (l : list A) :
  heap_stable (np_random_shuffle l).
Proof.
  unfold np_random_shuffle. apply heap_stable_foldM. intros s i.
  apply heap_stable_bind; [apply heap_stable_np_random_interval|].
  intros j. apply heap_stable_ret.
Qed.

Lemma heap_stable_random_accelerate (v : Velocity) (acc : Q * Q) (dist : string) :
  heap_stable (random_accelerate v acc dist).
Proof.
  destruct v as [speed angle], acc as [d_speed d_angle]. unfold random_accelerate.
  destruct (dist =? "uniform")%string.
  - apply heap_stable_bind; [apply heap_stable_np_random_uniform|]. intros ds.
    apply heap_stable_bind; [apply heap_stable_np_random_uniform|]. intros da.
    apply heap_stable_ret.
  - destruct (dist =? "guassian")%string; [|apply heap_stable_raise].
    apply heap_stable_bind; [apply heap_stable_np_random_normal|]. intros ds.
    apply heap_stable_bind; [apply heap_stable_np_random_normal|]. intros da.
    apply heap_stable_ret.
Qed.

Lemma heap_stable_get_random_velocity (max_speed : Q) (dist : string) :
  heap_stable (get_random_velocity max_speed dist).
Proof.
  unfold get_random_velocity. apply heap_stable_bind.
  - destruct (dist =? "uniform")%string; [apply heap_stable_np_random_uniform|].
    destruct (dist =? "guassian")%string; [|apply heap_stable_raise].
    apply heap_stable_bind; [apply heap_stable_np_random_normal|]. intros z.
    apply heap_stable_ret.
  - intros speed. apply heap_stable_bind; [apply heap_stable_np_random_uniform|].
    intros angle. apply heap_stable_ret.
Qed.

Lemma heap_stable_ndarray_read (a : loc) : heap_stable (ndarray_read a).
Proof. intros w. unfold ndarray_read. destruct (heap w !! a); reflexivity. Qed.

Lemma heap_stable_ndarray_len (a : loc) : heap_stable (ndarray_len a).
Proof.
  apply heap_stable_bind; [apply heap_stable_ndarray_read|]. intros xs.
  apply heap_stable_ret.
Qed.

Lemma heap_stable_ndarray_getitem (a : loc) (i : nat) : heap_stable (ndarray_getitem a i).
Proof.
  apply heap_stable_bind; [apply heap_stable_ndarray_read|]. intros xs.
  destruct (xs !! i); [apply heap_stable_ret | apply heap_stable_raise].
Qed.

Lemma frames_stable (h0 : list (list Q)) {A} (m : M A) : heap_stable m -> frames h0 m.
Proof. intros Hm w Hk. unfold keeps in *. rewrite Hm. exact Hk. Qed.

Lemma frames_bind (h0 : list (list Q)) {A B} (m : M A) (k : A -> M B) :
  frames h0 m -> (forall a, frames h0 (k a)) -> frames h0 (bind m k).
Proof.
  intros Hm Hk w Hw. unfold bind. specialize (Hm w Hw).
  destruct (m w) as [[a|e] w']; cbn [snd] in *.
  - apply Hk, Hm.
  - exact Hm.
Qed.

Lemma frames_foldM (h0 : list (list Q)) {A T} (f : T -> A -> M T) (l : list A) (s : T) :
  (forall s x, frames h0 (f s x)) -> frames h0 (foldM f s l).
Proof.
  intros Hf. revert s. induction l as [|x l IH]; intros s.
  - apply frames_stable, heap_stable_ret.
  - cbn [foldM]. apply frames_bind; [apply Hf | intros s'; apply IH].
Qed.

Lemma frames_ndarray_write (h0 : list (list Q)) (a : loc) (xs : list Q) :
  (length h0 <= a)%nat -> frames h0 (ndarray_write a xs).
Proof. intros Ha w Hw. apply keeps_write; assumption. Qed.

Lemma frames_ndarray_iadd (h0 : list (list Q)) (a : loc) (k : Q) :
  (length h0 <= a)%nat -> frames h0 (ndarray_iadd a k).
Proof.
  intros Ha. apply frames_bind; [apply frames_stable, heap_stable_ndarray_read|].
  intros xs. apply frames_ndarray_write, Ha.
Qed.

Lemma frames_ndarray_setitem (h0 : list (list Q)) (a : loc) (i : nat) (v : Q) :
  (length h0 <= a)%nat -> frames h0 (ndarray_setitem a i v).
Proof.
  intros Ha. apply frames_bind; [apply frames_stable, heap_stable_ndarray_read|].
  intros xs. destruct (i <? length xs)%nat.
  - apply frames_ndarray_write, Ha.
  - apply frames_stable, heap_stable_raise.
Qed.

Lemma frames_ndarray_iadd_item (h0 : list (list Q)) (a : loc) (i : nat) (e : M Q) :
  (length h0 <= a)%nat -> heap_stable e -> frames h0 (ndarray_iadd_item a i e).
Proof.
  intros Ha He. apply frames_bind; [apply frames_stable, heap_stable_ndarray_getitem|].
  intros x. apply frames_bind; [apply frames_stable, He|].
  intros d. apply frames_ndarray_setitem, Ha.
Qed.

Lemma outcome_frames (h0 : list (list Q)) {A} (m : M A) (w : world) Q E :
  frames h0 m -> keeps h0 w ->
  (forall a w', keeps h0 w' -> Q a w') -> (forall e w', keeps h0 w' -> E e w') ->
  outcome m w Q E.
Proof.
  intros Hm Hw HQ HE. specialize (Hm w Hw). unfold outcome.
  destruct (m w) as [[a|e] w']; cbn [snd] in Hm; auto.
Qed.

(** One step of a computation that frames [h0]: the rest runs in a world
    that keeps [h0]; an exception leaves such a world. *)
Ltac frame_step h0 HE lem :=
  apply outcome_bind; apply (outcome_frames h0);
  [lem | eassumption | | intros ? ? ?; apply HE; assumption].

Section Frame.
Variables np_cos np_sin : Q -> Q.

Lemma frames_move_point (h0 : list (list Q)) (new_Xs new_Ys : loc)
    (imageWidth imageHeight maxPiontMove boarderGap : Z) (new_velocity : bool)
    (i : nat) :
  (length h0 <= new_Xs)%nat -> (length h0 <= new_Ys)%nat ->
  frames h0 (move_point new_Xs new_Ys imageWidth imageHeight maxPiontMove
               boarderGap new_velocity i).
Proof.
  intros Ha Hb. unfold move_point.
  assert (Hd : heap_stable (d <- np_random_randint (- maxPiontMove) maxPiontMove ;;
                            ret (inject_Z d))).
  { apply heap_stable_bind; [apply heap_stable_np_random_randint|].
    intros d. apply heap_stable_ret. }
  apply frames_bind; [apply frames_ndarray_iadd_item; assumption|]. intros _.
  apply frames_bind; [apply frames_ndarray_iadd_item; assumption|]. intros _.
  apply frames_bind; [apply frames_stable, heap_stable_ndarray_getitem|]. intros x.
  apply frames_bind; [apply frames_stable, heap_stable_ndarray_getitem|]. intros y.
  apply frames_bind; [apply frames_ndarray_setitem; assumption|]. intros _.
  apply frames_bind; [apply frames_stable, heap_stable_ndarray_getitem|]. intros y'.
  apply frames_bind; [apply frames_ndarray_setitem; assumption|]. intros _.
  apply frames_stable, heap_stable_ret.
Qed.

(** C10: whatever its arguments, the world and its outcome,
    [random_move_control_points] leaves every array of the heap it
    started from, [Xs] and [Ys] among them, with the contents it had;
    when it returns, [new_Xs] and [new_Ys] are two new arrays, at
    addresses that were not in use before the call. *)
Theorem random_move_control_points_keeps_inputs (Xs Ys : loc)
    (imageWidth imageHeight : Z) (lineVelocity : Velocity) (nMovePointRatio : Q)
    (maxPiontMove : Z) (maxLineAcceleration : Q * Q) (boarderGap : Z)
    (maxInitSpeed : Q) (w : world) :
  outcome (random_move_control_points np_cos np_sin Xs Ys imageWidth imageHeight
             lineVelocity nMovePointRatio maxPiontMove maxLineAcceleration
             boarderGap maxInitSpeed) w
    (fun r w' =>
       (forall c, (c < length (heap w))%nat -> heap w' !! c = heap w !! c)
       /\ fst (fst r) = length (heap w)
       /\ snd (fst r) = S (length (heap w)))
    (fun _ w' =>
       forall c, (c < length (heap w))%nat -> heap w' !! c = heap w !! c).
Proof.
  set (h0 := heap w).
  assert (HE : forall w', keeps h0 w' ->
               forall c, (c < length h0)%nat -> heap w' !! c = h0 !! c).
  { intros w' Hk c Hc. apply keeps_lookup; assumption. }
  unfold random_move_control_points. destruct lineVelocity as [speed angle].
  apply outcome_bind. unfold ndarray_copy at 1. apply outcome_bind.
  unfold outcome at 1, ndarray_read at 1. fold h0.
  destruct (h0 !! Xs) as [xs|] eqn:HXs; [|apply HE, keeps_refl].
  unfold outcome at 1, np_array at 1. fold h0.
  apply outcome_bind. unfold ndarray_copy at 1. apply outcome_bind.
  unfold outcome at 1, ndarray_read at 1. cbn [heap set_heap].
  destruct ((h0 ++ [xs]) !! Ys) as [ys|] eqn:HYs;
    [|apply HE, keeps_alloc, keeps_refl].
  unfold outcome at 1, np_array at 1. cbn [heap set_heap].
  rewrite length_app. cbn [length]. rewrite Nat.add_1_r.
  set (w2 := set_heap _ _).
  assert (Hw2 : keeps h0 w2).
  { unfold w2. apply (keeps_alloc h0 (set_heap w (h0 ++ [xs]))).
    apply keeps_alloc, keeps_refl. }
  assert (Ha : (length h0 <= length h0)%nat) by lia.
  assert (Hb : (length h0 <= S (length h0))%nat) by lia.
  clearbody w2.
  frame_step h0 HE ltac:(apply frames_ndarray_iadd, Ha). intros _ w3 Hw3.
  frame_step h0 HE ltac:(apply frames_ndarray_iadd, Hb). intros _ w4 Hw4.
  frame_step h0 HE ltac:(apply frames_stable, heap_stable_random_accelerate).
  intros v w5 Hw5.
  frame_step h0 HE ltac:(apply frames_stable, heap_stable_ndarray_len).
  intros n w6 Hw6.
  frame_step h0 HE ltac:(apply frames_stable, heap_stable_np_random_shuffle).
  intros chosen w7 Hw7.
  frame_step h0 HE
    ltac:(apply frames_foldM; intros s i; apply frames_move_point; assumption).
  intros new_velocity w8 Hw8.
  frame_step h0 HE
    ltac:(destruct new_velocity;
          [apply frames_stable, heap_stable_get_random_velocity
          | apply frames_stable, heap_stable_ret]).
  intros v' w9 Hw9.
  apply outcome_ret. split; [apply HE, Hw9|]. split; reflexivity.
Qed.
End Frame.

(** What that postcondition means for two arrays [Xs] and [Ys] of the
    heap [h]: in a heap [h'] that agrees with [h] on the addresses of [h],
    they hold what they held, and two arrays at the next two addresses
    are neither of them. *)
Lemma arrays_kept_and_fresh (h h' : list (list Q)) (Xs Ys new_Xs new_Ys : loc)
    (xs ys : list Q) :
  (forall c, (c < length h)%nat -> h' !! c = h !! c) ->
  new_Xs = length h -> new_Ys = S (length h) ->
  h !! Xs = Some xs -> h !! Ys = Some ys ->
  h' !! Xs = Some xs /\ h' !! Ys = Some ys
  /\ new_Xs <> Xs /\ new_Xs <> Ys /\ new_Ys <> Xs /\ new_Ys <> Ys
  /\ new_Xs <> new_Ys.
Proof.
  intros Hkeep -> -> HXs HYs.
  pose proof (lookup_lt_Some _ _ _ HXs) as HltX.
  pose proof (lookup_lt_Some _ _ _ HYs) as HltY.
  rewrite (Hkeep Xs HltX), (Hkeep Ys HltY). repeat split; auto; lia.
Qed.

(** ** Steps that return *)

Lemma wp_np_random_randint (low high : Z) (w : world) Q E :
  (low < high)%Z ->
  (forall k w', (low <= k < high)%Z -> heap w' = heap w -> Q k w') ->
  outcome (np_random_randint low high) w Q E.
Proof.
  intros Hlt HQ. destruct (np_random_randint_eq low high w Hlt) as (k & Hk & Hr).
  eapply outcome_eq; [exact Hk|]. apply HQ; [exact Hr | reflexivity].
Qed.

Lemma wp_np_random_uniform (low high : Q) (w : world) Q E :
  (forall x w', heap w' = heap w -> Q x w') ->
  outcome (np_random_uniform low high) w Q E.
Proof. intros HQ. eapply outcome_eq; [apply np_random_uniform_eq|]. apply HQ. reflexivity. Qed.

Lemma wp_random_accelerate_uniform (v : Velocity) (acc : Q * Q) (w : world) Q E :
  (forall v' w', heap w' = heap w -> Q v' w') ->
  outcome (random_accelerate v acc "uniform") w Q E.
Proof.
  intros HQ. destruct v as [speed angle], acc as [d_speed d_angle].
  eapply outcome_eq; [apply random_accelerate_uniform|]. apply HQ. reflexivity.
Qed.

Lemma wp_random_accelerate_guassian (v : Velocity) (acc : Q * Q) (w : world) Q E :
  0 <= fst acc -> 0 <= snd acc ->
  (forall v' w', heap w' = heap w -> Q v' w') ->
  outcome (random_accelerate v acc "guassian") w Q E.
Proof.
  intros Hs Ha HQ. destruct v as [speed angle], acc as [d_speed d_angle].
  eapply outcome_eq; [apply random_accelerate_guassian; assumption|].
  apply HQ. reflexivity.
Qed.

Lemma wp_get_random_velocity_guassian (max_speed : Q) (w : world) Q E :
  0 <= max_speed ->
  (forall v w', heap w' = heap w -> Q v w') ->
  outcome (get_random_velocity max_speed "guassian") w Q E.
Proof.
  intros Hmax HQ.
  eapply outcome_eq; [apply get_random_velocity_guassian; assumption|].
  apply HQ. reflexivity.
Qed.

Lemma swap_elem_of {A} (l : list A) (i j : nat) (x : A) : x ∈ swap l i j -> x ∈ l.
Proof.
  unfold swap. destruct (l !! i) as [a|] eqn:Hi; [|auto].
  destruct (l !! j) as [b|] eqn:Hj; [|auto].
  intros Hx. apply list_elem_of_lookup in Hx as [k Hk].
  apply list_lookup_insert_Some in Hk as [(_ & <- & _) | (_ & Hk)].
  - eapply list_elem_of_lookup_2, Hj.
  - apply list_lookup_insert_Some in Hk as [(_ & <- & _) | (_ & Hk)].
    + eapply list_elem_of_lookup_2, Hi.
    + eapply list_elem_of_lookup_2, Hk.
Qed.

Lemma swap_length {A} (l : list A) (i j : nat) : length (swap l i j) = length l.
Proof.
  unfold swap. destruct (l !! i); [|reflexivity]. destruct (l !! j); [|reflexivity].
  rewrite !length_insert. reflexivity.
Qed.

(** The shuffle returns, with entries of the list it was given. *)
Lemma wp_np_random_shuffle {A} (l : list A) (w : world) Q E :
  (forall l' w', (forall x, x ∈ l' -> x ∈ l) -> length l' = length l ->
                 heap w' = heap w -> Q l' w') ->
  outcome (np_random_shuffle l) w Q E.
Proof.
  intros HQ. unfold np_random_shuffle.
  eapply outcome_mono;
    [apply (outcome_foldM _ (fun _ l' w' =>
              (forall x, x ∈ l' -> x ∈ l) /\ length l' = length l
              /\ heap w' = heap w) E)| |auto].
  - intros k i l' w' _ (Hin & Hlen & Hheap). apply outcome_bind.
    eapply outcome_eq; [reflexivity|]. apply outcome_ret.
    split; [|split].
    + intros x Hx. apply Hin. eapply swap_elem_of, Hx.
    + rewrite swap_length. exact Hlen.
    + exact Hheap.
  - split; [auto|]. split; reflexivity.
  - intros l' w' (Hin & Hlen & Hheap). apply HQ; assumption.
Qed.

Lemma py_slice_to_elem_of {A} (l : list A) (k : Z) (x : A) :
  x ∈ py_slice_to l k -> x ∈ l.
Proof.
  unfold py_slice_to. destruct (0 <=? k)%Z; intros Hx;
    apply elem_of_take in Hx as (i & Hi & _); eapply list_elem_of_lookup_2, Hi.
Qed.

(** *** Arrays *)

Lemma holds_stable h0 a b X Y (w w' : world) :
  holds h0 a b X Y w -> heap w' = heap w -> holds h0 a b X Y w'.
Proof. unfold holds, keeps. intros H ->. exact H. Qed.

Lemma holds_write_a h0 a b X Y X' (w w' : world) :
  holds h0 a b X Y w -> a <> b -> (length h0 <= a)%nat ->
  heap w' = <[a := X']> (heap w) -> holds h0 a b X' Y w'.
Proof.
  unfold holds, keeps. intros (Hk & Ha & Hb) Hne Hle ->. split; [|split].
  - rewrite take_insert_ge by exact Hle. exact Hk.
  - apply list_lookup_insert_eq. eapply lookup_lt_Some, Ha.
  - rewrite list_lookup_insert_ne by exact Hne. exact Hb.
Qed.

Lemma holds_write_b h0 a b X Y Y' (w w' : world) :
  holds h0 a b X Y w -> a <> b -> (length h0 <= b)%nat ->
  heap w' = <[b := Y']> (heap w) -> holds h0 a b X Y' w'.
Proof.
  unfold holds, keeps. intros (Hk & Ha & Hb) Hne Hle ->. split; [|split].
  - rewrite take_insert_ge by exact Hle. exact Hk.
  - rewrite list_lookup_insert_ne by auto. exact Ha.
  - apply list_lookup_insert_eq. eapply lookup_lt_Some, Hb.
Qed.

Lemma wp_ndarray_read (a : loc) (w : world) (xs : list Q) Q E :
  heap w !! a = Some xs -> Q xs w -> outcome (ndarray_read a) w Q E.
Proof. intros Ha HQ. unfold outcome, ndarray_read. rewrite Ha. exact HQ. Qed.

Lemma wp_ndarray_len (a : loc) (w : world) (xs : list Q) Q E :
  heap w !! a = Some xs -> Q (length xs) w -> outcome (ndarray_len a) w Q E.
Proof.
  intros Ha HQ. unfold ndarray_len. apply outcome_bind.
  eapply wp_ndarray_read; [exact Ha|]. exact HQ.
Qed.

Lemma wp_ndarray_getitem (a : loc) (i : nat) (w : world) (xs : list Q) (x : Q) Q E :
  heap w !! a = Some xs -> xs !! i = Some x -> Q x w ->
  outcome (ndarray_getitem a i) w Q E.
Proof.
  intros Ha Hi HQ. unfold ndarray_getitem. apply outcome_bind.
  eapply wp_ndarray_read; [exact Ha|]. rewrite Hi. exact HQ.
Qed.

Lemma wp_ndarray_setitem (a : loc) (i : nat) (v : Q) (w : world) (xs : list Q) Q E :
  heap w !! a = Some xs -> (i < length xs)%nat ->
  (forall w', heap w' = <[a := <[i := v]> xs]> (heap w) -> Q tt w') ->
  outcome (ndarray_setitem a i v) w Q E.
Proof.
  intros Ha Hi HQ. unfold ndarray_setitem. apply outcome_bind.
  eapply wp_ndarray_read; [exact Ha|].
  destruct (Nat.ltb_spec i (length xs)) as [_|]; [|lia].
  apply HQ. reflexivity.
Qed.

Lemma wp_ndarray_iadd (a : loc) (k : Q) (w : world) (xs : list Q) Q E :
  heap w !! a = Some xs ->
  (forall w', heap w' = <[a := map (fun x => x + k) xs]> (heap w) -> Q tt w') ->
  outcome (ndarray_iadd a k) w Q E.
Proof.
  intros Ha HQ. unfold ndarray_iadd. apply outcome_bind.
  eapply wp_ndarray_read; [exact Ha|]. apply HQ. reflexivity.
Qed.

Lemma wp_ndarray_copy (a : loc) (w : world) (xs : list Q) Q E :
  heap w !! a = Some xs ->
  (forall w', heap w' = heap w ++ [xs] -> Q (length (heap w)) w') ->
  outcome (ndarray_copy a) w Q E.
Proof.
  intros Ha HQ. unfold ndarray_copy. apply outcome_bind.
  eapply wp_ndarray_read; [exact Ha|]. apply HQ. reflexivity.
Qed.

Lemma wp_np_array (xs : list Q) (w : world) Q E :
  (forall w', heap w' = heap w ++ [xs] -> Q (length (heap w)) w') ->
  outcome (np_array xs) w Q E.
Proof. intros HQ. apply HQ. reflexivity. Qed.

(** ** One animation step of a stroke *)

Lemma holds_two_new (h0 : list (list Q)) (xs ys : list Q) (w : world) :
  heap w = (h0 ++ [xs]) ++ [ys] ->
  holds h0 (length h0) (S (length h0)) xs ys w.
Proof.
  intros Hw. unfold holds, keeps. rewrite Hw. split; [|split].
  - apply take_app3_length.
  - rewrite <- app_assoc. apply list_lookup_middle. reflexivity.
  - apply list_lookup_middle. rewrite length_app. cbn [length]. lia.
Qed.

Section MovePoint.
Variables (h0 : list (list Q)) (a b : loc).
Variables (imageWidth imageHeight maxPiontMove boarderGap : Z).
Hypothesis a_b : a <> b.
Hypothesis above_a : (length h0 <= a)%nat.
Hypothesis above_b : (length h0 <= b)%nat.
Hypothesis can_move : (0 < maxPiontMove)%Z.

(** The point [i] of the two arrays ends clipped; the others are not
    touched. *)
Lemma move_point_returns (new_velocity : bool) (i : nat) (w : world)
    (X Y : list Q) :
  holds h0 a b X Y w -> (i < length X)%nat -> (i < length Y)%nat ->
  outcome (move_point a b imageWidth imageHeight maxPiontMove boarderGap
             new_velocity i) w
    (fun _ w' =>
       exists vx vy,
         holds h0 a b
           (<[i := np_clip vx (inject_Z boarderGap)
                     (inject_Z (imageWidth - boarderGap))]> X)
           (<[i := np_clip vy (inject_Z boarderGap)
                     (inject_Z (imageHeight - boarderGap))]> Y) w')
    (fun _ _ => False).
Proof.
  intros Hh Hi Hj.
  destruct (lookup_lt_is_Some_2 X i Hi) as [x Hx].
  destruct (lookup_lt_is_Some_2 Y i Hj) as [y Hy].
  unfold move_point.
  apply outcome_bind. unfold ndarray_iadd_item at 1. apply outcome_bind.
  eapply wp_ndarray_getitem; [exact (proj1 (proj2 Hh)) | exact Hx |].
  apply outcome_bind. apply outcome_bind.
  apply wp_np_random_randint; [lia|]. intros dx w1 _ H1. apply outcome_ret.
  pose proof (holds_stable _ _ _ _ _ _ _ Hh H1) as Hh1.
  eapply wp_ndarray_setitem; [exact (proj1 (proj2 Hh1)) | exact Hi |].
  intros w2 H2.
  pose proof (holds_write_a _ _ _ _ _ _ _ _ Hh1 a_b above_a H2) as Hh2.
  apply outcome_bind. unfold ndarray_iadd_item at 1. apply outcome_bind.
  eapply wp_ndarray_getitem; [exact (proj2 (proj2 Hh2)) | exact Hy |].
  apply outcome_bind. apply outcome_bind.
  apply wp_np_random_randint; [lia|]. intros dy w3 _ H3. apply outcome_ret.
  pose proof (holds_stable _ _ _ _ _ _ _ Hh2 H3) as Hh3.
  eapply wp_ndarray_setitem; [exact (proj2 (proj2 Hh3)) | exact Hj |].
  intros w4 H4.
  pose proof (holds_write_b _ _ _ _ _ _ _ _ Hh3 a_b above_b H4) as Hh4.
  apply outcome_bind.
  eapply wp_ndarray_getitem;
    [exact (proj1 (proj2 Hh4)) | apply list_lookup_insert_eq, Hi |].
  apply outcome_bind.
  eapply wp_ndarray_getitem;
    [exact (proj2 (proj2 Hh4)) | apply list_lookup_insert_eq, Hj |].
  cbv zeta.
  apply outcome_bind.
  eapply wp_ndarray_setitem;
    [exact (proj1 (proj2 Hh4)) | rewrite length_insert; exact Hi |].
  intros w5 H5.
  pose proof (holds_write_a _ _ _ _ _ _ _ _ Hh4 a_b above_a H5) as Hh5.
  rewrite list_insert_insert_eq in Hh5.
  apply outcome_bind.
  eapply wp_ndarray_getitem;
    [exact (proj2 (proj2 Hh5)) | apply list_lookup_insert_eq, Hj |].
  apply outcome_bind.
  eapply wp_ndarray_setitem;
    [exact (proj2 (proj2 Hh5)) | rewrite length_insert; exact Hj |].
  intros w6 H6.
  pose proof (holds_write_b _ _ _ _ _ _ _ _ Hh5 a_b above_b H6) as Hh6.
  rewrite list_insert_insert_eq in Hh6.
  apply outcome_ret. eexists _, _. exact Hh6.
Qed.

(** The loop over the chosen points: they end clipped, in order; the
    points that are not chosen are not touched. *)
Lemma move_points_return (chosen : list nat) (X0 Y0 : list Q) (w : world) :
  holds h0 a b X0 Y0 w -> length Y0 = length X0 ->
  (forall i, i ∈ chosen -> (i < length X0)%nat) ->
  outcome (foldM (move_point a b imageWidth imageHeight maxPiontMove boarderGap)
             false chosen) w
    (fun _ w' =>
       exists X Y,
         holds h0 a b X Y w'
         /\ length X = length X0 /\ length Y = length X0
         /\ (forall i, i ∉ chosen -> X !! i = X0 !! i /\ Y !! i = Y0 !! i)
         /\ (forall i, i ∈ chosen ->
               exists vx vy,
                 X !! i = Some (np_clip vx (inject_Z boarderGap)
                                  (inject_Z (imageWidth - boarderGap)))
                 /\ Y !! i = Some (np_clip vy (inject_Z boarderGap)
                                     (inject_Z (imageHeight - boarderGap)))))
    (fun _ _ => False).
Proof.
  intros Hh HlenY Hchosen.
  eapply outcome_mono;
    [apply (outcome_foldM _ (fun k (_ : bool) w' =>
       exists X Y,
         holds h0 a b X Y w'
         /\ length X = length X0 /\ length Y = length X0
         /\ (forall i, i ∉ take k chosen -> X !! i = X0 !! i /\ Y !! i = Y0 !! i)
         /\ (forall i, i ∈ take k chosen ->
               exists vx vy,
                 X !! i = Some (np_clip vx (inject_Z boarderGap)
                                  (inject_Z (imageWidth - boarderGap)))
                 /\ Y !! i = Some (np_clip vy (inject_Z boarderGap)
                                     (inject_Z (imageHeight - boarderGap)))))
       (fun _ _ => False)) | | auto].
  - intros k c nv w' Hc (X & Y & Hh' & HX & HY & Hout & Hin).
    assert (Hlt : (c < length X0)%nat) by (eapply Hchosen, list_elem_of_lookup_2, Hc).
    eapply outcome_mono;
      [apply (move_point_returns nv c w' X Y Hh'); lia | | auto].
    intros nv' w'' (vx & vy & Hh'').
    eexists _, _. split; [exact Hh''|].
    rewrite !length_insert. split; [exact HX|]. split; [exact HY|].
    rewrite (take_S_r _ _ _ Hc). split.
    + intros i Hni. rewrite elem_of_app, list_elem_of_singleton in Hni.
      assert (i <> c) by tauto.
      rewrite !list_lookup_insert_ne by auto. apply Hout. tauto.
    + intros i Hi. rewrite elem_of_app, list_elem_of_singleton in Hi.
      destruct (decide (i = c)) as [->|Hne].
      * exists vx, vy. split; apply list_lookup_insert_eq; lia.
      * rewrite !list_lookup_insert_ne by auto. apply Hin. tauto.
  - exists X0, Y0. split; [exact Hh|]. split; [reflexivity|]. split; [exact HlenY|].
    split.
    + intros i _. split; reflexivity.
    + intros i Hi. cbn [take] in Hi. apply elem_of_nil in Hi. contradiction.
  - intros nv w' (X & Y & Hh' & HX & HY & Hout & Hin).
    rewrite firstn_all in Hout, Hin. exists X, Y. auto.
Qed.
End MovePoint.

Section AnimationStep.
Variables np_cos np_sin : Q -> Q.

(** On arrays of one length, with a positive [maxPiontMove] and bounds
    that are not negative, [random_move_control_points] returns: two
    new arrays of that length, the chosen points clipped, the others
    moved by the displacement of the line only. *)
Lemma random_move_control_points_returns (Xs Ys : loc)
    (imageWidth imageHeight : Z) (lineVelocity : Velocity) (nMovePointRatio : Q)
    (maxPiontMove : Z) (maxLineAcceleration : Q * Q) (boarderGap : Z)
    (maxInitSpeed : Q) (w : world) (xs ys : list Q) :
  heap w !! Xs = Some xs -> heap w !! Ys = Some ys -> length ys = length xs ->
  (0 < maxPiontMove)%Z ->
  0 <= fst maxLineAcceleration -> 0 <= snd maxLineAcceleration ->
  0 <= maxInitSpeed ->
  outcome (random_move_control_points np_cos np_sin Xs Ys imageWidth imageHeight
             lineVelocity nMovePointRatio maxPiontMove maxLineAcceleration
             boarderGap maxInitSpeed) w
    (fun r w' =>
       exists chosen X Y,
         holds (heap w) (fst (fst r)) (snd (fst r)) X Y w'
         /\ fst (fst r) = length (heap w)
         /\ snd (fst r) = S (length (heap w))
         /\ (forall i, i ∈ chosen -> (i < length xs)%nat)
         /\ moved_points np_cos np_sin imageWidth imageHeight boarderGap
              lineVelocity xs ys chosen X Y)
    (fun _ _ => False).
Proof.
  intros HXs HYs Hlen Hm Hds Hda Hinit.
  set (h0 := heap w).
  unfold random_move_control_points. destruct lineVelocity as [speed angle].
  apply outcome_bind. eapply wp_ndarray_copy; [exact HXs|]. intros w1 H1.
  apply outcome_bind. eapply wp_ndarray_copy.
  { rewrite H1. apply lookup_app_l_Some. exact HYs. }
  intros w2 H2. rewrite H1 in H2.
  assert (Hb : length (heap w1) = S (length h0)).
  { rewrite H1, length_app. cbn [length]. fold h0. lia. }
  rewrite Hb. fold h0 in H2 |- *.
  pose proof (holds_two_new h0 xs ys w2 H2) as Hh2.
  assert (Hab : length h0 <> S (length h0)) by lia.
  assert (Ha : (length h0 <= length h0)%nat) by lia.
  assert (Hb' : (length h0 <= S (length h0))%nat) by lia.
  apply outcome_bind. eapply wp_ndarray_iadd; [exact (proj1 (proj2 Hh2))|].
  intros w3 H3.
  pose proof (holds_write_a _ _ _ _ _ _ _ _ Hh2 Hab Ha H3) as Hh3.
  apply outcome_bind. eapply wp_ndarray_iadd; [exact (proj2 (proj2 Hh3))|].
  intros w4 H4.
  pose proof (holds_write_b _ _ _ _ _ _ _ _ Hh3 Hab Hb' H4) as Hh4.
  apply outcome_bind. apply wp_random_accelerate_guassian; [exact Hds | exact Hda |].
  intros v w5 H5.
  pose proof (holds_stable _ _ _ _ _ _ _ Hh4 H5) as Hh5.
  apply outcome_bind. eapply wp_ndarray_len.
  { rewrite (keeps_lookup h0 w5 Xs (proj1 Hh5)); [exact HXs|].
    eapply lookup_lt_Some, HXs. }
  apply outcome_bind. apply wp_np_random_shuffle. intros chosen w6 Hin _ H6.
  pose proof (holds_stable _ _ _ _ _ _ _ Hh5 H6) as Hh6.
  cbv zeta.
  set (picked := py_slice_to chosen _).
  assert (Hpicked : forall i, i ∈ picked -> (i < length xs)%nat).
  { intros i Hi. apply py_slice_to_elem_of, Hin, elem_of_seq in Hi. lia. }
  apply outcome_bind.
  eapply outcome_mono;
    [apply (move_points_return h0 (length h0) (S (length h0)) imageWidth
              imageHeight maxPiontMove boarderGap Hab Ha Hb' Hm picked _ _ w6 Hh6)
    | | auto].
  - rewrite !length_map. exact Hlen.
  - intros i Hi. rewrite length_map. apply Hpicked, Hi.
  - intros new_velocity w7 (X & Y & Hh7 & HX & HY & Hout & Hclip).
    rewrite length_map in HX, HY.
    apply outcome_bind.
    assert (Hfinal : forall v' w',
               heap w' = heap w7 ->
               outcome (ret (length h0, S (length h0), v')) w'
                 (fun (r : nat * nat * Velocity) w'' =>
                    exists chosen X Y,
                      holds h0 (fst (fst r)) (snd (fst r)) X Y w''
                      /\ fst (fst r) = length h0
                      /\ snd (fst r) = S (length h0)
                      /\ (forall i, i ∈ chosen -> (i < length xs)%nat)
                      /\ moved_points np_cos np_sin imageWidth imageHeight
                           boarderGap (speed, angle) xs ys chosen X Y)
                 (fun _ _ => False)).
    { intros v' w' Hw'. apply outcome_ret. exists picked, X, Y. cbn [fst snd].
      split; [eapply holds_stable; eassumption|].
      split; [reflexivity|]. split; [reflexivity|]. split; [exact Hpicked|].
      split; [exact HX|]. split; [exact HY|]. split; [|exact Hclip].
      intros i Hi. destruct (Hout i Hi) as [HXi HYi].
      rewrite HXi, HYi, !list_lookup_fmap. split; reflexivity. }
    destruct new_velocity.
    + apply wp_get_random_velocity_guassian; [exact Hinit|]. exact Hfinal.
    + apply outcome_ret. apply Hfinal. reflexivity.
Qed.
End AnimationStep.

(** ** The margin *)

Lemma py_int_Qeq (x y : Q) : x == y -> py_int x = py_int y.
Proof.
  unfold py_int, Qeq. destruct x as [a b], y as [c d]. cbn [Qnum Qden]. intros H.
  rewrite <- (Z.quot_mul_cancel_r a (Z.pos b) (Z.pos d)) by lia.
  rewrite <- (Z.quot_mul_cancel_r c (Z.pos d) (Z.pos b)) by lia.
  rewrite H. f_equal. lia.
Qed.

(** The trigonometric functions matter through the displacement only. *)
Lemma random_move_control_points_trig (np_cos np_sin np_cos' np_sin' : Q -> Q)
    (Xs Ys : loc) (imageWidth imageHeight : Z) (speed angle : Q)
    (nMovePointRatio : Q) (maxPiontMove : Z) (maxLineAcceleration : Q * Q)
    (boarderGap : Z) (maxInitSpeed : Q) :
  np_cos angle == np_cos' angle -> np_sin angle == np_sin' angle ->
  random_move_control_points np_cos np_sin Xs Ys imageWidth imageHeight
    (speed, angle) nMovePointRatio maxPiontMove maxLineAcceleration boarderGap
    maxInitSpeed
  = random_move_control_points np_cos' np_sin' Xs Ys imageWidth imageHeight
      (speed, angle) nMovePointRatio maxPiontMove maxLineAcceleration boarderGap
      maxInitSpeed.
Proof.
  intros Hc Hs. unfold random_move_control_points.
  rewrite (py_int_Qeq (speed * np_cos angle) (speed * np_cos' angle))
    by (rewrite Hc; reflexivity).
  rewrite (py_int_Qeq (speed * np_sin angle) (speed * np_sin' angle))
    by (rewrite Hs; reflexivity).
  reflexivity.
Qed.

(** C1, at a failing input: a 424x240 canvas with [boarderGap = 50], the
    stroke [Xs = [370, 200]], [Ys = [100, 100]], both points inside the
    margin, [lineVelocity = (5, 0)], [nMovePointRatio = 0.5].  The step
    selects the point 1; the point 0 is moved by the displacement of the
    line, [int(5 * cos(0)) = 5], to [x = 375 > 424 - 50], and is not
    clamped. *)
Theorem unselected_point_leaves_margin (np_cos np_sin : Q -> Q) :
  np_cos 0 == 1 -> np_sin 0 == 0 ->
  exists v w',
    random_move_control_points np_cos np_sin 0 1 424 240 (5, 0) (1 # 2) 10
      (5, 1 # 2) 50 10 two_point_world
    = (Ok (2%nat, 3%nat, v), w')
    /\ heap w' !! 2%nat = Some [375; 205]
    /\ heap w' !! 3%nat = Some [100; 100]
    /\ ~ 375 <= inject_Z (424 - 50).
Proof.
  intros Hc Hs.
  rewrite (random_move_control_points_trig np_cos np_sin cos_at_0 sin_at_0)
    by assumption.
  eexists _, _. split; [vm_compute; reflexivity|].
  split; [reflexivity|]. split; [reflexivity|]. intros H. vm_compute in H.
  apply H. reflexivity.
Qed.

Lemma unselected_point_leaves_margin_witness :
  exists v w',
    random_move_control_points cos_at_0 sin_at_0 0 1 424 240 (5, 0) (1 # 2) 10
      (5, 1 # 2) 50 10 two_point_world
    = (Ok (2%nat, 3%nat, v), w')
    /\ heap w' !! 2%nat = Some [375; 205]
    /\ heap w' !! 3%nat = Some [100; 100]
    /\ ~ 375 <= inject_Z (424 - 50).
Proof.
  apply (unselected_point_leaves_margin cos_at_0 sin_at_0); reflexivity.
Defined.

(** What the step does ensure: the points it selects end inside the
    margin, when the margin leaves room. *)
Lemma chosen_points_within_margin (np_cos np_sin : Q -> Q)
    (imageWidth imageHeight boarderGap : Z) (lineVelocity : Velocity)
    (xs ys : list Q) (chosen : list nat) (X Y : list Q) (i : nat) :
  moved_points np_cos np_sin imageWidth imageHeight boarderGap lineVelocity
    xs ys chosen X Y ->
  (boarderGap <= imageWidth - boarderGap)%Z ->
  (boarderGap <= imageHeight - boarderGap)%Z ->
  i ∈ chosen ->
  exists x y,
    X !! i = Some x /\ Y !! i = Some y
    /\ inject_Z boarderGap <= x /\ x <= inject_Z (imageWidth - boarderGap)
    /\ inject_Z boarderGap <= y /\ y <= inject_Z (imageHeight - boarderGap).
Proof.
  intros (_ & _ & _ & Hclip) HW HH Hi.
  destruct (Hclip i Hi) as (vx & vy & HX & HY).
  eexists _, _. split; [exact HX|]. split; [exact HY|].
  rewrite Zle_Qle in HW, HH.
  destruct (np_clip_range vx _ _ HW). destruct (np_clip_range vy _ _ HH). auto.
Qed.

(** The points it does not select are moved by the displacement of the
    line and nothing else. *)
Lemma other_points_only_shifted (np_cos np_sin : Q -> Q)
    (imageWidth imageHeight boarderGap : Z) (lineVelocity : Velocity)
    (xs ys : list Q) (chosen : list nat) (X Y : list Q) (i : nat) (x y : Q) :
  moved_points np_cos np_sin imageWidth imageHeight boarderGap lineVelocity
    xs ys chosen X Y ->
  i ∉ chosen -> xs !! i = Some x -> ys !! i = Some y ->
  X !! i = Some (x + line_shift np_cos lineVelocity)
  /\ Y !! i = Some (y + line_shift np_sin lineVelocity).
Proof.
  intros (_ & _ & Hout & _) Hi Hx Hy. destruct (Hout i Hi) as [HX HY].
  rewrite HX, HY, Hx, Hy. split; reflexivity.
Qed.

(** The whole-line velocity after an animation step is the perturbed one,
    unclamped: from speed 1 with the normal draw [-3] the step returns the
    speed [-13/2]. *)
Lemma line_speed_negative_after_step (np_cos np_sin : Q -> Q) :
  np_cos 0 == 1 -> np_sin 0 == 0 ->
  exists new_Xs new_Ys v w',
    random_move_control_points np_cos np_sin 0 1 424 240 (1, 0) (1 # 2) 10
      (5, 1 # 2) 50 10
      (world_of [-3; 0; 0; 1 # 2; 1 # 2] [] [[370; 200]; [100; 100]])
    = (Ok (new_Xs, new_Ys, v), w')
    /\ fst v == - (13 # 2) /\ fst v < 0.
Proof.
  intros Hc Hs.
  rewrite (random_move_control_points_trig np_cos np_sin cos_at_0 sin_at_0)
    by assumption.
  eexists _, _, _, _. split; [vm_compute; reflexivity|]. split; reflexivity.
Qed.

(** ** The sequence of masks *)

Lemma stroke_ok_keeps (h0 : list (list Q)) (w : world) (st : Stroke) :
  keeps h0 w -> stroke_ok h0 st -> stroke_ok (heap w) st.
Proof.
  intros Hk (xs & ys & HX & HY & Hlen & H2 & Hb). exists xs, ys.
  rewrite !(keeps_lookup h0 w) by (try exact Hk; eapply lookup_lt_Some; eassumption).
  auto.
Qed.

Lemma strokes_ok_keeps (h0 : list (list Q)) (w : world) (l : list Stroke) :
  keeps h0 w -> Forall (stroke_ok h0) l -> Forall (stroke_ok (heap w)) l.
Proof.
  intros Hk H. eapply Forall_impl; [exact H|]. intros st. apply stroke_ok_keeps, Hk.
Qed.

Lemma stroke_ok_holds (h0 : list (list Q)) (a b : loc) (X Y : list Q) (w : world)
    (v : Velocity) (brushWidth : Z) :
  holds h0 a b X Y w -> length Y = length X -> (2 <= length X)%nat ->
  (2 <= brushWidth)%Z ->
  stroke_ok (heap w) (a, b, v, brushWidth).
Proof. intros (_ & Ha & Hb) Hlen H2 Hbrush. exists X, Y. auto. Qed.

(** The radius of the caps, [brushWidth // 2 - 1], is negative exactly
    for a brush width below 2. *)
Lemma radius_nonneg (brushWidth : Z) :
  (2 <= brushWidth)%Z -> 0 <= inject_Z (brushWidth / 2 - 1).
Proof.
  intros H. assert (1 <= brushWidth / 2)%Z by (apply Z.div_le_lower_bound; lia).
  change 0 with (inject_Z 0). rewrite <- Zle_Qle. lia.
Qed.

Lemma radius_negative (brushWidth : Z) :
  (brushWidth < 2)%Z -> inject_Z (brushWidth / 2 - 1) < 0.
Proof.
  intros H. assert (brushWidth / 2 < 1)%Z by (apply Z.div_lt_upper_bound; lia).
  change 0 with (inject_Z 0). rewrite <- Zlt_Qlt. lia.
Qed.

Lemma wp_Image_new (imageWidth imageHeight : Z) (w : world) Q E :
  (0 <= imageWidth)%Z -> (0 <= imageHeight)%Z ->
  (forall mask, Q mask w) ->
  outcome (Image_new imageWidth imageHeight) w Q E.
Proof.
  intros HW HH HQ. unfold Image_new.
  destruct (Z.ltb_spec imageWidth 0); [lia|].
  destruct (Z.ltb_spec imageHeight 0); [lia|]. apply HQ.
Qed.

Section Sequence.
Variables np_cos np_sin : Q -> Q.
Variable ImageDraw_line : Image -> Q * Q * Q * Q -> Z -> Z -> Image.
Variable ImageDraw_ellipse : Image -> Q * Q * Q * Q -> Z -> Image.

Lemma next_vertex_returns (imageWidth imageHeight : Z) (maxHeadSpeed : Q)
    (maxHeadAcceleration : Q * Q) (boarderGap : option Z) (h : head) (i : nat)
    (w : world) :
  outcome (next_vertex np_cos np_sin imageWidth imageHeight maxHeadSpeed
             maxHeadAcceleration boarderGap h i) w
    (fun h' w' =>
       heap w' = heap w
       /\ length (head_Xs h') = S (length (head_Xs h))
       /\ length (head_Ys h') = S (length (head_Ys h)))
    (fun _ _ => False).
Proof.
  unfold next_vertex. apply outcome_bind.
  apply wp_random_accelerate_uniform. intros [speed angle] w' Hw'.
  destruct boarderGap; apply outcome_ret; cbn [head_Xs head_Ys];
    rewrite !length_app; cbn [length]; (split; [exact Hw'|]); split; lia.
Qed.

(** A new stroke: two new arrays of one length, of two points at least. *)
Lemma get_random_stroke_control_points_returns (imageWidth imageHeight : Z)
    (nVertexBound : Z * Z) (maxHeadSpeed : Q) (maxHeadAcceleration : Q * Q)
    (boarderGap : option Z) (maxInitSpeed : Q) (w : world) :
  (0 < imageWidth)%Z -> (0 < imageHeight)%Z ->
  (fst nVertexBound < snd nVertexBound)%Z -> (1 <= fst nVertexBound)%Z ->
  0 <= maxInitSpeed ->
  outcome (get_random_stroke_control_points np_cos np_sin imageWidth imageHeight
             nVertexBound maxHeadSpeed maxHeadAcceleration boarderGap
             maxInitSpeed) w
    (fun r w' =>
       exists xs ys,
         holds (heap w) (fst (fst r)) (snd (fst r)) xs ys w'
         /\ length ys = length xs /\ (2 <= length xs)%nat)
    (fun _ _ => False).
Proof.
  intros HW HH Hrange Hmin Hinit. unfold get_random_stroke_control_points.
  apply outcome_bind. apply wp_np_random_randint; [exact HW|]. intros x0 w1 _ H1.
  apply outcome_bind. apply wp_np_random_randint; [exact HH|]. intros y0 w2 _ H2.
  apply outcome_bind. apply wp_np_random_randint; [exact Hrange|].
  intros numVertex w3 Hnum H3.
  apply outcome_bind. apply wp_np_random_uniform. intros angle w4 H4.
  apply outcome_bind. apply wp_np_random_uniform. intros speed w5 H5.
  assert (Hw5 : heap w5 = heap w) by congruence.
  apply outcome_bind.
  eapply outcome_mono;
    [apply (outcome_foldM _ (fun k h' w' =>
              heap w' = heap w /\ length (head_Xs h') = S k
              /\ length (head_Ys h') = S k) (fun _ _ => False)) | | auto].
  - intros k i h' w' _ (Hh & HX & HY).
    eapply outcome_mono; [apply next_vertex_returns | | auto].
    intros h'' w'' (Hh' & HX' & HY'). split; [congruence|]. split; lia.
  - split; [exact Hw5|]. split; reflexivity.
  - intros h w6 (H6 & HX & HY). unfold py_range in HX, HY.
    rewrite length_seq in HX, HY.
    apply outcome_bind. apply wp_get_random_velocity_guassian; [exact Hinit|].
    intros v w7 H7.
    apply outcome_bind. apply wp_np_array. intros w8 H8.
    apply outcome_bind. apply wp_np_array. intros w9 H9.
    apply outcome_ret. cbn [fst snd].
    assert (E7 : heap w7 = heap w) by congruence.
    rewrite H8, E7 in H9. rewrite E7.
    replace (length (heap w8)) with (S (length (heap w)))
      by (rewrite H8, E7, length_app; cbn [length]; lia).
    exists (head_Xs h), (head_Ys h).
    split; [apply holds_two_new, H9|]. split; lia.
Qed.

(** An ellipse around a point is drawn when its radius is not
    negative, and refused when it is. *)
Lemma draw_ellipse_eq (mask : Image) (x y radius : Q) (fill : Z) (w : world) :
  0 <= radius ->
  draw_ellipse ImageDraw_ellipse mask
    (x - radius, y - radius, x + radius, y + radius) fill w
  = (Ok (ImageDraw_ellipse mask
           (x - radius, y - radius, x + radius, y + radius) fill), w).
Proof.
  intros Hr. unfold draw_ellipse.
  rewrite !Qle_bool_true by lra. reflexivity.
Qed.

Lemma draw_ellipse_refused (mask : Image) (x y radius : Q) (fill : Z) (w : world) :
  radius < 0 ->
  draw_ellipse ImageDraw_ellipse mask
    (x - radius, y - radius, x + radius, y + radius) fill w
  = (Raise ValueError, w).
Proof.
  intros Hr. unfold draw_ellipse.
  rewrite (Qle_bool_false (x - radius) (x + radius)) by lra. reflexivity.
Qed.

(** Drawing a stroke of two points at least, with a brush width of 2 at
    least, returns and leaves the heap as it is. *)
Lemma draw_mask_by_control_points_returns (mask : Image) (Xs Ys : loc)
    (brushWidth fill : Z) (w : world) (xs ys : list Q) :
  heap w !! Xs = Some xs -> heap w !! Ys = Some ys ->
  length ys = length xs -> (2 <= length xs)%nat -> (2 <= brushWidth)%Z ->
  outcome (draw_mask_by_control_points ImageDraw_line ImageDraw_ellipse mask
             Xs Ys brushWidth fill) w
    (fun _ w' => heap w' = heap w)
    (fun _ _ => False).
Proof.
  intros HX HY Hlen H2 Hbrush. unfold draw_mask_by_control_points.
  pose proof (radius_nonneg brushWidth Hbrush) as Hradius.
  apply outcome_bind. eapply wp_ndarray_len; [exact HX|].
  apply outcome_bind.
  eapply outcome_mono;
    [apply (outcome_foldM _ (fun _ (_ : Image) w' => w' = w) (fun _ _ => False))
    | | auto].
  - intros k i m w' Hi ->. unfold py_range2 in Hi.
    apply lookup_seq in Hi as [-> Hk].
    destruct (lookup_lt_is_Some_2 xs (1 + k - 1)) as [x1 Hx1]; [lia|].
    destruct (lookup_lt_is_Some_2 ys (1 + k - 1)) as [y1 Hy1]; [lia|].
    destruct (lookup_lt_is_Some_2 xs (1 + k)) as [x2 Hx2]; [lia|].
    destruct (lookup_lt_is_Some_2 ys (1 + k)) as [y2 Hy2]; [lia|].
    apply outcome_bind. eapply wp_ndarray_getitem; [exact HX | exact Hx1 |].
    apply outcome_bind. eapply wp_ndarray_getitem; [exact HY | exact Hy1 |].
    apply outcome_bind. eapply wp_ndarray_getitem; [exact HX | exact Hx2 |].
    apply outcome_bind. eapply wp_ndarray_getitem; [exact HY | exact Hy2 |].
    apply outcome_ret. reflexivity.
  - reflexivity.
  - intros m w' ->. cbv zeta.
    apply outcome_bind. eapply wp_ndarray_read; [exact HX|].
    apply outcome_bind. eapply wp_ndarray_read; [exact HY|].
    destruct (Nat.ltb_spec (length xs) 2) as [|_]; [lia|]. cbn [negb].
    eapply outcome_mono;
      [apply (outcome_foldM _ (fun _ (_ : Image) w' => w' = w) (fun _ _ => False))
      | | auto].
    + intros k [x y] m' w' _ ->.
      eapply outcome_eq; [apply draw_ellipse_eq, Hradius | reflexivity].
    + reflexivity.
    + intros m' w' ->. reflexivity.
Qed.
End Sequence.

Section Frames.
Variables np_cos np_sin : Q -> Q.
Variable ImageDraw_line : Image -> Q * Q * Q * Q -> Z -> Z -> Image.
Variable ImageDraw_ellipse : Image -> Q * Q * Q * Q -> Z -> Image.
Variable s : settings.
Hypothesis valid : valid_settings s.

Lemma new_stroke_returns (mask : Image) (control_points_set : list Stroke)
    (i : nat) (w : world) :
  Forall (stroke_ok (heap w)) control_points_set ->
  outcome (new_stroke np_cos np_sin ImageDraw_line ImageDraw_ellipse s
             (mask, control_points_set) i) w
    (fun r w' => Forall (stroke_ok (heap w')) (snd r))
    (fun _ _ => False).
Proof.
  intros Hok. unfold new_stroke.
  apply outcome_bind. apply wp_np_random_randint; [apply valid|].
  intros brushWidth w1 Hbrush H1.
  pose proof (brush_min s valid) as Hmin.
  apply outcome_bind.
  eapply outcome_mono;
    [apply get_random_stroke_control_points_returns; apply valid | | auto].
  intros [[Xs Ys] velocity] w2 (xs & ys & Hh & Hlen & H2). cbn [fst snd] in Hh.
  rewrite H1 in Hh.
  apply outcome_bind.
  eapply outcome_mono;
    [eapply (draw_mask_by_control_points_returns ImageDraw_line ImageDraw_ellipse
               mask Xs Ys brushWidth 255 w2 xs ys);
     [apply Hh | apply Hh | exact Hlen | exact H2 | lia] | | auto].
  intros mask' w3 H3. apply outcome_ret. cbn [snd]. rewrite H3.
  apply Forall_app. split.
  - eapply strokes_ok_keeps; [apply Hh | exact Hok].
  - apply Forall_singleton. eapply stroke_ok_holds; [eassumption ..|lia].
Qed.

Lemma first_frame_returns (w : world) :
  outcome (first_frame np_cos np_sin ImageDraw_line ImageDraw_ellipse s) w
    (fun r w' => Forall (stroke_ok (heap w')) (snd r))
    (fun _ _ => False).
Proof.
  unfold first_frame. apply outcome_bind.
  apply wp_Image_new;
    [pose proof (width_positive s valid); lia
    | pose proof (height_positive s valid); lia |].
  intros mask.
  eapply outcome_mono;
    [apply (outcome_foldM _ (fun _ (r : Image * list Stroke) w' =>
              Forall (stroke_ok (heap w')) (snd r)) (fun _ _ => False))
    | | auto].
  - intros k i [mask' cps] w' _ Hok. apply new_stroke_returns, Hok.
  - constructor.
  - auto.
Qed.

Lemma move_stroke_returns (control_points_set : list Stroke) (j : nat)
    (w : world) :
  Forall (stroke_ok (heap w)) control_points_set ->
  (j < length control_points_set)%nat ->
  outcome (move_stroke np_cos np_sin s control_points_set j) w
    (fun cps' w' =>
       Forall (stroke_ok (heap w')) cps'
       /\ length cps' = length control_points_set)
    (fun _ _ => False).
Proof.
  intros Hok Hj. unfold move_stroke.
  destruct (control_points_set !! j) as [st|] eqn:Hst.
  2:{ apply lookup_ge_None in Hst. unfold Stroke, Velocity in *. lia. }
  destruct st as [[[Xs Ys] velocity] brushWidth].
  destruct (proj1 (Forall_lookup _ _) Hok j _ Hst)
    as (xs & ys & HX & HY & Hlen & H2 & Hbrush).
  cbn [fst snd] in HX, HY, Hbrush.
  apply outcome_bind.
  eapply outcome_mono;
    [apply (random_move_control_points_returns np_cos np_sin Xs Ys
              (imageWidth s) (imageHeight s) velocity (nMovePointRatio s)
              (maxPiontMove s) (maxLineAcceleration s) (boarderGap s)
              (maxInitSpeed s) w xs ys HX HY Hlen); apply valid
    | | auto].
  intros [[new_Xs new_Ys] v'] w' (chosen & X & Y & Hh & _ & _ & _ & Hmoved).
  cbn [fst snd] in Hh. destruct Hmoved as (HlX & HlY & _).
  apply outcome_ret. rewrite length_insert. split; [|reflexivity].
  apply Forall_insert.
  - eapply strokes_ok_keeps; [apply Hh | exact Hok].
  - eapply stroke_ok_holds; [exact Hh | lia | lia | exact Hbrush].
Qed.

Lemma next_frame_returns (masks : list Image) (control_points_set : list Stroke)
    (k : nat) (w : world) :
  Forall (stroke_ok (heap w)) control_points_set ->
  outcome (next_frame np_cos np_sin ImageDraw_line ImageDraw_ellipse s
             (masks, control_points_set) k) w
    (fun r w' =>
       length (fst r) = S (length masks)
       /\ Forall (stroke_ok (heap w')) (snd r))
    (fun _ _ => False).
Proof.
  intros Hok. unfold next_frame.
  apply outcome_bind.
  apply wp_Image_new;
    [pose proof (width_positive s valid); lia
    | pose proof (height_positive s valid); lia |].
  intros mask.
  apply outcome_bind.
  eapply outcome_mono;
    [apply (outcome_foldM _ (fun _ (cps : list Stroke) w' =>
              Forall (stroke_ok (heap w')) cps
              /\ length cps = length control_points_set) (fun _ _ => False))
    | | auto].
  - intros j i cps w' Hi (Hok' & Hlen). unfold py_range in Hi.
    apply lookup_seq in Hi as [-> Hj]. cbn [Nat.add].
    eapply outcome_mono; [apply move_stroke_returns; [exact Hok'|lia] | | auto].
    intros cps' w'' (Hok'' & Hlen'). split; [exact Hok''|]. lia.
  - split; [exact Hok|reflexivity].
  - intros cps w' (Hok' & _).
    apply outcome_bind.
    eapply outcome_mono;
      [apply (outcome_foldM _ (fun _ (_ : Image) w'' => heap w'' = heap w')
                (fun _ _ => False))
      | | auto].
    + intros j st m w'' Hst Hw''. destruct st as [[[Xs Ys] v] brushWidth].
      destruct (proj1 (Forall_lookup _ _) Hok' j _ Hst)
        as (xs & ys & HX & HY & Hlen & H2 & Hbrush).
      cbn [fst snd] in HX, HY, Hbrush. rewrite <- Hw'' in HX, HY.
      eapply outcome_mono;
        [eapply draw_mask_by_control_points_returns; eassumption | | auto].
      intros m' w3 H3. cbv beta. congruence.
    + reflexivity.
    + intros mask' w'' Hw''. apply outcome_ret. cbn [fst snd].
      rewrite length_app, Hw''. cbn [length]. split; [lia | exact Hok'].
Qed.

(** With valid settings and [video_len >= 1] the generator returns, for
    every world, and the sequence has [video_len] masks. *)
Lemma video_masks_and_strokes_returns (video_len : Z) (w : world) :
  (1 <= video_len)%Z ->
  outcome (video_masks_and_strokes np_cos np_sin ImageDraw_line
             ImageDraw_ellipse video_len s) w
    (fun r w' =>
       length (fst r) = Z.to_nat video_len
       /\ Forall (stroke_ok (heap w')) (snd r))
    (fun _ _ => False).
Proof.
  intros Hlen. unfold video_masks_and_strokes.
  destruct (Z.leb_spec 1 video_len) as [_|]; [|lia].
  apply outcome_bind.
  eapply outcome_mono; [apply first_frame_returns | | auto].
  intros [mask cps] w1 Hok. cbn [snd] in Hok.
  eapply outcome_mono;
    [apply (outcome_foldM _ (fun k (r : list Image * list Stroke) w' =>
              length (fst r) = S k /\ Forall (stroke_ok (heap w')) (snd r))
              (fun _ _ => False))
    | | auto].
  - intros k i [masks cps'] w' _ (Hlen' & Hok'). cbn [fst snd] in Hlen', Hok'.
    eapply outcome_mono; [apply next_frame_returns, Hok' | | auto].
    intros r w'' (Hl & Hok''). split; [lia | exact Hok''].
  - split; [reflexivity | exact Hok].
  - intros r w' (Hl & Hok'). unfold py_range in Hl. rewrite length_seq in Hl.
    split; [lia | exact Hok'].
Qed.
End Frames.

Lemma default_settings_valid : valid_settings default_settings.
Proof. constructor; cbn; try lia; discriminate. Qed.

Section Length.
Variables np_cos np_sin : Q -> Q.
Variable ImageDraw_line : Image -> Q * Q * Q * Q -> Z -> Z -> Image.
Variable ImageDraw_ellipse : Image -> Q * Q * Q * Q -> Z -> Image.

Lemma get_video_masks_returns (video_len : Z) (s : settings) (w : world) :
  (1 <= video_len)%Z -> valid_settings s ->
  succeeds (get_video_masks_by_moving_random_stroke np_cos np_sin ImageDraw_line
              ImageDraw_ellipse video_len s) w
    (fun masks _ => length masks = Z.to_nat video_len).
Proof.
  intros Hlen Hvalid. apply succeeds_outcome.
  unfold get_video_masks_by_moving_random_stroke. apply outcome_bind.
  eapply outcome_mono;
    [apply video_masks_and_strokes_returns; assumption | | auto].
  intros r w' (Hl & _). apply outcome_ret. exact Hl.
Qed.



(** With the default settings, for every [video_len >= 1] and every
    world. *)
Lemma default_video_masks_length (video_len : Z) (w : world) :
  (1 <= video_len)%Z ->
  succeeds (get_video_masks_by_moving_random_stroke np_cos np_sin ImageDraw_line
              ImageDraw_ellipse video_len default_settings) w
    (fun masks _ => length masks = Z.to_nat video_len).
Proof.
  intros Hlen. apply get_video_masks_returns; [exact Hlen|].
  apply default_settings_valid.
Qed.
End Length.



(** With the same settings and a draw of ten vertices the two masks are
    returned: the failure depends on the draws. *)
Lemma ten_vertices_return_masks :
  exists masks w',
    get_video_masks_by_moving_random_stroke cos_at_0 sin_at_0 no_line no_ellipse 2
      zero_vertex_settings (world_of [0; 0; 0; 1 # 2] [] [])
    = (Ok masks, w')
    /\ length masks = 2%nat.
Proof. eexists _, _. split; [vm_compute; reflexivity | reflexivity]. Qed.

(** A brush narrower than 2 is refused as well, whatever the draws: the
    radius of the caps is negative, and [draw.ellipse] raises
    [ValueError]. *)
Lemma narrow_brush_raises_instead_of_masks :
  exists w',
    get_video_masks_by_moving_random_stroke cos_at_0 sin_at_0 no_line no_ellipse 2
      narrow_brush_settings (world_of [] [] [])
    = (Raise ValueError, w').
Proof. eexists. vm_compute. reflexivity. Qed.

(** A run with fixed draws: three masks of 50x50, and one stroke, whose
    arrays after two animation steps are the last two of the heap. *)
Example small_run :
  exists masks Xs Ys v brushWidth w',
    video_masks_and_strokes cos_at_0 sin_at_0 no_line no_ellipse 3 small_settings
      small_world
    = (Ok (masks, [(Xs, Ys, v, brushWidth)]), w')
    /\ length masks = 3%nat
    /\ Forall (fun mask => Image_size mask = (50, 50)%nat) masks
    /\ length (heap w') = 6%nat /\ Xs = 4%nat /\ Ys = 5%nat.
Proof.
  eexists _, _, _, _, _, _. split; [vm_compute; reflexivity|].
  split; [reflexivity|]. split; [repeat constructor|]. repeat split.
Qed.

(** * Further properties *)

(** ** Bounded acceleration and sampled angles *)

(** X1: a uniform perturbation with bounds that are not negative returns,
    moves the speed by at most [d_speed] and the angle by at most
    [d_angle], and touches neither the heap nor the generator of the
    [random] module. *)
Theorem random_accelerate_uniform_bounded (speed angle d_speed d_angle : Q)
    (w : world) :
  0 <= d_speed -> 0 <= d_angle ->
  succeeds (random_accelerate (speed, angle) (d_speed, d_angle) "uniform") w
    (fun v w' =>
       speed - d_speed <= fst v /\ fst v <= speed + d_speed
       /\ angle - d_angle <= snd v /\ snd v <= angle + d_angle
       /\ heap w' = heap w /\ py_state w' = py_state w).
Proof.
  intros Hs Ha. eexists _, _. split; [apply random_accelerate_uniform|].
  cbn [fst snd].
  destruct (frac_range (np_draw w 0)) as [H0 H1].
  destruct (frac_range (np_draw w 1)) as [H2 H3].
  repeat split; try nra.
Qed.

Lemma random_accelerate_uniform_bounded_witness :
  0 <= 15 /\ 0 <= 314 # 100 /\
  succeeds (random_accelerate (3, 1) (15, 314 # 100) "uniform")
    (world_of [1 # 4; 3 # 4] [] [])
    (fun v w' =>
       3 - 15 <= fst v /\ fst v <= 3 + 15
       /\ 1 - (314 # 100) <= snd v /\ snd v <= 1 + (314 # 100)
       /\ heap w' = heap (world_of [1 # 4; 3 # 4] [] [])
       /\ py_state w' = py_state (world_of [1 # 4; 3 # 4] [] [])).
Proof.
  split; [discriminate|]. split; [discriminate|].
  apply (random_accelerate_uniform_bounded 3 1 15 (314 # 100)); discriminate.
Defined.

Lemma np_pi_positive : 0 < np_pi.
Proof. reflexivity. Qed.

(** X2: whenever [get_random_velocity] returns, with ['uniform'] or with
    ['guassian'] and a bound that is not negative, the angle lies in
    [0, 2 * pi). *)
Theorem sampled_angle_in_turn (max_speed : Q) (dist : string) (w : world) :
  dist = "uniform"%string \/ (dist = "guassian"%string /\ 0 <= max_speed) ->
  succeeds (get_random_velocity max_speed dist) w
    (fun v _ => 0 <= snd v /\ snd v < 2 * np_pi).
Proof.
  pose proof np_pi_positive as Hpi.
  destruct (frac_range (np_draw w 1)) as [H0 H1].
  intros [-> | [-> Hmax]].
  - eexists _, _. split; [apply get_random_velocity_uniform|]. cbn [snd].
    split; nra.
  - eexists _, _. split; [apply get_random_velocity_guassian, Hmax|]. cbn [snd].
    split; nra.
Qed.

Lemma sampled_angle_in_turn_witness :
  succeeds (get_random_velocity 10 "guassian") (world_of [-3; 7 # 8] [] [])
    (fun v _ => 0 <= snd v /\ snd v < 2 * np_pi).
Proof.
  apply (sampled_angle_in_turn 10 "guassian" (world_of [-3; 7 # 8] [] [])).
  right. split; [reflexivity | discriminate].
Defined.

(** ** The vertices of a new stroke *)

Lemma clipped_within (lo hi : Z) (x : Q) :
  (lo <= hi)%Z -> clipped lo hi x -> within lo hi x.
Proof.
  intros Hle [v ->]. rewrite Zle_Qle in Hle. apply np_clip_range, Hle.
Qed.

Section NewStroke.
Variables np_cos np_sin : Q -> Q.
Variables (imageWidth imageHeight : Z) (maxHeadSpeed : Q).
Variables (maxHeadAcceleration : Q * Q) (boarderGap : option Z).

(** One more vertex: appended to both lists, and clipped when there
    is a margin. *)
Lemma next_vertex_appends (h : head) (i : nat) (w : world) :
  outcome (next_vertex np_cos np_sin imageWidth imageHeight maxHeadSpeed
             maxHeadAcceleration boarderGap h i) w
    (fun h' w' =>
       heap w' = heap w
       /\ exists x y,
           head_Xs h' = head_Xs h ++ [x] /\ head_Ys h' = head_Ys h ++ [y]
           /\ forall gap, boarderGap = Some gap ->
                clipped gap (imageWidth - gap) x
                /\ clipped gap (imageHeight - gap) y)
    (fun _ _ => False).
Proof.
  unfold next_vertex. apply outcome_bind.
  destruct maxHeadAcceleration as [d_speed d_angle].
  eapply outcome_eq; [apply random_accelerate_uniform|]. cbv beta iota zeta.
  destruct boarderGap as [gap|]; apply outcome_ret; cbn [head_Xs head_Ys];
    (split; [reflexivity|]); eexists _, _;
    (split; [reflexivity|]); (split; [reflexivity|]).
  - intros g Hg. injection Hg as <-. split; eexists; reflexivity.
  - intros g Hg. discriminate.
Qed.

(** The whole of [get_random_stroke_control_points]: the heap gains the
    two arrays, the start is a cell of the canvas, one vertex is added
    for each turn of the loop, and each of them is clipped when there is
    a margin. *)
Lemma get_random_stroke_control_points_spec (nVertexBound : Z * Z)
    (maxInitSpeed : Q) (w : world) :
  (0 < imageWidth)%Z -> (0 < imageHeight)%Z ->
  (fst nVertexBound < snd nVertexBound)%Z -> 0 <= maxInitSpeed ->
  outcome (get_random_stroke_control_points np_cos np_sin imageWidth imageHeight
             nVertexBound maxHeadSpeed maxHeadAcceleration boarderGap
             maxInitSpeed) w
    (fun r w' =>
       exists x0 y0 numVertex xs ys,
         heap w' = heap w ++ [inject_Z x0 :: xs; inject_Z y0 :: ys]
         /\ fst (fst r) = length (heap w)
         /\ snd (fst r) = S (length (heap w))
         /\ (0 <= x0 < imageWidth)%Z /\ (0 <= y0 < imageHeight)%Z
         /\ (fst nVertexBound <= numVertex < snd nVertexBound)%Z
         /\ length xs = Z.to_nat numVertex /\ length ys = Z.to_nat numVertex
         /\ forall gap, boarderGap = Some gap ->
              Forall (clipped gap (imageWidth - gap)) xs
              /\ Forall (clipped gap (imageHeight - gap)) ys)
    (fun _ _ => False).
Proof.
  intros HW HH Hrange Hinit. unfold get_random_stroke_control_points.
  apply outcome_bind. apply wp_np_random_randint; [exact HW|]. intros x0 w1 Hx0 H1.
  apply outcome_bind. apply wp_np_random_randint; [exact HH|]. intros y0 w2 Hy0 H2.
  apply outcome_bind. apply wp_np_random_randint; [exact Hrange|].
  intros numVertex w3 Hnum H3.
  apply outcome_bind. apply wp_np_random_uniform. intros angle w4 H4.
  apply outcome_bind. apply wp_np_random_uniform. intros speed w5 H5.
  assert (Hw5 : heap w5 = heap w) by congruence.
  apply outcome_bind.
  eapply outcome_mono;
    [apply (outcome_foldM _ (fun k h' w' =>
              heap w' = heap w
              /\ exists xs ys,
                  head_Xs h' = inject_Z x0 :: xs /\ head_Ys h' = inject_Z y0 :: ys
                  /\ length xs = k /\ length ys = k
                  /\ forall gap, boarderGap = Some gap ->
                       Forall (clipped gap (imageWidth - gap)) xs
                       /\ Forall (clipped gap (imageHeight - gap)) ys)
              (fun _ _ => False)) | | auto].
  - intros k i h' w' _ (Hh & xs & ys & HX & HY & HlX & HlY & Hclip).
    eapply outcome_mono; [apply next_vertex_appends | | auto].
    intros h'' w'' (Hh' & x & y & HX' & HY' & Hxy). split; [congruence|].
    exists (xs ++ [x]), (ys ++ [y]). rewrite HX', HY', HX, HY.
    split; [reflexivity|]. split; [reflexivity|]. rewrite !length_app. cbn [length].
    split; [lia|]. split; [lia|].
    intros gap Hgap. destruct (Hclip gap Hgap) as [Hcx Hcy].
    destruct (Hxy gap Hgap) as [Hx Hy].
    split; apply Forall_app; (split; [assumption|]); apply Forall_singleton;
      assumption.
  - split; [exact Hw5|]. exists [], []. repeat split; auto.
  - intros h w6 (H6 & xs & ys & HX & HY & HlX & HlY & Hclip).
    unfold py_range in HlX, HlY. rewrite length_seq in HlX, HlY.
    apply outcome_bind. apply wp_get_random_velocity_guassian; [exact Hinit|].
    intros v w7 H7.
    apply outcome_bind. apply wp_np_array. intros w8 H8.
    apply outcome_bind. apply wp_np_array. intros w9 H9.
    apply outcome_ret. cbn [fst snd].
    assert (E7 : heap w7 = heap w) by congruence.
    exists x0, y0, numVertex, xs, ys.
    split. { rewrite H9, H8, E7, HX, HY, <- app_assoc. reflexivity. }
    split. { rewrite E7. reflexivity. }
    split. { rewrite H8, E7, length_app. cbn [length]. lia. }
    auto 10.
Qed.

(** X3: with a canvas of positive size, a range of vertex counts that
    starts at 0 or above and is not empty, and a bound on the first
    speed that is not negative, a new stroke is two new arrays of one
    length, appended to the heap, of [numVertex + 1] points for a
    [numVertex] of the range. *)
Theorem new_stroke_vertex_count (nVertexBound : Z * Z) (maxInitSpeed : Q)
    (w : world) :
  (0 < imageWidth)%Z -> (0 < imageHeight)%Z ->
  (0 <= fst nVertexBound < snd nVertexBound)%Z -> 0 <= maxInitSpeed ->
  succeeds (get_random_stroke_control_points np_cos np_sin imageWidth imageHeight
              nVertexBound maxHeadSpeed maxHeadAcceleration boarderGap
              maxInitSpeed) w
    (fun r w' =>
       exists Xs Ys,
         heap w' = heap w ++ [Xs; Ys]
         /\ fst (fst r) = length (heap w) /\ snd (fst r) = S (length (heap w))
         /\ length Ys = length Xs
         /\ (fst nVertexBound + 1 <= Z.of_nat (length Xs) <= snd nVertexBound)%Z).
Proof.
  intros HW HH [Hlo Hrange] Hinit. apply succeeds_outcome.
  eapply outcome_mono;
    [apply (get_random_stroke_control_points_spec nVertexBound maxInitSpeed w);
     assumption | | auto].
  intros r w' (x0 & y0 & n & xs & ys & Hheap & Ha & Hb & _ & _ & Hn & HlX & HlY & _).
  eexists _, _. split; [exact Hheap|]. split; [exact Ha|]. split; [exact Hb|].
  cbn [length]. rewrite HlX, HlY. split; [reflexivity|]. lia.
Qed.
End NewStroke.

Lemma new_stroke_vertex_count_witness :
  succeeds (get_random_stroke_control_points cos_at_0 sin_at_0 424 240 (5, 20)%Z
              15 (15, 314 # 100) (Some 50%Z) 10) (world_of [] [] [])
    (fun r w' =>
       exists Xs Ys,
         heap w' = heap (world_of [] [] []) ++ [Xs; Ys]
         /\ fst (fst r) = length (heap (world_of [] [] []))
         /\ snd (fst r) = S (length (heap (world_of [] [] [])))
         /\ length Ys = length Xs
         /\ (fst (5, 20)%Z + 1 <= Z.of_nat (length Xs) <= snd (5, 20)%Z)%Z).
Proof.
  apply (new_stroke_vertex_count cos_at_0 sin_at_0 424 240 15 (15, 314 # 100)
           (Some 50%Z) (5, 20)%Z 10 (world_of [] [] []));
    cbn; try lia; discriminate.
Defined.

(** X4: the first point of a new stroke is a cell of the canvas, which
    may lie in the margin; with a margin [boarderGap] that leaves room,
    every later point lies in
    [boarderGap, imageWidth - boarderGap] x [boarderGap, imageHeight - boarderGap]. *)
Theorem new_stroke_points_in_margin (np_cos np_sin : Q -> Q)
    (imageWidth imageHeight : Z) (nVertexBound : Z * Z) (maxHeadSpeed : Q)
    (maxHeadAcceleration : Q * Q) (gap : Z) (maxInitSpeed : Q) (w : world) :
  (0 < imageWidth)%Z -> (0 < imageHeight)%Z ->
  (fst nVertexBound < snd nVertexBound)%Z -> 0 <= maxInitSpeed ->
  (gap <= imageWidth - gap)%Z -> (gap <= imageHeight - gap)%Z ->
  succeeds (get_random_stroke_control_points np_cos np_sin imageWidth imageHeight
              nVertexBound maxHeadSpeed maxHeadAcceleration (Some gap)
              maxInitSpeed) w
    (fun r w' =>
       exists x0 y0 xs ys,
         heap w' !! fst (fst r) = Some (inject_Z x0 :: xs)
         /\ heap w' !! snd (fst r) = Some (inject_Z y0 :: ys)
         /\ (0 <= x0 < imageWidth)%Z /\ (0 <= y0 < imageHeight)%Z
         /\ Forall (within gap (imageWidth - gap)) xs
         /\ Forall (within gap (imageHeight - gap)) ys).
Proof.
  intros HW HH Hrange Hinit HgW HgH. apply succeeds_outcome.
  eapply outcome_mono;
    [apply (get_random_stroke_control_points_spec np_cos np_sin imageWidth
              imageHeight maxHeadSpeed maxHeadAcceleration (Some gap)
              nVertexBound maxInitSpeed w); assumption | | auto].
  intros r w' (x0 & y0 & n & xs & ys & Hheap & Ha & Hb & Hx0 & Hy0 & _ & _ & _ & Hclip).
  destruct (Hclip gap eq_refl) as [Hcx Hcy].
  exists x0, y0, xs, ys. rewrite Hheap, Ha, Hb.
  split. { apply list_lookup_middle. reflexivity. }
  split. { change (heap w ++ [inject_Z x0 :: xs; inject_Z y0 :: ys])
             with (heap w ++ [inject_Z x0 :: xs] ++ [inject_Z y0 :: ys]).
           rewrite app_assoc. apply list_lookup_middle.
           rewrite length_app. cbn [length]. lia. }
  split; [exact Hx0|]. split; [exact Hy0|].
  split; (eapply Forall_impl; [eassumption|]); intros x Hx;
    eapply clipped_within; eassumption.
Qed.

Lemma new_stroke_points_in_margin_witness :
  succeeds (get_random_stroke_control_points cos_at_0 sin_at_0 424 240 (5, 20)%Z
              15 (15, 314 # 100) (Some 50%Z) 10) (world_of [] [] [])
    (fun r w' =>
       exists x0 y0 xs ys,
         heap w' !! fst (fst r) = Some (inject_Z x0 :: xs)
         /\ heap w' !! snd (fst r) = Some (inject_Z y0 :: ys)
         /\ (0 <= x0 < 424)%Z /\ (0 <= y0 < 240)%Z
         /\ Forall (within 50 (424 - 50)) xs
         /\ Forall (within 50 (240 - 50)) ys).
Proof.
  apply (new_stroke_points_in_margin cos_at_0 sin_at_0 424 240 (5, 20)%Z 15
           (15, 314 # 100) 50 10 (world_of [] [] []));
    cbn; try lia; discriminate.
Defined.

(** ** Drawing a stroke *)

Lemma outcome_exact {A} (m : M A) (w : world) (r : result A) (w0 : world) :
  outcome m w (fun a w' => r = Ok a /\ w0 = w') (fun e w' => r = Raise e /\ w0 = w') ->
  m w = (r, w0).
Proof.
  unfold outcome. destruct (m w) as [[a|e] w']; intros [-> ->]; reflexivity.
Qed.

Lemma polyline_lookup (xs ys : list Q) (k : nat) (x1 y1 x2 y2 : Q) :
  xs !! k = Some x1 -> ys !! k = Some y1 ->
  xs !! S k = Some x2 -> ys !! S k = Some y2 ->
  polyline (zip xs ys) !! k = Some (x1, y1, x2, y2).
Proof.
  intros Hx1 Hy1 Hx2 Hy2. unfold polyline.
  assert (H1 : zip xs ys !! k = Some (x1, y1)).
  { apply lookup_zip_with_Some. eauto. }
  assert (H2 : tail (zip xs ys) !! k = Some (x2, y2)).
  { rewrite lookup_tail. apply lookup_zip_with_Some. eauto. }
  apply lookup_zip_with_Some. exists (x1, y1), (x2, y2).
  split; [reflexivity|]. split; assumption.
Qed.

Lemma polyline_length (xs ys : list Q) :
  length ys = length xs -> length (polyline (zip xs ys)) = (length xs - 1)%nat.
Proof.
  intros Hlen. unfold polyline. rewrite length_zip_with.
  change (tail (zip xs ys)) with (tl (zip xs ys)).
  rewrite length_tl, length_zip_with. lia.
Qed.

Section Drawing.
Variable ImageDraw_line : Image -> Q * Q * Q * Q -> Z -> Z -> Image.
Variable ImageDraw_ellipse : Image -> Q * Q * Q * Q -> Z -> Image.

(** X5: drawing a stroke whose arrays have one length other than 1,
    with a brush width of 2 at least, returns the canvas after the
    segments between consecutive points, in order, then a cap at every
    point, and leaves the world as it is; an empty stroke leaves the
    canvas as it is, whatever the brush width.  With a brush width
    below 2 the radius of the caps is negative, and a stroke of two
    points or more raises [ValueError] at its first cap. *)
Theorem draw_mask_is_polyline_then_caps (mask : Image) (Xs Ys : loc)
    (brushWidth fill : Z) (w : world) (xs ys : list Q) :
  heap w !! Xs = Some xs -> heap w !! Ys = Some ys ->
  length ys = length xs -> length xs <> 1%nat ->
  draw_mask_by_control_points ImageDraw_line ImageDraw_ellipse mask Xs Ys
    brushWidth fill w
  = (if (2 <=? brushWidth)%Z || (length xs =? 0)%nat
     then Ok (drawn_stroke ImageDraw_line ImageDraw_ellipse mask (zip xs ys)
                brushWidth fill)
     else Raise ValueError, w).
Proof.
  intros HX HY Hlen Hne. apply outcome_exact.
  unfold draw_mask_by_control_points, drawn_stroke. cbv zeta.
  apply outcome_bind. eapply wp_ndarray_len; [exact HX|].
  apply outcome_bind.
  eapply outcome_mono;
    [apply (outcome_foldM _ (fun k (m : Image) w' =>
              w' = w
              /\ m = fold_left (fun m seg => ImageDraw_line m seg fill brushWidth)
                       (take k (polyline (zip xs ys))) mask)
              (fun _ _ => False)) | | intros ? ? []].
  - intros k i m w' Hi [-> ->]. unfold py_range2 in Hi.
    apply lookup_seq in Hi as [-> Hk].
    replace (1 + k - 1)%nat with k by lia. change (1 + k)%nat with (S k).
    destruct (lookup_lt_is_Some_2 xs k) as [x1 Hx1]; [lia|].
    destruct (lookup_lt_is_Some_2 ys k) as [y1 Hy1]; [lia|].
    destruct (lookup_lt_is_Some_2 xs (S k)) as [x2 Hx2]; [lia|].
    destruct (lookup_lt_is_Some_2 ys (S k)) as [y2 Hy2]; [lia|].
    apply outcome_bind. eapply wp_ndarray_getitem; [exact HX | exact Hx1 |].
    apply outcome_bind. eapply wp_ndarray_getitem; [exact HY | exact Hy1 |].
    apply outcome_bind. eapply wp_ndarray_getitem; [exact HX | exact Hx2 |].
    apply outcome_bind. eapply wp_ndarray_getitem; [exact HY | exact Hy2 |].
    apply outcome_ret. split; [reflexivity|].
    rewrite (take_S_r _ _ _ (polyline_lookup xs ys k x1 y1 x2 y2 Hx1 Hy1 Hx2 Hy2)).
    rewrite fold_left_app. reflexivity.
  - split; reflexivity.
  - intros m w' [-> ->].
    rewrite take_ge
      by (unfold py_range2; rewrite length_seq, polyline_length by exact Hlen; lia).
    apply outcome_bind. eapply wp_ndarray_read; [exact HX|].
    apply outcome_bind. eapply wp_ndarray_read; [exact HY|].
    set (m0 := fold_left _ (polyline (zip xs ys)) mask).
    destruct xs as [|x1 xs']; [destruct ys; [|discriminate]|].
    { rewrite orb_true_r. apply outcome_ret. split; reflexivity. }
    destruct ys as [|y1 ys']; [discriminate|].
    assert (Hn : (2 <= length (x1 :: xs'))%nat) by (cbn [length] in *; lia).
    destruct (Nat.ltb_spec (length (x1 :: xs')) 2) as [|_]; [lia|]. cbn [negb].
    change (length (x1 :: xs') =? 0)%nat with false. rewrite orb_false_r.
    destruct (Z.leb_spec 2 brushWidth) as [Hbrush|Hbrush].
    + pose proof (radius_nonneg brushWidth Hbrush) as Hradius.
      eapply outcome_mono;
        [apply (outcome_foldM _ (fun k (m : Image) w' =>
                  w' = w
                  /\ m = fold_left
                           (fun m p =>
                              ImageDraw_ellipse m
                                (fst p - inject_Z (brushWidth / 2 - 1),
                                 snd p - inject_Z (brushWidth / 2 - 1),
                                 fst p + inject_Z (brushWidth / 2 - 1),
                                 snd p + inject_Z (brushWidth / 2 - 1)) fill)
                           (take k (zip (x1 :: xs') (y1 :: ys'))) m0)
                  (fun _ _ => False)) | | intros ? ? []].
      * intros k [x y] m w' Hk [-> ->].
        eapply outcome_eq; [apply draw_ellipse_eq, Hradius|].
        split; [reflexivity|].
        rewrite (take_S_r _ _ _ Hk), fold_left_app. reflexivity.
      * split; reflexivity.
      * intros m w' [-> ->]. rewrite firstn_all. split; reflexivity.
    + cbn [zip_with foldM]. apply outcome_bind.
      eapply outcome_eq;
        [apply draw_ellipse_refused, radius_negative, Hbrush|].
      split; reflexivity.
Qed.

(** X6: drawing a stroke of one point raises [UnboundLocalError],
    whatever the canvas: the name [draw] is bound by the loop over the
    segments, and there is none.  The world is left as it is. *)
Theorem draw_mask_single_point_raises (mask : Image) (Xs Ys : loc)
    (brushWidth fill : Z) (w : world) (x y : Q) (ys : list Q) :
  heap w !! Xs = Some [x] -> heap w !! Ys = Some (y :: ys) ->
  draw_mask_by_control_points ImageDraw_line ImageDraw_ellipse mask Xs Ys
    brushWidth fill w
  = (Raise UnboundLocalError, w).
Proof.
  intros HX HY. apply outcome_exact. unfold draw_mask_by_control_points.
  apply outcome_bind. eapply wp_ndarray_len; [exact HX|].
  apply outcome_bind. apply outcome_ret.
  apply outcome_bind. eapply wp_ndarray_read; [exact HX|].
  apply outcome_bind. eapply wp_ndarray_read; [exact HY|].
  apply outcome_bind. apply outcome_raise. split; reflexivity.
Qed.
End Drawing.

Lemma draw_mask_is_polyline_then_caps_witness :
  draw_mask_by_control_points no_line no_ellipse grey_4x4 0 1 10 255
    two_point_world
  = (Ok (drawn_stroke no_line no_ellipse grey_4x4
           (zip [370; 200] [100; 100]) 10 255), two_point_world).
Proof.
  apply (draw_mask_is_polyline_then_caps no_line no_ellipse grey_4x4 0 1 10 255
           two_point_world [370; 200] [100; 100]);
    [reflexivity | reflexivity | reflexivity | discriminate].
Defined.

Lemma draw_mask_single_point_raises_witness :
  draw_mask_by_control_points no_line no_ellipse grey_4x4 0 1 10 255
    (world_of [] [] [[3]; [4]])
  = (Raise UnboundLocalError, world_of [] [] [[3]; [4]]).
Proof.
  apply (draw_mask_single_point_raises no_line no_ellipse grey_4x4 0 1 10 255
           (world_of [] [] [[3]; [4]]) 3 4 []); reflexivity.
Defined.

(** ** The animation step, exactly *)

Lemma swap_lookup {A} (l : list A) (i j p : nat) (a b : A) :
  l !! i = Some a -> l !! j = Some b ->
  swap l i j !! p
  = l !! (if decide (p = i) then j else if decide (p = j) then i else p).
Proof.
  intros Hi Hj. unfold swap. rewrite Hi, Hj.
  pose proof (lookup_lt_Some _ _ _ Hi) as Hli.
  pose proof (lookup_lt_Some _ _ _ Hj) as Hlj.
  destruct (decide (p = i)) as [->|Hpi].
  - rewrite list_lookup_insert_eq by (rewrite length_insert; exact Hli).
    symmetry. exact Hj.
  - rewrite list_lookup_insert_ne by auto.
    destruct (decide (p = j)) as [->|Hpj].
    + rewrite list_lookup_insert_eq by exact Hlj. symmetry. exact Hi.
    + rewrite list_lookup_insert_ne by auto. reflexivity.
Qed.

(** A swap of two entries is a permutation. *)
Lemma swap_Permutation {A} (l : list A) (i j : nat) : swap l i j ≡ₚ l.
Proof.
  destruct (l !! i) as [a|] eqn:Hi; [|unfold swap; rewrite Hi; reflexivity].
  destruct (l !! j) as [b|] eqn:Hj; [|unfold swap; rewrite Hi, Hj; reflexivity].
  apply Permutation_inj. split; [apply swap_length|].
  exists (fun p => if decide (p = i) then j else if decide (p = j) then i else p).
  split.
  - intros p q Hpq. repeat case_decide; subst; congruence.
  - intros p. eapply swap_lookup; eassumption.
Qed.

(** The shuffle returns a permutation of the list it was given. *)
Lemma wp_np_random_shuffle_Permutation {A} (l : list A) (w : world) Q E :
  (forall l' w', l' ≡ₚ l -> heap w' = heap w -> Q l' w') ->
  outcome (np_random_shuffle l) w Q E.
Proof.
  intros HQ. unfold np_random_shuffle.
  eapply outcome_mono;
    [apply (outcome_foldM _ (fun _ l' w' => l' ≡ₚ l /\ heap w' = heap w) E)
    | | auto].
  - intros k i l' w' _ (Hperm & Hheap). apply outcome_bind.
    eapply outcome_eq; [reflexivity|]. apply outcome_ret. split; [|exact Hheap].
    rewrite swap_Permutation. exact Hperm.
  - split; reflexivity.
  - intros l' w' (Hperm & Hheap). apply HQ; assumption.
Qed.

(** The shuffle of [n] entries makes [n - 1] draws. *)
Lemma wp_np_random_shuffle_draws {A} (l : list A) (w : world) Q E :
  (forall l' w', l' ≡ₚ l -> heap w' = heap w ->
                 np_cursor w' = (length l - 1 + np_cursor w)%nat -> Q l' w') ->
  outcome (np_random_shuffle l) w Q E.
Proof.
  intros HQ. unfold np_random_shuffle.
  eapply outcome_mono;
    [apply (outcome_foldM _ (fun k l' w' =>
              l' ≡ₚ l /\ heap w' = heap w
              /\ np_cursor w' = (k + np_cursor w)%nat) E)
    | | auto].
  - intros k i l' w' _ (Hperm & Hheap & Hdraws). apply outcome_bind.
    eapply outcome_eq; [reflexivity|]. apply outcome_ret.
    split; [rewrite swap_Permutation; exact Hperm|]. split; [exact Hheap|].
    change (S (np_cursor w') = (S k + np_cursor w)%nat). rewrite Hdraws. reflexivity.
  - split; [reflexivity|]. split; reflexivity.
  - intros l' w' (Hperm & Hheap & Hdraws). apply HQ; [assumption..|].
    rewrite Hdraws, length_rev. unfold py_range2. rewrite length_seq. reflexivity.
Qed.

Lemma wp_np_random_randint_draw (low high : Z) (w : world) Q E :
  (low < high)%Z ->
  (forall k w', (low <= k < high)%Z -> heap w' = heap w ->
                np_cursor w' = S (np_cursor w) -> Q k w') ->
  outcome (np_random_randint low high) w Q E.
Proof.
  intros Hlt HQ. destruct (np_random_randint_eq low high w Hlt) as (k & Hk & Hr).
  eapply outcome_eq; [exact Hk|]. apply HQ; [exact Hr | reflexivity | reflexivity].
Qed.

Lemma wp_ndarray_setitem_draw (a : loc) (i : nat) (v : Q) (w : world) (xs : list Q)
    Q E :
  heap w !! a = Some xs -> (i < length xs)%nat ->
  (forall w', heap w' = <[a := <[i := v]> xs]> (heap w) ->
              np_cursor w' = np_cursor w -> Q tt w') ->
  outcome (ndarray_setitem a i v) w Q E.
Proof.
  intros Ha Hi HQ. unfold ndarray_setitem. apply outcome_bind.
  eapply wp_ndarray_read; [exact Ha|].
  destruct (Nat.ltb_spec i (length xs)) as [_|]; [|lia].
  apply HQ; reflexivity.
Qed.

Lemma py_slice_to_NoDup {A} (l : list A) (k : Z) : NoDup l -> NoDup (py_slice_to l k).
Proof.
  intros H. unfold py_slice_to.
  destruct (0 <=? k)%Z.
  - rewrite <- (take_drop (Z.to_nat k) l) in H. apply NoDup_app in H. apply H.
  - rewrite <- (take_drop (length l - Z.to_nat (- k)) l) in H.
    apply NoDup_app in H. apply H.
Qed.

Lemma py_slice_to_length {A} (l : list A) (k : Z) :
  (0 <= k)%Z -> length (py_slice_to l k) = Nat.min (Z.to_nat k) (length l).
Proof.
  intros Hk. unfold py_slice_to. destruct (Z.leb_spec 0 k); [|lia].
  apply length_take.
Qed.

Lemma not_escaped (x y : Q) (dx dy imageWidth imageHeight m : Z) :
  within m (imageWidth - m) x -> within m (imageHeight - m) y ->
  (- m <= dx < m)%Z -> (- m <= dy < m)%Z ->
  escaped (x + inject_Z dx) (y + inject_Z dy) imageWidth imageHeight = false.
Proof.
  unfold within, Z.sub. rewrite !inject_Z_plus, !inject_Z_opp.
  intros [Hx0 Hx1] [Hy0 Hy1] [Hd0 Hd1] [He0 He1].
  rewrite Zle_Qle, inject_Z_opp in Hd0, He0. rewrite Zlt_Qlt in Hd1, He1.
  unfold escaped.
  rewrite !Qle_bool_true by lra. reflexivity.
Qed.

Lemma heap_is_two_more (h0 : list (list Q)) (X Y : list Q) (w : world) :
  holds h0 (length h0) (S (length h0)) X Y w ->
  length (heap w) = S (S (length h0)) ->
  heap w = h0 ++ [X; Y].
Proof.
  intros (Hk & Ha & Hb) Hlen. apply list_eq. intros c.
  destruct (Nat.lt_ge_cases c (length h0)) as [Hlt|Hge].
  - rewrite (keeps_lookup h0 w c Hk Hlt), lookup_app_l by exact Hlt. reflexivity.
  - rewrite lookup_app_r by exact Hge.
    destruct (c - length h0)%nat as [|[|d]] eqn:Hd.
    + replace c with (length h0) by lia. exact Ha.
    + replace c with (S (length h0)) by lia. exact Hb.
    + cbn. apply lookup_ge_None. lia.
Qed.

Lemma NoDup_not_in_take {A} (l : list A) (k : nat) (c : A) :
  NoDup l -> l !! k = Some c -> c ∉ take k l.
Proof.
  intros Hnd Hk Hin. apply elem_of_take in Hin as (j & Hj & Hlt).
  pose proof (NoDup_lookup _ _ _ _ Hnd Hj Hk). lia.
Qed.

Lemma ndarray_copy_eq (a : loc) (w : world) (xs : list Q) :
  heap w !! a = Some xs ->
  ndarray_copy a w = (Ok (length (heap w)), set_heap w (heap w ++ [xs])).
Proof. intros Ha. unfold ndarray_copy, bind, ndarray_read. rewrite Ha. reflexivity. Qed.

Lemma ndarray_iadd_eq (a : loc) (k : Q) (w : world) (xs : list Q) :
  heap w !! a = Some xs ->
  ndarray_iadd a k w
  = (Ok tt, set_heap w (<[a := map (fun x => x + k) xs]> (heap w))).
Proof. intros Ha. unfold ndarray_iadd, bind, ndarray_read. rewrite Ha. reflexivity. Qed.

Section MovePointExact.
Variables (h0 : list (list Q)) (a b : loc).
Variables (imageWidth imageHeight maxPiontMove boarderGap : Z).
Hypothesis a_b : a <> b.
Hypothesis above_a : (length h0 <= a)%nat.
Hypothesis above_b : (length h0 <= b)%nat.
Hypothesis can_move : (0 < maxPiontMove)%Z.

(** One turn of the loop: the jitter of the point [i], the test on the
    values before clipping, the clipping. *)
Lemma move_point_exact (new_velocity : bool) (i : nat) (w : world)
    (X Y : list Q) (x y : Q) :
  holds h0 a b X Y w -> X !! i = Some x -> Y !! i = Some y ->
  outcome (move_point a b imageWidth imageHeight maxPiontMove boarderGap
             new_velocity i) w
    (fun nv w' =>
       exists dx dy : Z,
         (- maxPiontMove <= dx < maxPiontMove)%Z
         /\ (- maxPiontMove <= dy < maxPiontMove)%Z
         /\ holds h0 a b
              (<[i := np_clip (x + inject_Z dx) (inject_Z boarderGap)
                        (inject_Z (imageWidth - boarderGap))]> X)
              (<[i := np_clip (y + inject_Z dy) (inject_Z boarderGap)
                        (inject_Z (imageHeight - boarderGap))]> Y) w'
         /\ length (heap w') = length (heap w)
         /\ np_cursor w' = (2 + np_cursor w)%nat
         /\ nv = (if negb new_velocity
                     && escaped (x + inject_Z dx) (y + inject_Z dy)
                          imageWidth imageHeight
                  then true else new_velocity))
    (fun _ _ => False).
Proof.
  intros Hh Hx Hy.
  pose proof (lookup_lt_Some _ _ _ Hx) as Hi.
  pose proof (lookup_lt_Some _ _ _ Hy) as Hj.
  unfold move_point.
  apply outcome_bind. unfold ndarray_iadd_item at 1. apply outcome_bind.
  eapply wp_ndarray_getitem; [exact (proj1 (proj2 Hh)) | exact Hx |].
  apply outcome_bind. apply outcome_bind.
  apply wp_np_random_randint_draw; [lia|]. intros dx w1 Hdx H1 C1.
  apply outcome_ret.
  pose proof (holds_stable _ _ _ _ _ _ _ Hh H1) as Hh1.
  eapply wp_ndarray_setitem_draw; [exact (proj1 (proj2 Hh1)) | exact Hi |].
  intros w2 H2 C2.
  pose proof (holds_write_a _ _ _ _ _ _ _ _ Hh1 a_b above_a H2) as Hh2.
  apply outcome_bind. unfold ndarray_iadd_item at 1. apply outcome_bind.
  eapply wp_ndarray_getitem; [exact (proj2 (proj2 Hh2)) | exact Hy |].
  apply outcome_bind. apply outcome_bind.
  apply wp_np_random_randint_draw; [lia|]. intros dy w3 Hdy H3 C3.
  apply outcome_ret.
  pose proof (holds_stable _ _ _ _ _ _ _ Hh2 H3) as Hh3.
  eapply wp_ndarray_setitem_draw; [exact (proj2 (proj2 Hh3)) | exact Hj |].
  intros w4 H4 C4.
  pose proof (holds_write_b _ _ _ _ _ _ _ _ Hh3 a_b above_b H4) as Hh4.
  apply outcome_bind.
  eapply wp_ndarray_getitem;
    [exact (proj1 (proj2 Hh4)) | apply list_lookup_insert_eq, Hi |].
  apply outcome_bind.
  eapply wp_ndarray_getitem;
    [exact (proj2 (proj2 Hh4)) | apply list_lookup_insert_eq, Hj |].
  cbv zeta.
  apply outcome_bind.
  eapply wp_ndarray_setitem_draw;
    [exact (proj1 (proj2 Hh4)) | rewrite length_insert; exact Hi |].
  intros w5 H5 C5.
  pose proof (holds_write_a _ _ _ _ _ _ _ _ Hh4 a_b above_a H5) as Hh5.
  rewrite list_insert_insert_eq in Hh5.
  apply outcome_bind.
  eapply wp_ndarray_getitem;
    [exact (proj2 (proj2 Hh5)) | apply list_lookup_insert_eq, Hj |].
  apply outcome_bind.
  eapply wp_ndarray_setitem_draw;
    [exact (proj2 (proj2 Hh5)) | rewrite length_insert; exact Hj |].
  intros w6 H6 C6.
  pose proof (holds_write_b _ _ _ _ _ _ _ _ Hh5 a_b above_b H6) as Hh6.
  rewrite list_insert_insert_eq in Hh6.
  apply outcome_ret. exists dx, dy.
  split; [exact Hdx|]. split; [exact Hdy|]. split; [exact Hh6|].
  split; [|split; [lia | reflexivity]].
  rewrite H6, length_insert, H5, length_insert, H4, length_insert, H3, H2,
    length_insert, H1. reflexivity.
Qed.

(** The loop over distinct chosen points: each is jittered once, from
    the value it had before the loop, and clipped; the others are not
    touched; when no jittered point can leave the canvas the flag stays
    unset. *)
Lemma move_points_exact (chosen : list nat) (X0 Y0 : list Q) (w : world) :
  holds h0 a b X0 Y0 w -> length Y0 = length X0 -> NoDup chosen ->
  (forall i, i ∈ chosen -> (i < length X0)%nat) ->
  outcome (foldM (move_point a b imageWidth imageHeight maxPiontMove boarderGap)
             false chosen) w
    (fun nv w' =>
       exists X Y,
         holds h0 a b X Y w' /\ length (heap w') = length (heap w)
         /\ np_cursor w' = (2 * length chosen + np_cursor w)%nat
         /\ length X = length X0 /\ length Y = length X0
         /\ (forall i, i ∉ chosen -> X !! i = X0 !! i /\ Y !! i = Y0 !! i)
         /\ (forall i x y, i ∈ chosen -> X0 !! i = Some x -> Y0 !! i = Some y ->
               exists x' y',
                 X !! i = Some x' /\ Y !! i = Some y'
                 /\ jittered boarderGap (imageWidth - boarderGap) maxPiontMove x x'
                 /\ jittered boarderGap (imageHeight - boarderGap) maxPiontMove y y')
         /\ ((forall i x y, X0 !! i = Some x -> Y0 !! i = Some y ->
                within maxPiontMove (imageWidth - maxPiontMove) x
                /\ within maxPiontMove (imageHeight - maxPiontMove) y) ->
             nv = false))
    (fun _ _ => False).
Proof.
  intros Hh HlenY Hnd Hchosen.
  eapply outcome_mono;
    [apply (outcome_foldM _ (fun k (nv : bool) w' =>
       exists X Y,
         holds h0 a b X Y w' /\ length (heap w') = length (heap w)
         /\ np_cursor w' = (2 * k + np_cursor w)%nat
         /\ length X = length X0 /\ length Y = length X0
         /\ (forall i, i ∉ take k chosen -> X !! i = X0 !! i /\ Y !! i = Y0 !! i)
         /\ (forall i x y, i ∈ take k chosen ->
               X0 !! i = Some x -> Y0 !! i = Some y ->
               exists x' y',
                 X !! i = Some x' /\ Y !! i = Some y'
                 /\ jittered boarderGap (imageWidth - boarderGap) maxPiontMove x x'
                 /\ jittered boarderGap (imageHeight - boarderGap) maxPiontMove y y')
         /\ ((forall i x y, X0 !! i = Some x -> Y0 !! i = Some y ->
                within maxPiontMove (imageWidth - maxPiontMove) x
                /\ within maxPiontMove (imageHeight - maxPiontMove) y) ->
             nv = false))
       (fun _ _ => False)) | | auto].
  - intros k c nv w' Hc (X & Y & Hh' & Hheap & Hdraws & HX & HY & Hout & Hin & Hflag).
    assert (Hlt : (c < length X0)%nat)
      by (eapply Hchosen, list_elem_of_lookup_2, Hc).
    destruct (lookup_lt_is_Some_2 X0 c Hlt) as [x Hx].
    destruct (lookup_lt_is_Some_2 Y0 c) as [y Hy]; [lia|].
    pose proof (NoDup_not_in_take _ _ _ Hnd Hc) as Hfresh.
    destruct (Hout c Hfresh) as [HXc HYc]. rewrite Hx in HXc. rewrite Hy in HYc.
    eapply outcome_mono;
      [apply (move_point_exact nv c w' X Y x y Hh' HXc HYc) | | auto].
    intros nv' w'' (dx & dy & Hdx & Hdy & Hh'' & Hheap' & Hdraws' & Hnv).
    eexists _, _. split; [exact Hh''|]. split; [congruence|].
    split; [lia|].
    rewrite !length_insert. split; [exact HX|]. split; [exact HY|].
    rewrite (take_S_r _ _ _ Hc). split; [|split].
    + intros i Hni. rewrite elem_of_app, list_elem_of_singleton in Hni.
      assert (i <> c) by tauto.
      rewrite !list_lookup_insert_ne by auto. apply Hout. tauto.
    + intros i x0 y0 Hi Hx0 Hy0.
      rewrite elem_of_app, list_elem_of_singleton in Hi.
      destruct (decide (i = c)) as [->|Hne].
      * rewrite Hx in Hx0. rewrite Hy in Hy0.
        injection Hx0 as <-. injection Hy0 as <-.
        eexists _, _.
        split; [apply list_lookup_insert_eq; lia|].
        split; [apply list_lookup_insert_eq; lia|].
        split; [exists dx | exists dy]; (split; [assumption | reflexivity]).
      * rewrite !list_lookup_insert_ne by auto. apply Hin; [tauto|assumption..].
    + intros Hsafe. rewrite Hnv, (Hflag Hsafe). cbn [negb andb].
      destruct (Hsafe c x y Hx Hy) as [Hwx Hwy].
      rewrite (not_escaped x y dx dy _ _ _ Hwx Hwy Hdx Hdy). reflexivity.
  - exists X0, Y0. split; [exact Hh|]. split; [reflexivity|].
    split; [reflexivity|].
    split; [reflexivity|]. split; [exact HlenY|]. split; [|split].
    + intros i _. split; reflexivity.
    + intros i x y Hi. cbn [take] in Hi. apply elem_of_nil in Hi. contradiction.
    + reflexivity.
  - intros nv w' (X & Y & Hh' & Hheap & Hdraws & HX & HY & Hout & Hin & Hflag).
    rewrite firstn_all in Hout, Hin. exists X, Y. auto 10.
Qed.
End MovePointExact.

Section StepExact.
Variables np_cos np_sin : Q -> Q.
Variables (Xs Ys : loc) (imageWidth imageHeight : Z) (lineVelocity : Velocity).
Variables (nMovePointRatio : Q) (maxPiontMove : Z) (maxLineAcceleration : Q * Q).
Variables (boarderGap : Z) (maxInitSpeed : Q).
Variables (w : world) (xs ys : list Q).
Hypothesis at_Xs : heap w !! Xs = Some xs.
Hypothesis at_Ys : heap w !! Ys = Some ys.
Hypothesis one_length : length ys = length xs.
Hypothesis can_move : (0 < maxPiontMove)%Z.
Hypothesis speed_scale : 0 <= fst maxLineAcceleration.
Hypothesis angle_scale : 0 <= snd maxLineAcceleration.
Hypothesis init_scale : 0 <= maxInitSpeed.

Lemma random_move_control_points_exact :
  outcome (random_move_control_points np_cos np_sin Xs Ys imageWidth imageHeight
             lineVelocity nMovePointRatio maxPiontMove maxLineAcceleration
             boarderGap maxInitSpeed) w
    (fun r w' =>
       exists perm X Y,
         step_result np_cos np_sin imageWidth imageHeight lineVelocity
           nMovePointRatio maxPiontMove maxLineAcceleration boarderGap
           w xs ys r w' perm X Y)
    (fun _ _ => False).
Proof.
  set (h0 := heap w).
  unfold random_move_control_points.
  destruct lineVelocity as [speed angle] eqn:Hv.
  destruct maxLineAcceleration as [d_speed d_angle] eqn:Hacc.
  cbn [fst snd] in speed_scale, angle_scale.
  apply outcome_bind. eapply outcome_eq; [apply ndarray_copy_eq, at_Xs|].
  fold h0. set (w1 := set_heap w (h0 ++ [xs])).
  apply outcome_bind. eapply outcome_eq.
  { apply ndarray_copy_eq. unfold w1. cbn [heap set_heap].
    apply lookup_app_l_Some. exact at_Ys. }
  replace (length (heap w1)) with (S (length h0))
    by (unfold w1; cbn [heap set_heap]; rewrite length_app; cbn [length]; lia).
  set (w2 := set_heap w1 (heap w1 ++ [ys])).
  assert (Hh2 : holds h0 (length h0) (S (length h0)) xs ys w2)
    by (apply holds_two_new; reflexivity).
  assert (Hab : length h0 <> S (length h0)) by lia.
  assert (Ha : (length h0 <= length h0)%nat) by lia.
  assert (Hb : (length h0 <= S (length h0))%nat) by lia.
  apply outcome_bind.
  eapply outcome_eq; [apply ndarray_iadd_eq; exact (proj1 (proj2 Hh2))|].
  set (X0 := map (fun x => x + inject_Z (py_int (speed * np_cos angle))) xs).
  set (w3 := set_heap w2 (<[length h0 := X0]> (heap w2))).
  assert (Hh3 : holds h0 (length h0) (S (length h0)) X0 ys w3)
    by (eapply holds_write_a; [exact Hh2 | exact Hab | exact Ha | reflexivity]).
  apply outcome_bind.
  eapply outcome_eq; [apply ndarray_iadd_eq; exact (proj2 (proj2 Hh3))|].
  set (Y0 := map (fun y => y + inject_Z (py_int (speed * np_sin angle))) ys).
  set (w4 := set_heap w3 (<[S (length h0) := Y0]> (heap w3))).
  assert (Hh4 : holds h0 (length h0) (S (length h0)) X0 Y0 w4)
    by (eapply holds_write_b; [exact Hh3 | exact Hab | exact Hb | reflexivity]).
  assert (Hlen4 : length (heap w4) = S (S (length h0))).
  { unfold w4, w3, w2, w1. cbn [heap set_heap].
    rewrite !length_insert, !length_app. cbn [length]. lia. }
  apply outcome_bind.
  eapply outcome_eq;
    [apply random_accelerate_guassian; [exact speed_scale | exact angle_scale]|].
  change (np_draw w4 0) with (np_draw w 0). change (np_draw w4 1) with (np_draw w 1).
  set (v0 := (speed + (0 + d_speed / 2 * np_draw w 0),
              angle + (0 + d_angle / 2 * np_draw w 1))).
  assert (Hh5 : holds h0 (length h0) (S (length h0)) X0 Y0 (np_skip (np_skip w4)))
    by (eapply holds_stable; [exact Hh4 | reflexivity]).
  assert (Hlen5 : length (heap (np_skip (np_skip w4))) = S (S (length h0)))
    by exact Hlen4.
  assert (Hc5 : np_cursor (np_skip (np_skip w4)) = (2 + np_cursor w)%nat)
    by reflexivity.
  generalize dependent (np_skip (np_skip w4)). intros w5 Hh5 Hlen5 Hc5.
  apply outcome_bind. eapply wp_ndarray_len.
  { rewrite (keeps_lookup h0 w5 Xs (proj1 Hh5)); [exact at_Xs|].
    eapply lookup_lt_Some, at_Xs. }
  apply outcome_bind. apply wp_np_random_shuffle_draws.
  intros perm w6 Hperm H6 Hc6. rewrite length_seq, Hc5 in Hc6.
  pose proof (holds_stable _ _ _ _ _ _ _ Hh5 H6) as Hh6.
  cbv zeta.
  set (chosen := py_slice_to perm _).
  assert (Hnd : NoDup chosen).
  { apply py_slice_to_NoDup. rewrite Hperm. apply NoDup_seq. }
  assert (Hrange : forall i, i ∈ chosen -> (i < length xs)%nat).
  { intros i Hi. apply py_slice_to_elem_of in Hi. rewrite Hperm in Hi.
    apply elem_of_seq in Hi. lia. }
  apply outcome_bind.
  eapply outcome_mono;
    [apply (move_points_exact h0 (length h0) (S (length h0)) imageWidth
              imageHeight maxPiontMove boarderGap Hab Ha Hb can_move chosen
              X0 Y0 w6 Hh6)
    | | auto].
  - unfold X0, Y0. rewrite !length_map. exact one_length.
  - exact Hnd.
  - intros i Hi. unfold X0. rewrite length_map. apply Hrange, Hi.
  - intros nv w7 (X & Y & Hh7 & Hlen7 & Hc7 & HX & HY & Hout & Hin & Hflag).
    rewrite Hc6 in Hc7. fold chosen in Hc7.
    unfold X0 in HX, HY. rewrite length_map in HX, HY.
    rewrite H6, Hlen5 in Hlen7.
    assert (Hfinal : forall v' w',
               heap w' = heap w7 ->
               (np_cursor w' = np_cursor w7
                \/ np_cursor w' = (np_cursor w7 + 2)%nat) ->
               (v' = v0 \/ 0 <= fst v') ->
               (nv = false -> v' = v0) ->
               outcome (ret (length h0, S (length h0), v')) w'
                 (fun (r : nat * nat * Velocity) w'' =>
                    exists perm X Y,
                      step_result np_cos np_sin imageWidth imageHeight
                        (speed, angle) nMovePointRatio maxPiontMove
                        (d_speed, d_angle) boarderGap w xs ys r w'' perm X Y)
                 (fun _ _ => False)).
    { intros v' w' Hw' Hc' Hv' Hnv. apply outcome_ret. exists perm, X, Y.
      constructor; cbn [fst snd].
      - exact Hperm.
      - rewrite Hw'. apply heap_is_two_more; [exact Hh7|exact Hlen7].
      - reflexivity.
      - reflexivity.
      - exact HX.
      - exact HY.
      - intros i x y Hx Hy Hi. destruct (Hout i Hi) as [HXi HYi].
        rewrite HXi, HYi. unfold X0, Y0, line_shift. cbn [fst snd].
        rewrite !list_lookup_fmap, Hx, Hy. split; reflexivity.
      - intros i x y Hx Hy Hi. apply (Hin i _ _ Hi).
        + unfold X0. rewrite list_lookup_fmap, Hx. reflexivity.
        + unfold Y0. rewrite list_lookup_fmap, Hy. reflexivity.
      - exact Hv'.
      - intros Hsafe. apply Hnv, Hflag. intros i x y Hx Hy.
        unfold X0 in Hx. unfold Y0 in Hy. rewrite list_lookup_fmap in Hx, Hy.
        destruct (xs !! i) as [x0|] eqn:Hx0; [|discriminate].
        destruct (ys !! i) as [y0|] eqn:Hy0; [|discriminate].
        injection Hx as <-. injection Hy as <-.
        apply (Hsafe i x0 y0 Hx0 Hy0).
      - cbv zeta. fold chosen. destruct Hc' as [-> | ->]; [left | right]; lia. }
    apply outcome_bind. destruct nv.
    + eapply outcome_eq; [apply get_random_velocity_guassian, init_scale|].
      apply Hfinal; [reflexivity | right; unfold np_cursor, np_skip; cbn [np_state cursor advance]; lia
                    | right; cbn [fst]; apply Qabs_nonneg
                    | discriminate].
    + apply outcome_ret.
      apply Hfinal; [reflexivity | left; reflexivity | left; reflexivity | reflexivity].
Qed.
End StepExact.

(** ** The animation step, point by point *)

Lemma py_int_half (n : nat) :
  py_int (inject_Z (Z.of_nat n) * (1 # 2)) = Z.of_nat (n / 2).
Proof.
  unfold py_int. cbn [Qnum Qden Qmult inject_Z Pos.mul].
  rewrite Z.mul_1_r, Z.quot_div_nonneg by lia.
  rewrite Nat2Z.inj_div. reflexivity.
Qed.

Lemma py_slice_to_of_nat {A} (l : list A) (k : nat) :
  py_slice_to l (Z.of_nat k) = take k l.
Proof.
  unfold py_slice_to. destruct (Z.leb_spec 0 (Z.of_nat k)); [|lia].
  rewrite Nat2Z.id. reflexivity.
Qed.

Section StepProperties.
Variables np_cos np_sin : Q -> Q.
Variables (Xs Ys : loc) (imageWidth imageHeight : Z) (lineVelocity : Velocity).
Variables (nMovePointRatio : Q) (maxPiontMove : Z) (maxLineAcceleration : Q * Q).
Variables (boarderGap : Z) (maxInitSpeed : Q).
Variables (w : world) (xs ys : list Q).
Hypothesis at_Xs : heap w !! Xs = Some xs.
Hypothesis at_Ys : heap w !! Ys = Some ys.
Hypothesis one_length : length ys = length xs.
Hypothesis can_move : (0 < maxPiontMove)%Z.
Hypothesis speed_scale : 0 <= fst maxLineAcceleration.
Hypothesis angle_scale : 0 <= snd maxLineAcceleration.
Hypothesis init_scale : 0 <= maxInitSpeed.

Local Abbreviation step :=
  (random_move_control_points np_cos np_sin Xs Ys imageWidth imageHeight
     lineVelocity nMovePointRatio maxPiontMove maxLineAcceleration boarderGap
     maxInitSpeed).
Local Abbreviation exact_step :=
  (random_move_control_points_exact np_cos np_sin Xs Ys imageWidth imageHeight
     lineVelocity nMovePointRatio maxPiontMove maxLineAcceleration boarderGap
     maxInitSpeed w xs ys at_Xs at_Ys one_length can_move speed_scale
     angle_scale init_scale).

(** X7: An animation step, on a stroke of [n] points with a positive
    [maxPiontMove] and acceleration scales that are not negative, returns
    two arrays of [n] entries.  The indices it selects are the first
    [int(n * nMovePointRatio)] of a permutation of [0 .. n - 1]: a
    selected point is moved by the displacement of the line, then by an
    integer of [-maxPiontMove .. maxPiontMove - 1] on each axis, then
    clipped to the margin; every other point is moved by the
    displacement of the line alone. *)
Theorem step_moves_each_point :
  outcome step w
    (fun r w' =>
       exists perm X Y,
         perm ≡ₚ seq 0 (length xs)
         /\ heap w' !! fst (fst r) = Some X /\ heap w' !! snd (fst r) = Some Y
         /\ length X = length xs /\ length Y = length xs
         /\ (forall i x y,
               xs !! i = Some x -> ys !! i = Some y ->
               i ∈ py_slice_to perm
                     (py_int (inject_Z (Z.of_nat (length xs)) * nMovePointRatio)) ->
               exists x' y',
                 X !! i = Some x' /\ Y !! i = Some y'
                 /\ jittered boarderGap (imageWidth - boarderGap) maxPiontMove
                      (x + line_shift np_cos lineVelocity) x'
                 /\ jittered boarderGap (imageHeight - boarderGap) maxPiontMove
                      (y + line_shift np_sin lineVelocity) y')
         /\ (forall i x y,
               xs !! i = Some x -> ys !! i = Some y ->
               i ∉ py_slice_to perm
                     (py_int (inject_Z (Z.of_nat (length xs)) * nMovePointRatio)) ->
               X !! i = Some (x + line_shift np_cos lineVelocity)
               /\ Y !! i = Some (y + line_shift np_sin lineVelocity)))
    (fun _ _ => False).
Proof.
  eapply outcome_mono; [exact exact_step | | auto].
  intros r w' (perm & X & Y & H). exists perm, X, Y.
  split; [exact (step_perm _ _ _ _ _ _ _ _ _ _ _ _ _ _ _ _ _ H)|].
  rewrite (step_heap _ _ _ _ _ _ _ _ _ _ _ _ _ _ _ _ _ H),
    (step_new_Xs _ _ _ _ _ _ _ _ _ _ _ _ _ _ _ _ _ H),
    (step_new_Ys _ _ _ _ _ _ _ _ _ _ _ _ _ _ _ _ _ H).
  split; [rewrite lookup_app_r, Nat.sub_diag by lia; reflexivity|].
  split; [rewrite lookup_app_r by lia;
          replace (S (length (heap w)) - length (heap w))%nat with 1%nat by lia;
          reflexivity|].
  split; [exact (step_length_X _ _ _ _ _ _ _ _ _ _ _ _ _ _ _ _ _ H)|].
  split; [exact (step_length_Y _ _ _ _ _ _ _ _ _ _ _ _ _ _ _ _ _ H)|].
  split.
  - exact (step_selected _ _ _ _ _ _ _ _ _ _ _ _ _ _ _ _ _ H).
  - exact (step_others _ _ _ _ _ _ _ _ _ _ _ _ _ _ _ _ _ H).
Qed.

(** X8: at the default [nMovePointRatio = 0.5], for which the product
    [len(Xs) * nMovePointRatio] is exact, the step selects
    [len(Xs) // 2] points: the first [len(Xs) // 2] entries of the
    shuffled indices, which are distinct.  Each of them is jittered and
    clipped, every other point is moved by the displacement of the line
    alone, and the step makes two normal draws, [len(Xs) - 1] draws for
    the shuffle and two integer draws for each selected point, with two
    more when it samples the velocity again. *)
Theorem step_selects_half_of_points :
  nMovePointRatio = 1 # 2 ->
  outcome step w
    (fun r w' =>
       exists perm X Y,
         perm ≡ₚ seq 0 (length xs)
         /\ NoDup (take (length xs / 2) perm)
         /\ length (take (length xs / 2) perm) = (length xs / 2)%nat
         /\ heap w' !! fst (fst r) = Some X /\ heap w' !! snd (fst r) = Some Y
         /\ (forall i x y,
               xs !! i = Some x -> ys !! i = Some y ->
               i ∈ take (length xs / 2) perm ->
               exists x' y',
                 X !! i = Some x' /\ Y !! i = Some y'
                 /\ jittered boarderGap (imageWidth - boarderGap) maxPiontMove
                      (x + line_shift np_cos lineVelocity) x'
                 /\ jittered boarderGap (imageHeight - boarderGap) maxPiontMove
                      (y + line_shift np_sin lineVelocity) y')
         /\ (forall i x y,
               xs !! i = Some x -> ys !! i = Some y ->
               i ∉ take (length xs / 2) perm ->
               X !! i = Some (x + line_shift np_cos lineVelocity)
               /\ Y !! i = Some (y + line_shift np_sin lineVelocity))
         /\ (np_cursor w'
              = (np_cursor w + 2 + (length xs - 1) + 2 * (length xs / 2))%nat
             \/ np_cursor w'
                = (np_cursor w + 2 + (length xs - 1) + 2 * (length xs / 2) + 2)%nat))
    (fun _ _ => False).
Proof.
  intros Hratio.
  eapply outcome_mono; [exact exact_step | | auto].
  intros r w' (perm & X & Y & H).
  pose proof (step_perm _ _ _ _ _ _ _ _ _ _ _ _ _ _ _ _ _ H) as Hperm.
  pose proof (step_selected _ _ _ _ _ _ _ _ _ _ _ _ _ _ _ _ _ H) as Hin.
  pose proof (step_others _ _ _ _ _ _ _ _ _ _ _ _ _ _ _ _ _ H) as Hout.
  pose proof (step_draws _ _ _ _ _ _ _ _ _ _ _ _ _ _ _ _ _ H) as Hdraws.
  unfold step_chosen in Hin, Hout, Hdraws. cbv zeta in Hdraws.
  rewrite Hratio, py_int_half, py_slice_to_of_nat in Hin, Hout, Hdraws.
  assert (Hlen : length (take (length xs / 2) perm) = (length xs / 2)%nat).
  { rewrite length_take, Hperm, length_seq.
    pose proof (Nat.Div0.div_le_upper_bound (length xs) 2 (length xs)). lia. }
  exists perm, X, Y.
  split; [exact Hperm|].
  split.
  { rewrite <- (take_drop (length xs / 2) perm) in Hperm.
    assert (Hnd : NoDup (take (length xs / 2) perm ++ drop (length xs / 2) perm))
      by (rewrite Hperm; apply NoDup_seq).
    apply NoDup_app in Hnd. apply Hnd. }
  split; [exact Hlen|].
  rewrite (step_heap _ _ _ _ _ _ _ _ _ _ _ _ _ _ _ _ _ H),
    (step_new_Xs _ _ _ _ _ _ _ _ _ _ _ _ _ _ _ _ _ H),
    (step_new_Ys _ _ _ _ _ _ _ _ _ _ _ _ _ _ _ _ _ H).
  split; [rewrite lookup_app_r, Nat.sub_diag by lia; reflexivity|].
  split; [rewrite lookup_app_r by lia;
          replace (S (length (heap w)) - length (heap w))%nat with 1%nat by lia;
          reflexivity|].
  split; [exact Hin|]. split; [exact Hout|].
  rewrite Hlen in Hdraws. exact Hdraws.
Qed.

(** X9: When every point, after the displacement of the line, is at
    least [maxPiontMove] away from the four edges of the canvas, no
    jitter can take a point off the canvas, and the step returns the
    perturbed velocity: the old speed plus [d_speed / 2] times the first
    normal draw, the old angle plus [d_angle / 2] times the second.  The
    velocity is not sampled again. *)
Theorem step_keeps_velocity_on_canvas :
  (forall i x y,
      xs !! i = Some x -> ys !! i = Some y ->
      within maxPiontMove (imageWidth - maxPiontMove)
        (x + line_shift np_cos lineVelocity)
      /\ within maxPiontMove (imageHeight - maxPiontMove)
           (y + line_shift np_sin lineVelocity)) ->
  outcome step w
    (fun r w' => snd r = perturbed lineVelocity maxLineAcceleration w)
    (fun _ _ => False).
Proof.
  intros Hsafe.
  eapply outcome_mono; [exact exact_step | | auto].
  intros r w' (perm & X & Y & H).
  exact (step_no_escape _ _ _ _ _ _ _ _ _ _ _ _ _ _ _ _ _ H Hsafe).
Qed.
End StepProperties.

Lemma step_moves_each_point_witness :
  outcome (random_move_control_points cos_at_0 sin_at_0 0 1 424 240 (5, 0) (1 # 2)
             10 (5, 1 # 2) 50 10) two_point_world
    (fun r w' =>
       exists perm X Y,
         perm ≡ₚ seq 0 2
         /\ heap w' !! fst (fst r) = Some X /\ heap w' !! snd (fst r) = Some Y
         /\ length X = 2%nat /\ length Y = 2%nat
         /\ (forall i x y,
               [370; 200] !! i = Some x -> [100; 100] !! i = Some y ->
               i ∈ py_slice_to perm (py_int (inject_Z (Z.of_nat 2) * (1 # 2))) ->
               exists x' y',
                 X !! i = Some x' /\ Y !! i = Some y'
                 /\ jittered 50 (424 - 50) 10 (x + line_shift cos_at_0 (5, 0)) x'
                 /\ jittered 50 (240 - 50) 10 (y + line_shift sin_at_0 (5, 0)) y')
         /\ (forall i x y,
               [370; 200] !! i = Some x -> [100; 100] !! i = Some y ->
               i ∉ py_slice_to perm (py_int (inject_Z (Z.of_nat 2) * (1 # 2))) ->
               X !! i = Some (x + line_shift cos_at_0 (5, 0))
               /\ Y !! i = Some (y + line_shift sin_at_0 (5, 0))))
    (fun _ _ => False).
Proof.
  apply (step_moves_each_point cos_at_0 sin_at_0 0 1 424 240 (5, 0) (1 # 2) 10
           (5, 1 # 2) 50 10 two_point_world [370; 200] [100; 100]);
    [reflexivity | reflexivity | reflexivity | lia
    | discriminate | discriminate | discriminate].
Defined.

Lemma step_selects_half_of_points_witness :
  outcome (random_move_control_points cos_at_0 sin_at_0 0 1 424 240 (5, 0) (1 # 2)
             10 (5, 1 # 2) 50 10) two_point_world
    (fun r w' =>
       exists perm X Y,
         perm ≡ₚ seq 0 2
         /\ NoDup (take (2 / 2) perm)
         /\ length (take (2 / 2) perm) = (2 / 2)%nat
         /\ heap w' !! fst (fst r) = Some X /\ heap w' !! snd (fst r) = Some Y
         /\ (forall i x y,
               [370; 200] !! i = Some x -> [100; 100] !! i = Some y ->
               i ∈ take (2 / 2) perm ->
               exists x' y',
                 X !! i = Some x' /\ Y !! i = Some y'
                 /\ jittered 50 (424 - 50) 10 (x + line_shift cos_at_0 (5, 0)) x'
                 /\ jittered 50 (240 - 50) 10 (y + line_shift sin_at_0 (5, 0)) y')
         /\ (forall i x y,
               [370; 200] !! i = Some x -> [100; 100] !! i = Some y ->
               i ∉ take (2 / 2) perm ->
               X !! i = Some (x + line_shift cos_at_0 (5, 0))
               /\ Y !! i = Some (y + line_shift sin_at_0 (5, 0)))
         /\ (np_cursor w' = (np_cursor two_point_world + 2 + (2 - 1) + 2 * (2 / 2))%nat
             \/ np_cursor w'
                = (np_cursor two_point_world + 2 + (2 - 1) + 2 * (2 / 2) + 2)%nat))
    (fun _ _ => False).
Proof.
  apply (step_selects_half_of_points cos_at_0 sin_at_0 0 1 424 240 (5, 0) (1 # 2)
           10 (5, 1 # 2) 50 10 two_point_world [370; 200] [100; 100]);
    [reflexivity | reflexivity | reflexivity | lia
    | discriminate | discriminate | discriminate | reflexivity].
Defined.

Lemma step_keeps_velocity_on_canvas_witness :
  outcome (random_move_control_points cos_at_0 sin_at_0 0 1 424 240 (5, 0) (1 # 2)
             10 (5, 1 # 2) 50 10) two_point_world
    (fun r w' => snd r = perturbed (5, 0) (5, 1 # 2) two_point_world)
    (fun _ _ => False).
Proof.
  apply (step_keeps_velocity_on_canvas cos_at_0 sin_at_0 0 1 424 240 (5, 0) (1 # 2)
           10 (5, 1 # 2) 50 10 two_point_world [370; 200] [100; 100]);
    [reflexivity | reflexivity | reflexivity | lia
    | discriminate | discriminate | discriminate |].
  intros [|[|i]] x y Hx Hy; try discriminate;
    injection Hx as <-; injection Hy as <-;
    (split; split; vm_compute; discriminate).
Defined.

(** ** The random walk *)

Lemma wp_random_randint (a b : Z) (w : world) Q E :
  (a <= b)%Z ->
  (forall k, (a <= k <= b)%Z -> Q k (py_skips 1 w)) ->
  outcome (random_randint a b) w Q E.
Proof.
  intros Hab HQ. unfold outcome, random_randint, bind, py_next, ret.
  destruct (Z.leb_spec a b) as [_|]; [|lia].
  apply HQ.
  destruct (frac_range (peek (py_state w))) as [H0 H1].
  set (n := (b - a + 1)%Z).
  assert (Hn : 0 < inject_Z n) by (unfold n, Qlt; cbn; lia).
  assert (Hlo : (0 <= Qfloor (frac (peek (py_state w)) * inject_Z n))%Z).
  { change 0%Z with (Qfloor 0). apply Qfloor_resp_le. nra. }
  assert (Hhi : (Qfloor (frac (peek (py_state w)) * inject_Z n) < n)%Z).
  { rewrite Zlt_Qlt. eapply Qle_lt_trans; [apply Qfloor_le|]. nra. }
  lia.
Qed.

Lemma py_skips_skips (n m : nat) (w : world) :
  py_skips n (py_skips m w) = py_skips (n + m) w.
Proof. unfold py_skips. cbn. rewrite Nat.add_assoc. reflexivity. Qed.

Lemma np_clipZ_range (x lo hi : Z) :
  (lo <= hi)%Z -> (lo <= np_clipZ x lo hi <= hi)%Z.
Proof. unfold np_clipZ. lia. Qed.

Lemma walk_move_in_canvas (imageWidth imageHeight : Z) (c c' : Z * Z) :
  (0 < imageWidth)%Z -> (0 < imageHeight)%Z ->
  walk_move imageWidth imageHeight c c' -> in_canvas imageWidth imageHeight c'.
Proof.
  intros HW HH (a & _ & ->). unfold in_canvas. cbn [fst snd].
  pose proof (np_clipZ_range (fst c + fst a) 0 (imageHeight - 1)).
  pose proof (np_clipZ_range (snd c + snd a) 0 (imageWidth - 1)). lia.
Qed.

Lemma walk_from_in_canvas (imageWidth imageHeight : Z) (cells : list (Z * Z)) :
  (0 < imageWidth)%Z -> (0 < imageHeight)%Z ->
  forall c, walk_from imageWidth imageHeight c cells ->
            Forall (in_canvas imageWidth imageHeight) cells.
Proof.
  intros HW HH. induction cells as [|c' rest IH]; intros c Hwalk; [constructor|].
  destruct Hwalk as [Hmove Hrest]. constructor.
  - eapply walk_move_in_canvas; eassumption.
  - eapply IH, Hrest.
Qed.

Lemma last_cons_default {A} (l : list A) (x d d' : A) :
  List.last (x :: l) d = List.last (x :: l) d'.
Proof.
  revert x. induction l as [|y l IH]; intros x; [reflexivity|].
  change (List.last (y :: l) d = List.last (y :: l) d'). apply IH.
Qed.

Lemma walk_from_snoc (imageWidth imageHeight : Z) (cells : list (Z * Z)) :
  forall c c',
    walk_from imageWidth imageHeight c cells ->
    walk_move imageWidth imageHeight (List.last cells c) c' ->
    walk_from imageWidth imageHeight c (cells ++ [c']).
Proof.
  induction cells as [|d rest IH]; intros c c' Hwalk Hmove.
  - split; [exact Hmove | exact I].
  - destruct Hwalk as [Hd Hrest]. split; [exact Hd|].
    apply IH; [exact Hrest|].
    destruct rest as [|p rest]; [exact Hmove|].
    rewrite (last_cons_default rest p d c).
    exact Hmove.
Qed.

Lemma walk_step_spec (imageWidth imageHeight : Z) (s : walk) (i : nat) (w : world) :
  outcome (walk_step imageWidth imageHeight s i) w
    (fun s' w' =>
       w' = py_skips 1 w
       /\ walk_move imageWidth imageHeight (walk_x s, walk_y s) (walk_x s', walk_y s')
       /\ x_list s' = x_list s ++ [walk_x s']
       /\ y_list s' = y_list s ++ [walk_y s'])
    (fun _ _ => False).
Proof.
  unfold walk_step. apply outcome_bind. apply wp_random_randint; [cbn; lia|].
  intros k Hk. cbn in Hk.
  destruct (action_list !! Z.to_nat k) as [[dx dy]|] eqn:Ha.
  - apply outcome_ret. split; [reflexivity|]. cbn [walk_x walk_y x_list y_list].
    split; [|split; reflexivity].
    exists (dx, dy). split; [eapply list_elem_of_lookup_2, Ha | reflexivity].
  - apply lookup_ge_None in Ha. cbn in Ha. lia.
Qed.

Lemma walk_loop_spec (imageWidth imageHeight : Z) (x0 y0 : Z) (n : nat) (w : world) :
  outcome (foldM (walk_step imageWidth imageHeight) (Walk x0 y0 [] []) (seq 0 n)) w
    (fun s w' =>
       w' = py_skips n w
       /\ exists cells,
            length cells = n
            /\ walk_from imageWidth imageHeight (x0, y0) cells
            /\ x_list s = map fst cells /\ y_list s = map snd cells)
    (fun _ _ => False).
Proof.
  eapply outcome_mono;
    [apply (outcome_foldM _ (fun k (s : walk) w' =>
       w' = py_skips k w
       /\ exists cells,
            length cells = k
            /\ walk_from imageWidth imageHeight (x0, y0) cells
            /\ x_list s = map fst cells /\ y_list s = map snd cells
            /\ (walk_x s, walk_y s) = List.last cells (x0, y0))
       (fun _ _ => False)) | | intros ? ? []].
  - intros k i s w' _ (-> & cells & Hlen & Hwalk & Hxs & Hys & Hlast).
    eapply outcome_mono; [apply walk_step_spec | | auto].
    intros s' w' (-> & Hmove & Hxs' & Hys').
    split; [rewrite py_skips_skips; reflexivity|].
    exists (cells ++ [(walk_x s', walk_y s')]).
    split; [rewrite length_app; cbn [length]; lia|].
    split; [apply walk_from_snoc; [exact Hwalk | rewrite <- Hlast; exact Hmove]|].
    rewrite !map_app, Hxs', Hys', Hxs, Hys. cbn [map fst snd].
    split; [reflexivity|]. split; [reflexivity|].
    rewrite last_last. reflexivity.
  - split; [destruct w as [? [? ?] ?]; reflexivity|].
    exists []. cbn. auto.
  - intros s w' (-> & cells & Hlen & Hwalk & Hxs & Hys & _).
    rewrite length_seq in *. split; [reflexivity|].
    exists cells. auto.
Qed.

(** *** Index assignment on the canvas *)

Lemma np_index_in_range (n : nat) (i : Z) :
  (0 <= i < Z.of_nat n)%Z -> np_index n i = Some (Z.to_nat i).
Proof.
  intros H. unfold np_index.
  destruct (Z.leb_spec 0 i); [|lia]. destruct (Z.ltb_spec i (Z.of_nat n)); [|lia].
  reflexivity.
Qed.

Lemma cell_insert {A} (canvas : list (list A)) (row : list A) (i j : nat) (v : A) :
  canvas !! i = Some row -> (j < length row)%nat ->
  forall i' j',
    cell (<[i := <[j := v]> row]> canvas) i' j'
    = if decide (i' = i /\ j' = j) then Some v else cell canvas i' j'.
Proof.
  intros Hrow Hj i' j'. unfold cell.
  pose proof (lookup_lt_Some _ _ _ Hrow) as Hi.
  destruct (decide (i' = i)) as [->|Hne].
  - rewrite list_lookup_insert_eq by exact Hi. rewrite Hrow.
    destruct (decide (j' = j)) as [->|Hnj].
    + rewrite list_lookup_insert_eq by exact Hj.
      destruct (decide (i = i /\ j = j)) as [_|[]]; auto.
    + rewrite list_lookup_insert_ne by auto.
      destruct (decide (i = i /\ j' = j)) as [[_ ?]|_]; [contradiction|reflexivity].
  - rewrite list_lookup_insert_ne by auto.
    destruct (decide (i' = i /\ j' = j)) as [[? _]|_]; [contradiction|reflexivity].
Qed.

Lemma grid_insert {A} (h w : nat) (canvas : list (list A)) (row : list A)
    (i j : nat) (v : A) :
  grid h w canvas -> canvas !! i = Some row ->
  grid h w (<[i := <[j := v]> row]> canvas).
Proof.
  intros [Hh Hw] Hrow. split; [rewrite length_insert; exact Hh|].
  apply Forall_insert; [exact Hw|]. rewrite length_insert.
  eapply (proj1 (Forall_lookup _ _) Hw), Hrow.
Qed.

Lemma set_cell_spec (h w : nat) (canvas : list (list Z)) (x y v : Z) :
  grid h w canvas -> (0 <= x < Z.of_nat h)%Z -> (0 <= y < Z.of_nat w)%Z ->
  exists row,
    canvas !! Z.to_nat x = Some row /\ (Z.to_nat y < length row)%nat
    /\ set_cell canvas x y v
       = Some (<[Z.to_nat x := <[Z.to_nat y := v]> row]> canvas).
Proof.
  intros [Hh Hw] Hx Hy. unfold set_cell, array2.
  rewrite np_index_in_range by lia.
  destruct (canvas !! Z.to_nat x) as [row|] eqn:Hrow.
  - pose proof (proj1 (Forall_lookup _ _) Hw _ _ Hrow) as Hlen. cbn beta in Hlen.
    rewrite np_index_in_range by lia.
    exists row. split; [reflexivity|]. split; [lia | reflexivity].
  - apply lookup_ge_None in Hrow. lia.
Qed.

Lemma set_cells_spec (h w : nat) (cells : list (Z * Z)) (v : Z) :
  Forall (in_canvas (Z.of_nat w) (Z.of_nat h)) cells ->
  forall canvas : list (list Z),
    grid h w canvas ->
    exists canvas' : list (list Z),
      set_cells canvas cells v = Some canvas'
      /\ grid h w canvas'
      /\ forall i j,
           cell canvas' i j
           = if decide ((Z.of_nat i, Z.of_nat j) ∈ cells)
             then (fun _ => v) <$> cell canvas i j else cell canvas i j.
Proof.
  induction 1 as [|[x y] rest [Hx Hy] Hrest IH]; intros canvas Hgrid.
  - exists canvas. split; [reflexivity|]. split; [exact Hgrid|].
    intros i j. destruct (decide (_ ∈ [])) as [Hin|_]; [|reflexivity].
    apply elem_of_nil in Hin. contradiction.
  - cbn [fst snd] in Hx, Hy.
    destruct (set_cell_spec h w canvas x y v Hgrid Hx Hy) as (row & Hrow & Hj & Hset).
    destruct (IH _ (grid_insert h w canvas row (Z.to_nat x) (Z.to_nat y) v Hgrid Hrow))
      as (canvas' & Hcells & Hgrid' & Hcell).
    exists canvas'. split; [cbn [set_cells]; rewrite Hset; exact Hcells|].
    split; [exact Hgrid'|].
    intros i j. rewrite Hcell, (cell_insert canvas row _ _ v Hrow Hj).
    assert (Hhere : cell canvas (Z.to_nat x) (Z.to_nat y) = row !! Z.to_nat y)
      by (unfold cell; rewrite Hrow; reflexivity).
    destruct (lookup_lt_is_Some_2 _ _ Hj) as [old Hold].
    destruct (decide (i = Z.to_nat x /\ j = Z.to_nat y)) as [[-> ->]|Hne].
    + rewrite !Z2Nat.id by lia. rewrite Hhere, Hold.
      destruct (decide ((x, y) ∈ rest)); destruct (decide ((x, y) ∈ (x, y) :: rest))
        as [_|Hn]; try reflexivity; exfalso; apply Hn; left.
    + destruct (decide ((Z.of_nat i, Z.of_nat j) ∈ rest)) as [Hin|Hout];
        destruct (decide ((Z.of_nat i, Z.of_nat j) ∈ (x, y) :: rest)) as [Hin'|Hout'];
        try reflexivity.
      * exfalso. apply Hout'. right. exact Hin.
      * exfalso. apply elem_of_cons in Hin' as [Heq|Hin']; [|contradiction].
        injection Heq as <- <-. apply Hne. rewrite !Nat2Z.id. auto.
Qed.

Lemma cell_replicate {A} (h w i j : nat) (v : A) :
  (i < h)%nat -> (j < w)%nat -> cell (replicate h (replicate w v)) i j = Some v.
Proof.
  intros Hi Hj. unfold cell.
  rewrite lookup_replicate_2 by exact Hi. apply lookup_replicate_2, Hj.
Qed.

Lemma grid_replicate {A} (h w : nat) (v : A) : grid h w (replicate h (replicate w v)).
Proof.
  split; [apply length_replicate|].
  apply Forall_replicate. apply length_replicate.
Qed.

Lemma cell_map {A B} (f : A -> B) (px : list (list A)) (i j : nat) :
  cell (map (map f) px) i j = f <$> cell px i j.
Proof.
  unfold cell. change (map (map f) px) with (map f <$> px).
  rewrite list_lookup_fmap. destruct (px !! i) as [row|]; [|reflexivity].
  cbn [fmap option_fmap option_map]. change (map f row) with (f <$> row).
  apply list_lookup_fmap.
Qed.

Lemma grid_map {A B} (f : A -> B) (h w : nat) (px : list (list A)) :
  grid h w px -> grid h w (map (map f) px).
Proof.
  intros [Hh Hw]. split; [rewrite length_map; exact Hh|].
  apply Forall_map. eapply Forall_impl; [exact Hw|].
  intros row Hrow. cbn beta. rewrite length_map. exact Hrow.
Qed.

Lemma zip_map_fst_snd {A B} (l : list (A * B)) : zip (map fst l) (map snd l) = l.
Proof.
  induction l as [|[a b] l IH]; [reflexivity|]. cbn. rewrite IH. reflexivity.
Qed.

(** *** The mask of a walk *)

Lemma get_random_walk_mask_spec (imageWidth imageHeight : Z) (length : option Z)
    (w : world) :
  (0 < imageWidth)%Z -> (0 < imageHeight)%Z ->
  (0 < default (imageWidth * imageHeight)%Z length)%Z ->
  outcome (get_random_walk_mask imageWidth imageHeight length) w
    (fun mask w' =>
       w' = py_skips (Z.to_nat (default (imageWidth * imageHeight)%Z length) + 2) w
       /\ exists (x0 y0 : Z) (cells : list (Z * Z)) (canvas : list (list Z)),
            in_canvas imageWidth imageHeight (x0, y0)
            /\ List.length cells
               = Z.to_nat (default (imageWidth * imageHeight)%Z length)
            /\ walk_from imageWidth imageHeight (x0, y0) cells
            /\ set_cells (replicate (Z.to_nat imageHeight)
                            (replicate (Z.to_nat imageWidth) 0%Z)) cells 1
               = Some canvas
            /\ mask = fromarray_convert_1 canvas)
    (fun _ _ => False).
Proof.
  intros HW HH Hn. unfold get_random_walk_mask.
  change (match length with Some n => n | None => (imageWidth * imageHeight)%Z end)
    with (default (imageWidth * imageHeight)%Z length).
  set (n := default (imageWidth * imageHeight)%Z length) in *.
  apply outcome_bind. unfold np_zeros.
  destruct (Z.ltb_spec imageHeight 0); [lia|].
  destruct (Z.ltb_spec imageWidth 0); [lia|]. cbn [orb]. apply outcome_ret.
  apply outcome_bind. apply wp_random_randint; [lia|]. intros x0 Hx0.
  apply outcome_bind. apply wp_random_randint; [lia|]. intros y0 Hy0.
  rewrite py_skips_skips.
  apply outcome_bind. unfold py_range.
  eapply outcome_mono; [apply walk_loop_spec | | auto].
  intros s w' (-> & cells & Hlen & Hwalk & Hxs & Hys).
  rewrite py_skips_skips.
  pose proof (walk_from_in_canvas imageWidth imageHeight cells HW HH _ Hwalk) as Hin.
  destruct (set_cells_spec (Z.to_nat imageHeight) (Z.to_nat imageWidth) cells 1)
    with (canvas := replicate (Z.to_nat imageHeight)
                      (replicate (Z.to_nat imageWidth) 0%Z))
    as (canvas & Hset & _).
  { rewrite !Z2Nat.id by lia. exact Hin. }
  { apply grid_replicate. }
  apply outcome_bind. unfold ndarray_setitem2. rewrite Hxs, Hys.
  destruct cells as [|c cells]; [cbn [List.length] in Hlen; lia|].
  cbn [np_array_int map fst snd].
  change (zip (fst c :: map fst cells) (snd c :: map snd cells))
    with (zip (map fst (c :: cells)) (map snd (c :: cells))).
  rewrite zip_map_fst_snd, Hset.
  apply outcome_ret, outcome_ret.
  split; [f_equal; lia|].
  exists x0, y0, (c :: cells), canvas.
  split; [split; cbn [fst snd]; lia|]. auto.
Qed.

Lemma walk_move_adjacent (imageWidth imageHeight : Z) (c c' : Z * Z) :
  in_canvas imageWidth imageHeight c -> walk_move imageWidth imageHeight c c' ->
  (Z.abs (fst c' - fst c) + Z.abs (snd c' - snd c) <= 1)%Z.
Proof.
  intros [Hx Hy] (a & Ha & ->). cbn [fst snd]. unfold np_clipZ.
  unfold action_list in Ha.
  repeat (apply elem_of_cons in Ha as [-> | Ha]; [cbn [fst snd]; lia|]).
  apply elem_of_nil in Ha. contradiction.
Qed.

Lemma walk_from_adjacent (imageWidth imageHeight : Z) (cells : list (Z * Z)) :
  (0 < imageWidth)%Z -> (0 < imageHeight)%Z ->
  forall start,
    in_canvas imageWidth imageHeight start ->
    walk_from imageWidth imageHeight start cells ->
    forall k c c',
      (start :: cells) !! k = Some c -> cells !! k = Some c' ->
      (Z.abs (fst c' - fst c) + Z.abs (snd c' - snd c) <= 1)%Z.
Proof.
  intros HW HH. induction cells as [|d rest IH]; intros start Hstart Hwalk k c c' Hc Hc'.
  - discriminate.
  - destruct Hwalk as [Hmove Hrest]. destruct k as [|k].
    + injection Hc as <-. injection Hc' as <-.
      eapply walk_move_adjacent; eassumption.
    + apply (IH d (walk_move_in_canvas _ _ _ _ HW HH Hmove) Hrest k c c' Hc Hc').
Qed.

(** X10: on a canvas of positive width and height, a walk of
    [length >= 1] steps (by default [imageWidth * imageHeight]) returns a
    mask of mode ['1'], of [imageHeight] rows of [imageWidth] pixels.  The
    walk starts on a cell of the canvas, which it does not record, and
    records [length] cells, each one action and one clip after the one
    before, so that each is the cell before it or one of its four
    neighbours; a pixel of the mask is white exactly where its cell was
    recorded.  The call makes [length + 2] draws from the [random] module
    and none from [numpy.random]. *)
Theorem random_walk_mask_marks_visited_cells (imageWidth imageHeight : Z)
    (length : option Z) (w : world) :
  (0 < imageWidth)%Z -> (0 < imageHeight)%Z ->
  (0 < default (imageWidth * imageHeight)%Z length)%Z ->
  outcome (get_random_walk_mask imageWidth imageHeight length) w
    (fun mask w' =>
       w' = py_skips (Z.to_nat (default (imageWidth * imageHeight)%Z length) + 2) w
       /\ exists (x0 y0 : Z) (cells : list (Z * Z)) (px : list (list bool)),
            in_canvas imageWidth imageHeight (x0, y0)
            /\ List.length cells
               = Z.to_nat (default (imageWidth * imageHeight)%Z length)
            /\ walk_from imageWidth imageHeight (x0, y0) cells
            /\ (forall k c c',
                  ((x0, y0) :: cells) !! k = Some c -> cells !! k = Some c' ->
                  (Z.abs (fst c' - fst c) + Z.abs (snd c' - snd c) <= 1)%Z)
            /\ mask = Image1 px
            /\ grid (Z.to_nat imageHeight) (Z.to_nat imageWidth) px
            /\ forall i j,
                 (i < Z.to_nat imageHeight)%nat -> (j < Z.to_nat imageWidth)%nat ->
                 cell px i j
                 = Some (bool_decide ((Z.of_nat i, Z.of_nat j) ∈ cells)))
    (fun _ _ => False).
Proof.
  intros HW HH Hn.
  eapply outcome_mono;
    [apply get_random_walk_mask_spec; assumption | | auto].
  intros mask w' (-> & x0 & y0 & cells & canvas & Hstart & Hlen & Hwalk & Hset & ->).
  split; [reflexivity|].
  pose proof (walk_from_in_canvas imageWidth imageHeight cells HW HH _ Hwalk) as Hin.
  destruct (set_cells_spec (Z.to_nat imageHeight) (Z.to_nat imageWidth) cells 1)
    with (canvas := replicate (Z.to_nat imageHeight)
                      (replicate (Z.to_nat imageWidth) 0%Z))
    as (canvas' & Hset' & Hgrid & Hcell).
  { rewrite !Z2Nat.id by lia. exact Hin. }
  { apply grid_replicate. }
  rewrite Hset in Hset'. injection Hset' as <-.
  exists x0, y0, cells, (map (map (fun v => negb (v * 255 =? 0)%Z)) canvas).
  split; [exact Hstart|]. split; [exact Hlen|]. split; [exact Hwalk|].
  split; [exact (walk_from_adjacent imageWidth imageHeight cells HW HH _ Hstart Hwalk)|].
  split; [reflexivity|]. split; [apply grid_map, Hgrid|].
  intros i j Hi Hj. rewrite cell_map, Hcell, cell_replicate by assumption.
  destruct (decide ((Z.of_nat i, Z.of_nat j) ∈ cells)) as [Hc|Hc].
  - rewrite bool_decide_eq_true_2 by exact Hc. reflexivity.
  - rewrite bool_decide_eq_false_2 by exact Hc. reflexivity.
Qed.

Lemma random_walk_mask_marks_visited_cells_witness :
  outcome (get_random_walk_mask 3 2 (Some 4%Z)) (world_of [] [0; 0; 0; 1 # 2] [])
    (fun mask w' =>
       w' = py_skips (Z.to_nat (default (3 * 2)%Z (Some 4%Z)) + 2)
              (world_of [] [0; 0; 0; 1 # 2] [])
       /\ exists (x0 y0 : Z) (cells : list (Z * Z)) (px : list (list bool)),
            in_canvas 3 2 (x0, y0)
            /\ List.length cells = Z.to_nat (default (3 * 2)%Z (Some 4%Z))
            /\ walk_from 3 2 (x0, y0) cells
            /\ (forall k c c',
                  ((x0, y0) :: cells) !! k = Some c -> cells !! k = Some c' ->
                  (Z.abs (fst c' - fst c) + Z.abs (snd c' - snd c) <= 1)%Z)
            /\ mask = Image1 px
            /\ grid (Z.to_nat 2) (Z.to_nat 3) px
            /\ forall i j,
                 (i < Z.to_nat 2)%nat -> (j < Z.to_nat 3)%nat ->
                 cell px i j
                 = Some (bool_decide ((Z.of_nat i, Z.of_nat j) ∈ cells)))
    (fun _ _ => False).
Proof.
  apply (random_walk_mask_marks_visited_cells 3 2 (Some 4%Z)
           (world_of [] [0; 0; 0; 1 # 2] [])); reflexivity.
Defined.

(** *** Counting the pixels of the walk *)

Lemma filter_length_insert {A} (p : A -> bool) (l : list A) (j : nat) (old v : A) :
  l !! j = Some old ->
  (length (filter (fun x => p x = true) (<[j := v]> l)) + Nat.b2n (p old)
   = length (filter (fun x => p x = true) l) + Nat.b2n (p v))%nat.
Proof.
  intros Hj. pose proof (lookup_lt_Some _ _ _ Hj) as Hlt.
  rewrite insert_take_drop by exact Hlt.
  rewrite <- (take_drop_middle l j old Hj) at 3.
  rewrite !filter_app, !length_app.
  assert (Hone : forall x rest,
             length (filter (fun x => p x = true) (x :: rest))
             = (Nat.b2n (p x) + length (filter (fun x => p x = true) rest))%nat).
  { intros x rest. destruct (p x) eqn:E.
    - rewrite filter_cons_True by exact E. reflexivity.
    - rewrite filter_cons_False by (rewrite E; discriminate). reflexivity. }
  rewrite !Hone. lia.
Qed.

Lemma count_insert {A} (p : A -> bool) (px : list (list A)) (row : list A)
    (i j : nat) (old v : A) :
  px !! i = Some row -> row !! j = Some old ->
  (count p (<[i := <[j := v]> row]> px) + Nat.b2n (p old)
   = count p px + Nat.b2n (p v))%nat.
Proof.
  intros Hi Hj. pose proof (lookup_lt_Some _ _ _ Hi) as Hlt. unfold count.
  rewrite insert_take_drop by exact Hlt.
  rewrite <- (take_drop_middle px i row Hi) at 3.
  rewrite !concat_app, !concat_cons, !filter_app, !length_app.
  pose proof (filter_length_insert p row j old v Hj). lia.
Qed.

Lemma count_pos {A} (p : A -> bool) (px : list (list A)) (row : list A)
    (i j : nat) (v : A) :
  px !! i = Some row -> row !! j = Some v -> p v = true -> (1 <= count p px)%nat.
Proof.
  intros Hi Hj Hv. unfold count.
  assert (Hin : v ∈ filter (fun x => p x = true) (concat px)).
  { apply list_elem_of_filter. split; [exact Hv|].
    apply list_elem_of_In, in_concat. exists row.
    split; apply list_elem_of_In; eapply list_elem_of_lookup_2; eassumption. }
  destruct (filter _ (concat px)); [apply elem_of_nil in Hin; contradiction|].
  cbn [length]. lia.
Qed.

Lemma np_index_lt (n : nat) (i : Z) (k : nat) : np_index n i = Some k -> (k < n)%nat.
Proof.
  unfold np_index.
  destruct (Z.leb_spec 0 i); destruct (Z.ltb_spec i (Z.of_nat n)); cbn [andb];
    try (intros [= <-]; lia);
    destruct (Z.leb_spec (- Z.of_nat n) i); destruct (Z.ltb_spec i 0); cbn [andb];
    try discriminate; intros [= <-]; lia.
Qed.

Lemma set_cell_count (p : Z -> bool) (canvas canvas' : list (list Z)) (x y v : Z) :
  set_cell canvas x y v = Some canvas' -> p v = true ->
  (count p canvas <= count p canvas' <= S (count p canvas))%nat
  /\ (1 <= count p canvas')%nat.
Proof.
  unfold set_cell, array2. intros Hset Hv.
  destruct (np_index (length canvas) x) as [i|] eqn:Hi; [|discriminate].
  destruct (canvas !! i) as [row|] eqn:Hrow; [|discriminate].
  destruct (np_index (length row) y) as [j|] eqn:Hj; [|discriminate].
  injection Hset as <-.
  destruct (lookup_lt_is_Some_2 row j (np_index_lt _ _ _ Hj)) as [old Hold].
  pose proof (count_insert p canvas row i j old v Hrow Hold) as Hc.
  rewrite Hv in Hc. cbn [Nat.b2n] in Hc.
  pose proof (lookup_lt_Some _ _ _ Hrow) as Hlt.
  pose proof (lookup_lt_Some _ _ _ Hold) as Hlt'.
  assert (Hone : (1 <= count p (<[i := <[j := v]> row]> canvas))%nat).
  { apply (count_pos p _ (<[j := v]> row) i j v).
    - apply list_lookup_insert_eq, Hlt.
    - apply list_lookup_insert_eq, Hlt'.
    - exact Hv. }
  destruct (p old); cbn [Nat.b2n] in Hc; lia.
Qed.

Lemma set_cells_count (p : Z -> bool) (cells : list (Z * Z)) (v : Z) :
  p v = true ->
  forall canvas canvas' : list (list Z),
    set_cells canvas cells v = Some canvas' ->
    (count p canvas <= count p canvas' <= count p canvas + length cells)%nat
    /\ (cells <> [] -> 1 <= count p canvas')%nat.
Proof.
  intros Hv. induction cells as [|[x y] rest IH]; intros canvas canvas' Hset.
  - injection Hset as <-. cbn [length]. split; [lia | congruence].
  - cbn [set_cells] in Hset.
    destruct (set_cell canvas x y v) as [c1|] eqn:H1; [|discriminate].
    destruct (set_cell_count p canvas c1 x y v H1 Hv) as [Hc1 Hone].
    destruct (IH c1 canvas' Hset) as [Hc _]. cbn [length]. split; [lia|].
    intros _. lia.
Qed.

Lemma count_negb {A} (p : A -> bool) (px : list (list A)) :
  (count (fun x => negb (p x)) px + count p px = length (concat px))%nat.
Proof.
  unfold count. induction (concat px) as [|x l IH]; [reflexivity|].
  destruct (p x) eqn:E.
  - rewrite filter_cons_False by (rewrite E; discriminate).
    rewrite (filter_cons_True (fun x => p x = true)) by exact E.
    cbn [length]. lia.
  - rewrite filter_cons_True by (rewrite E; reflexivity).
    rewrite (filter_cons_False (fun x => p x = true)) by (rewrite E; discriminate).
    cbn [length]. lia.
Qed.

Lemma count_map {A B} (f : A -> B) (p : B -> bool) (px : list (list A)) :
  count p (map (map f) px) = count (fun x => p (f x)) px.
Proof.
  unfold count. rewrite <- concat_map. apply length_filter_map. reflexivity.
Qed.

Lemma grid_rectangular {A} (h w : nat) (px : list (list A)) :
  (0 < h)%nat -> grid h w px -> rectangular px /\ dims px = (w, h).
Proof.
  intros Hh [Hlen Hrows].
  assert (Hd : dims px = (w, h)).
  { unfold dims. rewrite Hlen. destruct px as [|row px]; [cbn in Hlen; lia|].
    cbn [hd]. inversion Hrows; subst. congruence. }
  split; [|exact Hd]. unfold rectangular. rewrite Hd. exact Hrows.
Qed.

(** X11: the masked ratio of a random-walk mask.  On a canvas of positive
    width and height, after a walk of [length >= 1] steps, between 1 and
    [length] pixels are white, so that [get_masked_ratio], which counts the
    pixels equal to 0, returns a number of
    [[1 - length / (W * H), 1 - 1 / (W * H)]]: never 1, and never below
    the share that the steps leave untouched. *)
Theorem random_walk_mask_ratio_bounds (imageWidth imageHeight : Z)
    (length : option Z) (w : world) :
  (0 < imageWidth)%Z -> (0 < imageHeight)%Z ->
  (0 < default (imageWidth * imageHeight)%Z length)%Z ->
  outcome (get_random_walk_mask imageWidth imageHeight length) w
    (fun mask _ =>
       exists q,
         get_masked_ratio mask = Finite q
         /\ 1 - inject_Z (default (imageWidth * imageHeight)%Z length)
                / inject_Z (imageWidth * imageHeight) <= q
         /\ q <= 1 - 1 / inject_Z (imageWidth * imageHeight))
    (fun _ _ => False).
Proof.
  intros HW HH Hn.
  eapply outcome_mono;
    [apply get_random_walk_mask_spec; assumption | | auto].
  intros mask w' (_ & x0 & y0 & cells & canvas & _ & Hlen & Hwalk & Hset & ->).
  set (n := default (imageWidth * imageHeight)%Z length) in *.
  set (white := fun v : Z => negb (v * 255 =? 0)%Z).
  pose proof (walk_from_in_canvas imageWidth imageHeight cells HW HH _ Hwalk) as Hin.
  destruct (set_cells_spec (Z.to_nat imageHeight) (Z.to_nat imageWidth) cells 1)
    with (canvas := replicate (Z.to_nat imageHeight)
                      (replicate (Z.to_nat imageWidth) 0%Z))
    as (canvas' & Hset' & Hgrid & _).
  { rewrite !Z2Nat.id by lia. exact Hin. }
  { apply grid_replicate. }
  rewrite Hset in Hset'. injection Hset' as <-.
  destruct (set_cells_count white cells 1 eq_refl _ _ Hset) as [[_ Hup] Hpos].
  rewrite (count_none white (replicate _ _)) in Hup
    by (apply Forall_replicate, Forall_replicate; reflexivity).
  assert (Hne : cells <> []) by (intros ->; cbn in Hlen; lia).
  specialize (Hpos Hne).
  destruct (grid_rectangular (Z.to_nat imageHeight) (Z.to_nat imageWidth) canvas)
    as [Hrect Hdims]; [lia | exact Hgrid |].
  pose proof (rectangular_area canvas Hrect) as Harea.
  rewrite Hdims in Harea. cbn [fst snd] in Harea.
  pose proof (count_negb white canvas) as Hsum.
  unfold get_masked_ratio, fromarray_convert_1.
  cbn [histogram0 Image_size]. fold white.
  rewrite (count_map white negb canvas).
  assert (Hd : dims (map (map white) canvas)
               = (Z.to_nat imageWidth, Z.to_nat imageHeight)).
  { apply (grid_rectangular (Z.to_nat imageHeight)); [lia|].
    apply grid_map, Hgrid. }
  rewrite Hd. unfold np_true_divide.
  set (zeros := count (fun x => negb (white x)) canvas) in *.
  destruct (Z.eqb_spec (Z.of_nat (Z.to_nat imageWidth)
                        * Z.of_nat (Z.to_nat imageHeight)) 0) as [E|_]; [nia|].
  eexists. split; [reflexivity|].
  rewrite !Z2Nat.id by lia.
  assert (HT : 0 < inject_Z (imageWidth * imageHeight))
    by (unfold Qlt; cbn; nia).
  change (Z.of_nat zeros # 1) with (inject_Z (Z.of_nat zeros)).
  change (imageWidth * imageHeight # 1) with (inject_Z (imageWidth * imageHeight)).
  assert (Hz : inject_Z (Z.of_nat zeros)
               == inject_Z (imageWidth * imageHeight)
                  - inject_Z (Z.of_nat (count white canvas))).
  { unfold Qminus. rewrite <- inject_Z_opp, <- inject_Z_plus.
    apply inject_Z_injective. nia. }
  assert (H1 : 1 <= inject_Z (Z.of_nat (count white canvas)))
    by (change 1 with (inject_Z 1); rewrite <- Zle_Qle; lia).
  assert (H2 : inject_Z (Z.of_nat (count white canvas)) <= inject_Z n)
    by (rewrite <- Zle_Qle; lia).
  rewrite Hz.
  set (T := inject_Z (imageWidth * imageHeight)) in *.
  set (c := inject_Z (Z.of_nat (count white canvas))) in *.
  assert (HTne : ~ T == 0) by (intros E; rewrite E in HT; discriminate).
  split.
  - apply Qle_shift_div_l; [exact HT|].
    assert (E1 : (1 - inject_Z n / T) * T == T - inject_Z n) by (field; exact HTne).
    rewrite E1. lra.
  - apply Qle_shift_div_r; [exact HT|].
    assert (E1 : (1 - 1 / T) * T == T - 1) by (field; exact HTne).
    rewrite E1. lra.
Qed.

Lemma random_walk_mask_ratio_bounds_witness :
  outcome (get_random_walk_mask 3 2 (Some 4%Z)) (world_of [] [0; 0; 0; 1 # 2] [])
    (fun mask _ =>
       exists q,
         get_masked_ratio mask = Finite q
         /\ 1 - inject_Z (default (3 * 2)%Z (Some 4%Z)) / inject_Z (3 * 2) <= q
         /\ q <= 1 - 1 / inject_Z (3 * 2))
    (fun _ _ => False).
Proof.
  apply (random_walk_mask_ratio_bounds 3 2 (Some 4%Z)
           (world_of [] [0; 0; 0; 1 # 2] [])); reflexivity.
Defined.

(** X12: a canvas without a row or without a column is refused with
    [ValueError]: a negative size by [np.zeros], before any draw; no row by
    the draw of the start row, [random.randint(0, -1)], before any draw;
    no column, on a canvas with rows, by the draw of the start column,
    after exactly one draw, the one of the row. *)
Theorem random_walk_empty_canvas_raises (imageWidth imageHeight : Z)
    (length : option Z) (w : world) :
  (imageWidth <= 0)%Z \/ (imageHeight <= 0)%Z ->
  exists w',
    get_random_walk_mask imageWidth imageHeight length w = (Raise ValueError, w')
    /\ (w' = w \/ w' = py_skips 1 w)
    /\ ((imageWidth < 0)%Z \/ (imageHeight <= 0)%Z -> w' = w)
    /\ (imageWidth = 0%Z -> (0 < imageHeight)%Z -> w' = py_skips 1 w).
Proof.
  intros Hsize. unfold get_random_walk_mask, bind, np_zeros, random_randint.
  destruct (Z.ltb_spec imageHeight 0) as [Hh|Hh]; cbn [orb].
  { exists w. split; [reflexivity|]. split; [auto|]. split; [auto|]. lia. }
  destruct (Z.ltb_spec imageWidth 0) as [Hw|Hw]; cbn [ret raise].
  { exists w. split; [reflexivity|]. split; [auto|]. split; [auto|]. lia. }
  destruct (Z.leb_spec 0 (imageHeight - 1)) as [Hh'|Hh'].
  - cbn [py_next ret]. destruct (Z.leb_spec 0 (imageWidth - 1)); [lia|].
    eexists. split; [reflexivity|]. split; [right; reflexivity|].
    split; [intros [|]; lia | reflexivity].
  - exists w. split; [reflexivity|]. split; [auto|]. split; [auto|]. lia.
Qed.

Lemma random_walk_empty_canvas_raises_witness :
  exists w',
    get_random_walk_mask 0 180 None (world_of [] [1 # 2] [])
    = (Raise ValueError, w')
    /\ (w' = world_of [] [1 # 2] [] \/ w' = py_skips 1 (world_of [] [1 # 2] []))
    /\ ((0 < 0)%Z \/ (180 <= 0)%Z -> w' = world_of [] [1 # 2] [])
    /\ (0%Z = 0%Z -> (0 < 180)%Z -> w' = py_skips 1 (world_of [] [1 # 2] [])).
Proof.
  apply (random_walk_empty_canvas_raises 0 180 None (world_of [] [1 # 2] [])).
  left. lia.
Defined.

(** ** An animation step that cannot jitter *)

Lemma py_slice_to_head {A} (l : list A) (k : Z) :
  (1 <= k)%Z -> l <> [] -> exists x rest, py_slice_to l k = x :: rest /\ x ∈ l.
Proof.
  intros Hk Hl. unfold py_slice_to. destruct (Z.leb_spec 0 k); [|lia].
  destruct l as [|x l]; [congruence|].
  destruct (Z.to_nat k) as [|m] eqn:E; [lia|].
  exists x, (take m l). split; [reflexivity | left].
Qed.

Section StepRefused.
Variables np_cos np_sin : Q -> Q.

(** X13: with [maxPiontMove <= 0] an animation step that selects at
    least one point ([int(len(Xs) * nMovePointRatio) >= 1]) raises
    [ValueError]: the range of the jitter,
    [np.random.randint(-maxPiontMove, maxPiontMove)], is empty.  The
    arrays [Xs] and [Ys] are as they were. *)
Theorem step_with_empty_jitter_range_raises (Xs Ys : loc)
    (imageWidth imageHeight : Z) (lineVelocity : Velocity) (nMovePointRatio : Q)
    (maxPiontMove : Z) (maxLineAcceleration : Q * Q) (boarderGap : Z)
    (maxInitSpeed : Q) (w : world) (xs ys : list Q) :
  heap w !! Xs = Some xs -> heap w !! Ys = Some ys -> length ys = length xs ->
  0 <= fst maxLineAcceleration -> 0 <= snd maxLineAcceleration ->
  (maxPiontMove <= 0)%Z ->
  (1 <= py_int (inject_Z (Z.of_nat (length xs)) * nMovePointRatio))%Z ->
  xs <> [] ->
  outcome (random_move_control_points np_cos np_sin Xs Ys imageWidth imageHeight
             lineVelocity nMovePointRatio maxPiontMove maxLineAcceleration
             boarderGap maxInitSpeed) w
    (fun _ _ => False)
    (fun e w' =>
       e = ValueError /\ heap w' !! Xs = Some xs /\ heap w' !! Ys = Some ys).
Proof.
  intros HXs HYs Hlen Hds Hda Hm Hk Hne.
  set (h0 := heap w).
  unfold random_move_control_points. destruct lineVelocity as [speed angle].
  apply outcome_bind. eapply wp_ndarray_copy; [exact HXs|]. intros w1 H1.
  apply outcome_bind. eapply wp_ndarray_copy.
  { rewrite H1. apply lookup_app_l_Some. exact HYs. }
  intros w2 H2. rewrite H1 in H2.
  assert (Hb : length (heap w1) = S (length h0)).
  { rewrite H1, length_app. cbn [length]. fold h0. lia. }
  rewrite Hb. fold h0 in H2 |- *.
  pose proof (holds_two_new h0 xs ys w2 H2) as Hh2.
  assert (Hab : length h0 <> S (length h0)) by lia.
  assert (Ha : (length h0 <= length h0)%nat) by lia.
  assert (Hb' : (length h0 <= S (length h0))%nat) by lia.
  apply outcome_bind. eapply wp_ndarray_iadd; [exact (proj1 (proj2 Hh2))|].
  intros w3 H3.
  pose proof (holds_write_a _ _ _ _ _ _ _ _ Hh2 Hab Ha H3) as Hh3.
  apply outcome_bind. eapply wp_ndarray_iadd; [exact (proj2 (proj2 Hh3))|].
  intros w4 H4.
  pose proof (holds_write_b _ _ _ _ _ _ _ _ Hh3 Hab Hb' H4) as Hh4.
  apply outcome_bind. apply wp_random_accelerate_guassian; [exact Hds | exact Hda |].
  intros v w5 H5.
  pose proof (holds_stable _ _ _ _ _ _ _ Hh4 H5) as Hh5.
  apply outcome_bind. eapply wp_ndarray_len.
  { rewrite (keeps_lookup h0 w5 Xs (proj1 Hh5)); [exact HXs|].
    eapply lookup_lt_Some, HXs. }
  apply outcome_bind. apply wp_np_random_shuffle_Permutation.
  intros perm w6 Hperm H6.
  pose proof (holds_stable _ _ _ _ _ _ _ Hh5 H6) as Hh6.
  cbv zeta.
  assert (Hperm_ne : perm <> []).
  { intros ->. apply Permutation_nil_l in Hperm.
    destruct xs; [congruence | discriminate]. }
  destruct (py_slice_to_head perm _ Hk Hperm_ne) as (i & rest & -> & Hi).
  rewrite Hperm in Hi. apply elem_of_seq in Hi.
  destruct (lookup_lt_is_Some_2 (map (fun x => x + inject_Z (py_int (speed * np_cos angle))) xs) i)
    as [x Hx]; [rewrite length_map; lia|].
  apply outcome_bind. cbn [foldM]. apply outcome_bind.
  unfold move_point. apply outcome_bind.
  unfold ndarray_iadd_item at 1. apply outcome_bind.
  eapply wp_ndarray_getitem; [exact (proj1 (proj2 Hh6)) | exact Hx |].
  apply outcome_bind. apply outcome_bind. unfold np_random_randint.
  destruct (Z.ltb_spec (- maxPiontMove) maxPiontMove); [lia|].
  apply outcome_raise. split; [reflexivity|].
  destruct Hh6 as (Hkeep & _).
  split; (rewrite (keeps_lookup h0 w6 _ Hkeep);
          [assumption | eapply lookup_lt_Some; eassumption]).
Qed.
End StepRefused.

Lemma step_with_empty_jitter_range_raises_witness :
  outcome (random_move_control_points cos_at_0 sin_at_0 0 1 424 240 (5, 0) (1 # 2)
             0 (5, 1 # 2) 50 10) two_point_world
    (fun _ _ => False)
    (fun e w' =>
       e = ValueError /\ heap w' !! 0%nat = Some [370; 200]
       /\ heap w' !! 1%nat = Some [100; 100]).
Proof.
  apply (step_with_empty_jitter_range_raises cos_at_0 sin_at_0 0 1 424 240 (5, 0)
           (1 # 2) 0 (5, 1 # 2) 50 10 two_point_world [370; 200] [100; 100]);
    [reflexivity | reflexivity | reflexivity | discriminate | discriminate
    | lia | vm_compute; discriminate | discriminate].
Defined.

(** ** Normal draws with a negative scale *)

(** X14: with ['guassian'] a negative bound is refused by
    [np.random.normal] with [ValueError]: by [get_random_velocity] and by
    the draw of the speed in [random_accelerate] before any draw is made,
    by the draw of the angle in [random_accelerate] after the one of the
    speed. *)
Theorem gaussian_negative_scale_raises (scale : Q) (w : world) :
  scale < 0 ->
  get_random_velocity scale "guassian" w = (Raise ValueError, w)
  /\ (forall v d_angle,
         random_accelerate v (scale, d_angle) "guassian" w = (Raise ValueError, w))
  /\ (forall v d_speed,
         0 <= d_speed ->
         random_accelerate v (d_speed, scale) "guassian" w
         = (Raise ValueError, np_skip w)).
Proof.
  intros Hneg.
  assert (Hhalf : scale / 2 < 0) by (apply half_negative, Hneg).
  split; [|split].
  - unfold get_random_velocity, bind. cbn [String.eqb Ascii.eqb Bool.eqb].
    rewrite np_random_normal_negative by exact Hhalf. reflexivity.
  - intros [speed angle] d_angle. unfold random_accelerate, bind.
    cbn [String.eqb Ascii.eqb Bool.eqb].
    rewrite np_random_normal_negative by exact Hhalf. reflexivity.
  - intros [speed angle] d_speed Hd. unfold random_accelerate, bind.
    cbn [String.eqb Ascii.eqb Bool.eqb].
    rewrite np_random_normal_eq by (apply half_nonneg, Hd).
    rewrite np_random_normal_negative by exact Hhalf. reflexivity.
Qed.

Lemma gaussian_negative_scale_raises_witness :
  get_random_velocity (-1) "guassian" (world_of [] [] [])
  = (Raise ValueError, world_of [] [] [])
  /\ (forall v d_angle,
         random_accelerate v (-1, d_angle) "guassian" (world_of [] [] [])
         = (Raise ValueError, world_of [] [] []))
  /\ (forall v d_speed,
         0 <= d_speed ->
         random_accelerate v (d_speed, -1) "guassian" (world_of [] [] [])
         = (Raise ValueError, np_skip (world_of [] [] []))).
Proof.
  apply (gaussian_negative_scale_raises (-1) (world_of [] [] [])). reflexivity.
Defined.

(** ** Stacks of any length and size *)

Lemma hd_lookup {A} (l : list A) (x d : A) : l !! 0%nat = Some x -> hd d l = x.
Proof. destruct l; [discriminate|]. intros [= ->]. reflexivity. Qed.

Lemma cell_hd {A} (a : list (list (list A))) (l : list A) :
  cell a 0 0 = Some l -> hd [] (hd [] a) = l.
Proof.
  unfold cell. destruct (a !! 0%nat) as [row|] eqn:Hrow; [|discriminate].
  intros Hl. rewrite (hd_lookup a row [] Hrow). apply hd_lookup, Hl.
Qed.

Lemma grid_cell {A} (h w : nat) (a : list (list A)) (i j : nat) :
  grid h w a -> (i < h)%nat -> (j < w)%nat -> exists x, cell a i j = Some x.
Proof.
  intros [Hh Hw] Hi Hj. unfold cell.
  destruct (lookup_lt_is_Some_2 a i) as [row Hrow]; [lia|]. rewrite Hrow.
  apply lookup_lt_is_Some_2.
  rewrite (proj1 (Forall_lookup _ _) Hw _ _ Hrow). exact Hj.
Qed.

Lemma grid3_cell {A} (h w c : nat) (a : list (list (list A))) (i j : nat) :
  grid3 h w c a -> (i < h)%nat -> (j < w)%nat ->
  exists p, cell a i j = Some p /\ length p = c.
Proof.
  intros [Hgrid Hc] Hi Hj. destruct (grid_cell h w a i j Hgrid Hi Hj) as [p Hp].
  exists p. split; [exact Hp|]. unfold cell in Hp.
  destruct (a !! i) as [row|] eqn:Hrow; [|discriminate].
  pose proof (proj1 (Forall_lookup _ _) Hc _ _ Hrow) as Hr.
  exact (proj1 (Forall_lookup _ _) Hr _ _ Hp).
Qed.

Lemma shape3_grid3 {A} (h w c : nat) (a : list (list (list A))) :
  (0 < h)%nat -> (0 < w)%nat -> grid3 h w c a -> shape3 a = (h, w, c).
Proof.
  intros Hh Hw Ha. destruct (grid3_cell h w c a 0 0 Ha Hh Hw) as (p & Hp & Hlen).
  unfold shape3. rewrite (cell_hd a p Hp), Hlen.
  destruct Ha as [[Hlen_a Hrows] _]. rewrite Hlen_a.
  unfold cell in Hp. destruct (a !! 0%nat) as [row|] eqn:Hrow; [|discriminate].
  rewrite (hd_lookup a row [] Hrow).
  rewrite (proj1 (Forall_lookup _ _) Hrows _ _ Hrow). reflexivity.
Qed.

Lemma shape3_eqb_refl (s : nat * nat * nat) : shape3_eqb s s = true.
Proof. destruct s as [[a b] c]. unfold shape3_eqb. rewrite !Nat.eqb_refl. reflexivity. Qed.

Lemma np_stack_axis2_ok (h w c : nat) (a : array3) (rest : list array3) :
  (0 < h)%nat -> (0 < w)%nat -> Forall (grid3 h w c) (a :: rest) ->
  np_stack_axis2 (a :: rest) = Ok (stack_axis2 (a :: rest)).
Proof.
  intros Hh Hw Hall. unfold np_stack_axis2.
  assert (Hsame : forallb (fun b => shape3_eqb (shape3 b) (shape3 a)) (a :: rest) = true).
  { apply forallb_forall. intros b Hb.
    apply list_elem_of_In in Hb.
    rewrite (shape3_grid3 h w c b Hh Hw), (shape3_grid3 h w c a Hh Hw).
    - apply shape3_eqb_refl.
    - exact (proj1 (Forall_forall _ _) Hall a ltac:(left)).
    - exact (proj1 (Forall_forall _ _) Hall b Hb). }
  rewrite Hsame. reflexivity.
Qed.

Lemma expand_dims2_grid3 {A} (h w : nat) (px : list (list A)) :
  grid h w px -> grid3 h w 1 (expand_dims2 px).
Proof.
  intros [Hh Hw]. unfold expand_dims2. split; [split|].
  - rewrite length_map. exact Hh.
  - apply Forall_map. eapply Forall_impl; [exact Hw|].
    intros row Hrow. cbn beta. rewrite length_map. exact Hrow.
  - apply Forall_map, Forall_true. intros row. apply Forall_map, Forall_true.
    reflexivity.
Qed.

Lemma cell_expand_dims2 {A} (px : list (list A)) (i j : nat) :
  cell (expand_dims2 px) i j = (fun x => [x]) <$> cell px i j.
Proof. apply cell_map. Qed.

Lemma cell_zip_with {A B C} (f : A -> B -> C) (a : list (list A)) (b : list (list B))
    (i j : nat) :
  cell (zip_with (zip_with f) a b) i j
  = match cell a i j, cell b i j with
    | Some x, Some y => Some (f x y)
    | _, _ => None
    end.
Proof.
  unfold cell. rewrite lookup_zip_with.
  destruct (a !! i) as [ra|]; cbn; [|reflexivity].
  destruct (b !! i) as [rb|]; cbn.
  - rewrite lookup_zip_with.
    destruct (ra !! j); cbn; [|reflexivity]. destruct (rb !! j); reflexivity.
  - destruct (ra !! j); reflexivity.
Qed.

Lemma zip_with_grid {A B C} (f : A -> B -> C) (h w : nat) (a : list (list A))
    (b : list (list B)) :
  grid h w a -> grid h w b -> grid h w (zip_with (zip_with f) a b).
Proof.
  intros [Ha Hra] [Hb Hrb]. split.
  - rewrite length_zip_with. lia.
  - apply Forall_lookup. intros i row Hrow.
    rewrite lookup_zip_with in Hrow.
    destruct (a !! i) as [ra|] eqn:Hai; [|discriminate].
    destruct (b !! i) as [rb|] eqn:Hbi; [|discriminate].
    cbn in Hrow. injection Hrow as <-. rewrite length_zip_with.
    rewrite (proj1 (Forall_lookup _ _) Hra _ _ Hai).
    rewrite (proj1 (Forall_lookup _ _) Hrb _ _ Hbi). lia.
Qed.

(** The entries of a stack: at every place of the frames, the list of
    what the frames have there, in the order of the frames. *)
Lemma stack_axis2_cells {A} (h w : nat) (arrays : list (list (list A))) :
  arrays <> [] -> Forall (grid h w) arrays ->
  grid h w (stack_axis2 arrays)
  /\ forall i j,
       (i < h)%nat -> (j < w)%nat ->
       exists l,
         cell (stack_axis2 arrays) i j = Some l
         /\ length l = length arrays
         /\ forall t a, arrays !! t = Some a -> l !! t = cell a i j.
Proof.
  induction arrays as [|a rest IH]; [congruence|]. intros _ Hall.
  inversion Hall as [|? ? Ha Hrest]; subst.
  destruct rest as [|b rest].
  - cbn [stack_axis2]. split; [apply expand_dims2_grid3, Ha|].
    intros i j Hi Hj. destruct (grid_cell h w a i j Ha Hi Hj) as [x Hx].
    exists [x]. rewrite cell_expand_dims2, Hx. split; [reflexivity|].
    split; [reflexivity|].
    intros [|t] a' Ht; [|discriminate]. injection Ht as <-. cbn. congruence.
  - destruct (IH ltac:(discriminate) Hrest) as [Hgrid Hcells].
    change (stack_axis2 (a :: b :: rest))
      with (zip_with (zip_with cons) a (stack_axis2 (b :: rest))).
    split; [apply zip_with_grid; assumption|].
    intros i j Hi Hj. destruct (grid_cell h w a i j Ha Hi Hj) as [x Hx].
    destruct (Hcells i j Hi Hj) as (l & Hl & Hlen & Hat).
    exists (x :: l). rewrite cell_zip_with, Hx, Hl. split; [reflexivity|].
    split; [cbn [length]; rewrite Hlen; reflexivity|].
    intros [|t] a' Ht.
    + injection Ht as <-. cbn. congruence.
    + apply (Hat t a' Ht).
Qed.

Lemma shape4_stack {A} (h w c : nat) (arrays : list (list (list (list A)))) :
  (0 < h)%nat -> (0 < w)%nat -> arrays <> [] -> Forall (grid3 h w c) arrays ->
  shape4 (stack_axis2 arrays) = (h, w, length arrays, c).
Proof.
  intros Hh Hw Hne Hall.
  assert (Hgrids : Forall (grid h w) arrays)
    by (eapply Forall_impl; [exact Hall | intros a Ha; apply Ha]).
  destruct (stack_axis2_cells h w arrays Hne Hgrids) as [[Hlen Hrows] Hcells].
  destruct (Hcells 0%nat 0%nat Hh Hw) as (l & Hl & Hlen_l & Hat).
  destruct arrays as [|a rest]; [congruence|].
  pose proof (Forall_inv Hall) as Ha.
  destruct (grid3_cell h w c a 0 0 Ha Hh Hw) as (p & Hp & Hlen_p).
  pose proof (Hat 0%nat a eq_refl) as H0. rewrite Hp in H0.
  unfold shape4. rewrite (cell_hd _ l Hl), (hd_lookup l p [] H0), Hlen, Hlen_l, Hlen_p.
  unfold cell in Hl.
  destruct (stack_axis2 (a :: rest) !! 0%nat) as [row|] eqn:Hrow; [|discriminate].
  rewrite (hd_lookup _ row [] Hrow).
  rewrite (proj1 (Forall_lookup _ _) Hrows _ _ Hrow). reflexivity.
Qed.

Lemma mapR_Ok {A B} (f : A -> result B) (g : A -> B) (l : list A) :
  Forall (fun x => f x = Ok (g x)) l -> mapR f l = Ok (map g l).
Proof.
  induction 1 as [|x l Hx _ IH]; [reflexivity|].
  cbn [mapR map]. rewrite Hx, IH. reflexivity.
Qed.

Lemma mapR_Raise {A B} (f : A -> result B) (l : list A) (e : exn) :
  mapR f l = Raise e -> exists x, x ∈ l /\ f x = Raise e.
Proof.
  induction l as [|x l IH]; [discriminate|]. cbn [mapR].
  destruct (f x) as [y|e'] eqn:Hx.
  - destruct (mapR f l) as [ys|e'']; [discriminate|]. intros [= ->].
    destruct (IH eq_refl) as (x' & Hin & Hx'). exists x'. split; [right; exact Hin | exact Hx'].
  - intros [= ->]. exists x. split; [left | exact Hx].
Qed.

Section StackAny.
Variable convert_L_colour : Image -> array2.

(** What the 'L' branch stacks: one array of shape [(h, w, 1)] for
    every frame. *)
Lemma single_channel_arrays (h w : nat) (bilevel : bool) (group : list Image) :
  Forall (single_channel_frame h w) group ->
  exists arrays : list (list (list Z)),
    mapR expand_frame
      (if bilevel then map (Image_convert_L convert_L_colour) group else group)
    = Ok (map expand_dims2 arrays)
    /\ length arrays = length group
    /\ Forall (grid h w) arrays
    /\ forall t img,
         group !! t = Some img ->
         exists px, arrays !! t = Some px
                    /\ forall i j, cell px i j = grey_level bilevel img i j.
Proof.
  induction 1 as [|img group Himg _ (arrays & Hmap & Hlen & Hgrid & Hat)].
  - exists []. destruct bilevel; (split; [reflexivity|]); (split; [reflexivity|]);
      (split; [constructor|]); intros t img Ht; discriminate.
  - set (px := match img with
               | Image1 px =>
                   map (map (fun b : bool =>
                               if b then (if bilevel then 255 else 1) else 0)%Z) px
               | ImageL px => px
               | _ => []
               end).
    exists (px :: arrays).
    assert (Hpx : grid h w px /\ forall i j, cell px i j = grey_level bilevel img i j).
    { destruct img as [bits|grey| |]; try contradiction; cbn [single_channel_frame] in Himg.
      - split; [apply grid_map, Himg|]. intros i j. apply cell_map.
      - split; [exact Himg | reflexivity]. }
    split.
    { destruct bilevel; cbn [map mapR] in Hmap |- *; rewrite Hmap;
        destruct img as [bits|grey| |]; try contradiction; reflexivity. }
    split; [cbn [length]; rewrite Hlen; reflexivity|].
    split; [constructor; [apply Hpx | exact Hgrid]|].
    intros [|t] img' Ht.
    + injection Ht as <-. exists px. split; [reflexivity | apply Hpx].
    + apply (Hat t img' Ht).
Qed.

(** The array that [Stack] makes of single-band frames of one size. *)
Lemma Stack_single_channel_cells (roll : bool) (first : Image)
    (rest : list Image) (h w : nat) :
  (0 < h)%nat -> (0 < w)%nat ->
  Forall (single_channel_frame h w) (first :: rest) ->
  exists a,
    Stack_call convert_L_colour roll (first :: rest) = Ok a
    /\ shape4 a = (h, w, S (length rest), 1%nat)
    /\ forall t img i j,
         (first :: rest) !! t = Some img -> (i < h)%nat -> (j < w)%nat ->
         exists v,
           grey_level (Image_mode first =? "1")%string img i j = Some v
           /\ cell4 a i j t 0 = Some v.
Proof.
  intros Hh Hw Hall.
  set (bilevel := (Image_mode first =? "1")%string).
  destruct (single_channel_arrays h w bilevel (first :: rest) Hall)
    as (arrays & Hmap & Hlen & Hgrid & Hat).
  assert (Hcall : Stack_call convert_L_colour roll (first :: rest)
                  = np_stack_axis2 (map expand_dims2 arrays)).
  { unfold Stack_call, stack_frames. fold bilevel.
    pose proof (Forall_inv Hall) as Hfirst.
    destruct first as [bits|grey| |]; try contradiction;
      cbn in bilevel; subst bilevel; cbv iota beta; cbn [String.eqb Ascii.eqb Bool.eqb];
      rewrite Hmap; reflexivity. }
  destruct arrays as [|px arrays]; [discriminate|].
  assert (Hgrid3 : Forall (grid3 h w 1) (map expand_dims2 (px :: arrays))).
  { apply Forall_map. eapply Forall_impl; [exact Hgrid|].
    intros a Ha. apply expand_dims2_grid3, Ha. }
  exists (stack_axis2 (map expand_dims2 (px :: arrays))).
  split; [rewrite Hcall; apply (np_stack_axis2_ok h w 1); assumption|].
  split.
  { rewrite (shape4_stack h w 1) by (try assumption; discriminate).
    rewrite length_map, Hlen. reflexivity. }
  intros t img i j Ht Hi Hj.
  destruct (Hat t img Ht) as (a & Ha & Hcell).
  destruct (stack_axis2_cells h w (map expand_dims2 (px :: arrays)))
    as [_ Hcells]; [discriminate | |].
  { eapply Forall_impl; [exact Hgrid3 | intros ? H; apply H]. }
  destruct (Hcells i j Hi Hj) as (l & Hl & _ & Hlt).
  pose proof (proj1 (Forall_lookup _ _) Hgrid _ _ Ha) as Hgrid_a.
  destruct (grid_cell h w a i j Hgrid_a Hi Hj) as [v Hv].
  exists v. split; [rewrite <- Hcell; exact Hv|].
  unfold cell4. rewrite Hl.
  specialize (Hlt t (expand_dims2 a)).
  rewrite list_lookup_fmap, Ha in Hlt. specialize (Hlt eq_refl).
  rewrite cell_expand_dims2, Hv in Hlt.
  unfold cell. rewrite Hlt. reflexivity.
Qed.

(** X15: a group of single-band frames of one size [h x w], of the
    modes ['1'] and ['L'] in any order, stacks to an array of shape
    [(h, w, T, 1)] for the [T] frames of the group, with
    [a[i][j][t][0]] the pixel [(i, j)] of the frame [t]: the time axis
    is the third one and the channel axis the last.  A white pixel of a
    frame of mode ['1'] is 255 when the first frame of the group has the
    mode ['1'], and 1 when it has the mode ['L']. *)
Theorem Stack_single_channel_entries (roll : bool) (first : Image)
    (rest : list Image) (h w : nat) :
  (0 < h)%nat -> (0 < w)%nat ->
  Forall (single_channel_frame h w) (first :: rest) ->
  exists a,
    Stack_call convert_L_colour roll (first :: rest) = Ok a
    /\ shape4 a = (h, w, S (length rest), 1%nat)
    /\ forall t img i j,
         (first :: rest) !! t = Some img -> (i < h)%nat -> (j < w)%nat ->
         cell4 a i j t 0
         = grey_level (Image_mode first =? "1")%string img i j.
Proof.
  intros Hh Hw Hall.
  destruct (Stack_single_channel_cells roll first rest h w Hh Hw Hall)
    as (a & Hcall & Hshape & Hcells).
  exists a. split; [exact Hcall|]. split; [exact Hshape|].
  intros t img i j Ht Hi Hj.
  destruct (Hcells t img i j Ht Hi Hj) as (v & Hv & Hc).
  rewrite Hv, Hc. reflexivity.
Qed.
End StackAny.

Lemma Stack_single_channel_entries_witness :
  exists a,
    Stack_call (fun _ => []) false
      [ImageL [[7; 8]]; Image1 [[true; false]]; ImageL [[1; 2]]]%Z = Ok a
    /\ shape4 a = (1, 2, 3, 1)%nat
    /\ forall t img i j,
         [ImageL [[7; 8]]; Image1 [[true; false]]; ImageL [[1; 2]]]%Z !! t = Some img ->
         (i < 1)%nat -> (j < 2)%nat ->
         cell4 a i j t 0
         = grey_level (Image_mode (ImageL [[7; 8]]%Z) =? "1")%string img i j.
Proof.
  apply (Stack_single_channel_entries (fun _ => []) false (ImageL [[7; 8]]%Z)
           [Image1 [[true; false]]; ImageL [[1; 2]]%Z] 1 2); [lia | lia |].
  repeat constructor.
Defined.

Lemma cell_reverse_axis2 {A} (px : list (list (list A))) (i j : nat) :
  cell (reverse_axis2 px) i j = @rev A <$> cell px i j.
Proof. apply cell_map. Qed.

Lemma rev_lookup_3 {A} (p : list A) (c : nat) :
  length p = 3%nat -> (c < 3)%nat -> rev p !! c = p !! (2 - c)%nat.
Proof.
  destruct p as [|x [|y [|z [|? ?]]]]; try discriminate. intros _ Hc.
  destruct c as [|[|[|c]]]; try lia; reflexivity.
Qed.

Lemma reverse_axis2_grid3 {A} (h w c : nat) (px : list (list (list A))) :
  grid3 h w c px -> grid3 h w c (reverse_axis2 px).
Proof.
  intros [Hgrid Hc]. split; [apply grid_map, Hgrid|].
  unfold reverse_axis2. apply Forall_map. eapply Forall_impl; [exact Hc|].
  intros row Hrow. cbn beta. apply Forall_map. eapply Forall_impl; [exact Hrow|].
  intros p Hp. cbn beta. rewrite length_rev. exact Hp.
Qed.

Section StackColour.
Variable convert_L_colour : Image -> array2.

(** X16: on a group of RGB frames, whatever their number and their
    sizes, [roll=True] gives what [roll=False] gives with the last axis,
    the channels, reversed, and fails when [roll=False] fails, with the
    same exception. *)
Theorem Stack_roll_reverses_channels (frames : list (list (list (list Z)))) :
  Stack_call convert_L_colour true (map ImageRGB frames)
  = match Stack_call convert_L_colour false (map ImageRGB frames) with
    | Ok a => Ok (reverse_axis3 a)
    | Raise e => Raise e
    end.
Proof.
  destruct frames as [|px frames]; [reflexivity|].
  assert (Hroll : mapR roll_frame (map ImageRGB (px :: frames))
                  = Ok (map reverse_axis2 (px :: frames))).
  { rewrite (mapR_Ok roll_frame (fun x => match x with
                                          | ImageRGB px => reverse_axis2 px
                                          | _ => []
                                          end)).
    - rewrite map_map. reflexivity.
    - apply Forall_map, Forall_true. reflexivity. }
  assert (Hplain : mapR plain_frame (map ImageRGB (px :: frames))
                   = Ok (px :: frames)).
  { rewrite (mapR_Ok plain_frame (fun x => match x with
                                           | ImageRGB px => px
                                           | _ => []
                                           end)).
    - rewrite map_map, map_id. reflexivity.
    - apply Forall_map, Forall_true. reflexivity. }
  unfold Stack_call, stack_frames.
  cbn [map Image_mode String.eqb Ascii.eqb Bool.eqb].
  cbn [map] in Hroll, Hplain. rewrite Hroll, Hplain.
  apply (np_stack_axis2_reversed (px :: frames)).
Qed.

(** X17: a group of [T] RGB frames of one size [h x w] stacks to an
    array of shape [(h, w, T, 3)]: [a[i][j][t][c]] is the band [c] of the
    pixel [(i, j)] of the frame [t], and the band [2 - c] with
    [roll=True]. *)
Theorem Stack_rgb_entries (roll : bool) (first : Image) (rest : list Image)
    (h w : nat) :
  (0 < h)%nat -> (0 < w)%nat ->
  Forall (rgb_frame h w) (first :: rest) ->
  exists a,
    Stack_call convert_L_colour roll (first :: rest) = Ok a
    /\ shape4 a = (h, w, S (length rest), 3%nat)
    /\ forall t img i j c p,
         (first :: rest) !! t = Some img -> bands img i j = Some p ->
         (c < 3)%nat ->
         cell4 a i j t c = p !! (if roll then 2 - c else c)%nat.
Proof.
  intros Hh Hw Hall.
  set (array_of := fun x => match x with ImageRGB px => px | _ => [] end).
  set (arrays := map (fun x => if roll then reverse_axis2 (array_of x) else array_of x)
                   (first :: rest)).
  assert (Hcall : Stack_call convert_L_colour roll (first :: rest)
                  = np_stack_axis2 arrays).
  { unfold Stack_call, stack_frames.
    pose proof (Forall_inv Hall) as Hfirst.
    destruct first as [| |px|]; try contradiction.
    cbn [Image_mode String.eqb Ascii.eqb Bool.eqb]. cbv iota beta.
    destruct roll.
    - rewrite (mapR_Ok roll_frame (fun x => reverse_axis2 (array_of x)));
        [reflexivity|].
      eapply Forall_impl; [exact Hall|].
      intros [| |px'|]; try contradiction; reflexivity.
    - rewrite (mapR_Ok plain_frame array_of); [reflexivity|].
      eapply Forall_impl; [exact Hall|].
      intros [| |px'|]; try contradiction; reflexivity. }
  assert (Hgrid3 : Forall (grid3 h w 3) arrays).
  { apply Forall_map. eapply Forall_impl; [exact Hall|].
    intros [| |px'|]; try contradiction. cbn [rgb_frame array_of]. intros Hpx.
    destruct roll; [apply reverse_axis2_grid3|]; exact Hpx. }
  assert (Hne : arrays <> []) by discriminate.
  exists (stack_axis2 arrays).
  split; [rewrite Hcall; apply (np_stack_axis2_ok h w 3); assumption|].
  split.
  { rewrite (shape4_stack h w 3) by assumption.
    unfold arrays. rewrite length_map. reflexivity. }
  intros t img i j c p Ht Hp Hc.
  destruct (stack_axis2_cells h w arrays Hne) as [_ Hcells].
  { eapply Forall_impl; [exact Hgrid3 | intros ? H; apply H]. }
  pose proof (proj1 (Forall_lookup _ _) Hall _ _ Ht) as Himg.
  destruct img as [| |px'|]; try contradiction. cbn [bands] in Hp.
  assert (Hi : (i < h)%nat /\ (j < w)%nat).
  { destruct Himg as [[Hlen Hrows] _]. unfold cell in Hp.
    destruct (px' !! i) as [row|] eqn:Hrow; [|discriminate].
    pose proof (lookup_lt_Some _ _ _ Hrow).
    pose proof (lookup_lt_Some _ _ _ Hp) as Hlt.
    rewrite (proj1 (Forall_lookup _ _) Hrows _ _ Hrow) in Hlt. lia. }
  destruct (Hcells i j (proj1 Hi) (proj2 Hi)) as (l & Hl & _ & Hlt).
  unfold cell4. rewrite Hl.
  specialize (Hlt t (if roll then reverse_axis2 px' else px')).
  unfold arrays in Hlt. rewrite list_lookup_fmap, Ht in Hlt.
  specialize (Hlt eq_refl).
  unfold cell at 1. rewrite Hlt.
  destruct roll.
  - rewrite cell_reverse_axis2, Hp. cbn [fmap option_fmap option_map].
    apply rev_lookup_3; [|exact Hc].
    destruct (grid3_cell h w 3 px' i j Himg (proj1 Hi) (proj2 Hi)) as (p' & Hp' & Hlen).
    congruence.
  - rewrite Hp. reflexivity.
Qed.

(** X18: [Stack] raises [NotImplementedError] exactly on a group that
    is not empty and whose first frame has a mode other than ['1'],
    ['L'] and ['RGB']; the frames after the first do not count. *)
Theorem Stack_not_implemented_iff (roll : bool) (img_group : list Image) :
  (exists msg,
      Stack_call convert_L_colour roll img_group = Raise (NotImplementedError msg))
  <-> exists m px rest, img_group = ImageOther m px :: rest.
Proof.
  assert (Hexpand : forall x msg, expand_frame x <> Raise (NotImplementedError msg))
    by (intros [] ?; discriminate).
  assert (Hroll : forall x msg, roll_frame x <> Raise (NotImplementedError msg))
    by (intros [] ?; discriminate).
  assert (Hplain : forall x msg, plain_frame x <> Raise (NotImplementedError msg))
    by (intros [] ?; discriminate).
  assert (Hstack : forall f l msg,
             (forall x msg, f x <> Raise (NotImplementedError msg)) ->
             stack_frames f l <> Raise (NotImplementedError msg)).
  { intros f l msg Hf. unfold stack_frames.
    destruct (mapR f l) as [arrays|e] eqn:Hmap.
    - unfold np_stack_axis2. destruct arrays as [|a arrays]; [discriminate|].
      destruct (forallb _ _); discriminate.
    - intros [= ->]. destruct (mapR_Raise f l _ Hmap) as (x & _ & Hx).
      exact (Hf x msg Hx). }
  split.
  - intros [msg Hraise]. destruct img_group as [|first rest]; [discriminate|].
    destruct first as [bits|grey|px|m px].
    + exfalso. exact (Hstack _ _ msg Hexpand Hraise).
    + exfalso. exact (Hstack _ _ msg Hexpand Hraise).
    + exfalso. cbn in Hraise. destruct roll.
      * exact (Hstack _ _ msg Hroll Hraise).
      * exact (Hstack _ _ msg Hplain Hraise).
    + eauto.
  - intros (m & px & rest & ->). destruct m; eexists; reflexivity.
Qed.
End StackColour.

Lemma Stack_rgb_entries_witness :
  exists a,
    Stack_call (fun _ => []) true
      [ImageRGB [[[1; 2; 3]]]; ImageRGB [[[4; 5; 6]]]]%Z = Ok a
    /\ shape4 a = (1, 1, 2, 3)%nat
    /\ forall t img i j c p,
         [ImageRGB [[[1; 2; 3]]]; ImageRGB [[[4; 5; 6]]]]%Z !! t = Some img ->
         bands img i j = Some p -> (c < 3)%nat ->
         cell4 a i j t c = p !! (if true then 2 - c else c)%nat.
Proof.
  apply (Stack_rgb_entries (fun _ => []) true (ImageRGB [[[1; 2; 3]]]%Z)
           [ImageRGB [[[4; 5; 6]]]%Z] 1 1); [lia | lia |].
  repeat constructor.
Defined.

(** ** The random horizontal flip *)

Lemma transpose_FLIP_LEFT_RIGHT_involutive (img : Image) :
  transpose_FLIP_LEFT_RIGHT (transpose_FLIP_LEFT_RIGHT img) = img.
Proof.
  assert (H : forall A (px : list (list A)), map (@rev A) (map (@rev A) px) = px).
  { intros A px. rewrite map_map. rewrite <- (map_id px) at 2.
    apply map_ext. intros row. apply rev_involutive. }
  destruct img; cbn [transpose_FLIP_LEFT_RIGHT]; rewrite H; reflexivity.
Qed.

Lemma random_random_eq (w : world) :
  random_random w = (Ok (py_draw w 0), py_skips 1 w).
Proof. reflexivity. Qed.

Lemma py_range_step2_lookup (n k i : nat) :
  py_range_step2 n !! k = Some i -> i = (2 * k)%nat /\ (i < n)%nat.
Proof.
  unfold py_range_step2. rewrite list_lookup_fmap.
  destruct (seq 0 (Nat.div2 (S n)) !! k) as [m|] eqn:Hm; [|discriminate].
  intros [= <-]. apply lookup_seq in Hm as [-> Hk].
  rewrite Nat.div2_div in Hk. split; [lia|].
  pose proof (Nat.div_mod_eq (S n) 2). pose proof (Nat.mod_upper_bound (S n) 2). lia.
Qed.

Lemma py_range_step2_length (n : nat) :
  length (py_range_step2 n) = Nat.div2 (S n).
Proof. unfold py_range_step2. rewrite length_map, length_seq. reflexivity. Qed.

Section FlipProperties.
Variable ImageOps_invert : Image -> result Image.

(** X19: without the flow inversion, the call makes one draw from the
    [random] module and returns the group mirrored when the draw is
    below 0.5, and the group itself otherwise.  Two calls in a row
    return the group as it was when their draws fall on the same side
    of 0.5, and the mirrored group when they do not: mirroring twice
    restores every frame. *)
Theorem flip_twice_restores (img_group : list Image) (is_flow is_flow' : bool)
    (w : world) :
  GroupRandomHorizontalFlip_call ImageOps_invert false img_group is_flow w
  = (Ok (if Qle_bool (1 # 2) (py_draw w 0)
         then img_group
         else map transpose_FLIP_LEFT_RIGHT img_group),
     py_skips 1 w)
  /\ (flipped <- GroupRandomHorizontalFlip_call ImageOps_invert false img_group
                   is_flow ;;
      GroupRandomHorizontalFlip_call ImageOps_invert false flipped is_flow') w
     = (Ok (if Bool.eqb (Qle_bool (1 # 2) (py_draw w 0))
                        (Qle_bool (1 # 2) (py_draw w 1))
            then img_group
            else map transpose_FLIP_LEFT_RIGHT img_group),
        py_skips 2 w).
Proof.
  split.
  { unfold GroupRandomHorizontalFlip_call, bind. rewrite random_random_eq.
    destruct (Qle_bool (1 # 2) (py_draw w 0)); reflexivity. }
  unfold GroupRandomHorizontalFlip_call, bind at 1.
  unfold bind at 1. rewrite random_random_eq.
  assert (Hsecond : forall g,
             (v <- random_random ;;
              if negb (Qle_bool (1 # 2) v)
              then ret (map transpose_FLIP_LEFT_RIGHT g) else ret g) (py_skips 1 w)
             = (Ok (if negb (Qle_bool (1 # 2) (py_draw w 1))
                    then map transpose_FLIP_LEFT_RIGHT g else g), py_skips 2 w)).
  { intros g. unfold bind. rewrite random_random_eq.
    change (py_draw (py_skips 1 w) 0) with (py_draw w 1).
    change (py_skips 1 (py_skips 1 w)) with (py_skips 2 w).
    destruct (Qle_bool (1 # 2) (py_draw w 1)); reflexivity. }
  destruct (Qle_bool (1 # 2) (py_draw w 0)); cbn [negb ret];
    rewrite Hsecond; destruct (Qle_bool (1 # 2) (py_draw w 1)); cbn [negb Bool.eqb];
    try reflexivity.
  f_equal. f_equal. rewrite map_map. rewrite <- (map_id img_group) at 2.
  apply map_ext, transpose_FLIP_LEFT_RIGHT_involutive.
Qed.

(** X20: with the flow inversion and a draw below 0.5, the call returns
    a group of the same length: the frames at the odd places are
    mirrored, the frames at the even places are mirrored and then
    inverted.  It raises what [ImageOps.invert] raises on a mirrored
    frame of an even place.  One draw is made in both cases. *)
Theorem flip_flow_inverts_even_frames (img_group : list Image) (is_flow : bool)
    (w : world) :
  py_draw w 0 < 1 # 2 ->
  outcome (GroupRandomHorizontalFlip_call ImageOps_invert true img_group is_flow) w
    (fun out w' =>
       w' = py_skips 1 w /\ length out = length img_group
       /\ forall i img,
            img_group !! i = Some img ->
            exists o,
              out !! i = Some o
              /\ if Nat.even i
                 then ImageOps_invert (transpose_FLIP_LEFT_RIGHT img) = Ok o
                 else o = transpose_FLIP_LEFT_RIGHT img)
    (fun e w' =>
       w' = py_skips 1 w
       /\ exists i img,
            Nat.even i = true /\ img_group !! i = Some img
            /\ ImageOps_invert (transpose_FLIP_LEFT_RIGHT img) = Raise e).
Proof.
  intros Hv. unfold GroupRandomHorizontalFlip_call.
  apply outcome_bind. eapply outcome_eq; [apply random_random_eq|].
  cbv beta iota. rewrite (Qle_bool_false _ _ Hv). cbn [negb]. cbv zeta.
  set (flipped := map transpose_FLIP_LEFT_RIGHT img_group).
  set (E := fun (e : exn) (w' : world) =>
              w' = py_skips 1 w
              /\ exists i img,
                   Nat.even i = true /\ img_group !! i = Some img
                   /\ ImageOps_invert (transpose_FLIP_LEFT_RIGHT img) = Raise e).
  eapply outcome_mono;
    [apply (outcome_foldM _ (fun k (acc : list Image) w' =>
       w' = py_skips 1 w /\ length acc = length img_group
       /\ forall i img,
            img_group !! i = Some img ->
            exists o,
              acc !! i = Some o
              /\ if Nat.even i && (i <? 2 * k)%nat
                 then ImageOps_invert (transpose_FLIP_LEFT_RIGHT img) = Ok o
                 else o = transpose_FLIP_LEFT_RIGHT img) E) | | auto].
  - intros k i acc w' Hi (-> & Hlen & Hacc).
    apply py_range_step2_lookup in Hi as [-> Hi].
    unfold flipped in Hi. rewrite length_map in Hi.
    destruct (lookup_lt_is_Some_2 img_group (2 * k)) as [img Himg]; [exact Hi|].
    destruct (Hacc _ _ Himg) as (o & Ho & Hcase).
    rewrite (proj2 (Nat.ltb_ge _ _)) in Hcase by lia.
    rewrite andb_false_r in Hcase. subst o.
    unfold invert_at. rewrite Ho. apply outcome_bind. unfold of_result, outcome at 1.
    destruct (ImageOps_invert (transpose_FLIP_LEFT_RIGHT img)) as [inverted|e] eqn:Hinv.
    + apply outcome_ret. split; [reflexivity|].
      split; [rewrite length_insert; exact Hlen|].
      intros i img' Himg'. destruct (decide (i = 2 * k)%nat) as [->|Hne].
      * rewrite Himg in Himg'. injection Himg' as <-.
        exists inverted. rewrite list_lookup_insert_eq by lia.
        split; [reflexivity|].
        rewrite Nat.even_mul. cbn [Nat.even orb].
        rewrite (proj2 (Nat.ltb_lt _ _)) by lia. exact Hinv.
      * destruct (Hacc _ _ Himg') as (o & Ho' & Hcase').
        exists o. rewrite list_lookup_insert_ne by auto. split; [exact Ho'|].
        destruct (Nat.even i) eqn:Heven; cbn [andb] in Hcase' |- *; [|exact Hcase'].
        destruct (Nat.ltb_spec i (2 * k)) as [Hlt|Hge].
        -- rewrite (proj2 (Nat.ltb_lt _ _)) by lia. exact Hcase'.
        -- apply Nat.even_spec in Heven as [m ->].
           rewrite (proj2 (Nat.ltb_ge _ _)) by lia. exact Hcase'.
    + split; [reflexivity|]. exists (2 * k)%nat, img.
      split; [rewrite Nat.even_mul; reflexivity|]. split; [exact Himg | exact Hinv].
  - split; [reflexivity|]. split; [apply length_map|].
    intros i img Himg. exists (transpose_FLIP_LEFT_RIGHT img).
    unfold flipped. rewrite list_lookup_fmap, Himg. split; [reflexivity|].
    rewrite Nat.mul_0_r. destruct (Nat.even i); reflexivity.
  - intros out w' (-> & Hlen & Hout). split; [reflexivity|]. split; [exact Hlen|].
    intros i img Himg. destruct (Hout _ _ Himg) as (o & Ho & Hcase).
    exists o. split; [exact Ho|].
    destruct (Nat.even i) eqn:Heven; cbn [andb] in Hcase; [|exact Hcase].
    rewrite py_range_step2_length in Hcase. unfold flipped in Hcase.
    rewrite length_map in Hcase.
    pose proof (lookup_lt_Some _ _ _ Himg) as Hi.
    apply Nat.even_spec in Heven as [m ->].
    rewrite (proj2 (Nat.ltb_lt _ _)) in Hcase; [exact Hcase|].
    rewrite Nat.div2_div.
    pose proof (Nat.div_mod_eq (S (length img_group)) 2).
    pose proof (Nat.mod_upper_bound (S (length img_group)) 2). lia.
Qed.
End FlipProperties.

Lemma flip_flow_inverts_even_frames_witness :
  outcome (GroupRandomHorizontalFlip_call (fun img => Ok img) true
             [ImageL [[1; 2]]; ImageL [[3; 4]]; ImageL [[5; 6]]]%Z false)
    (world_of [] [1 # 4] [])
    (fun out w' =>
       w' = py_skips 1 (world_of [] [1 # 4] [])
       /\ length out = length [ImageL [[1; 2]]; ImageL [[3; 4]]; ImageL [[5; 6]]]%Z
       /\ forall i img,
            [ImageL [[1; 2]]; ImageL [[3; 4]]; ImageL [[5; 6]]]%Z !! i = Some img ->
            exists o,
              out !! i = Some o
              /\ if Nat.even i
                 then (fun img => Ok img) (transpose_FLIP_LEFT_RIGHT img) = Ok o
                 else o = transpose_FLIP_LEFT_RIGHT img)
    (fun e w' =>
       w' = py_skips 1 (world_of [] [1 # 4] [])
       /\ exists i img,
            Nat.even i = true
            /\ [ImageL [[1; 2]]; ImageL [[3; 4]]; ImageL [[5; 6]]]%Z !! i = Some img
            /\ (fun img => Ok img) (transpose_FLIP_LEFT_RIGHT img) = Raise e).
Proof.
  apply (flip_flow_inverts_even_frames (fun img => Ok img)
           [ImageL [[1; 2]]; ImageL [[3; 4]]; ImageL [[5; 6]]]%Z false
           (world_of [] [1 # 4] [])).
  reflexivity.
Defined.

(** ** Tensors *)

Lemma tabulate_lookup {A} (n : nat) (f : nat -> A) (i : nat) :
  (i < n)%nat -> tabulate n f !! i = Some (f i).
Proof.
  intros Hi. unfold tabulate. rewrite list_lookup_fmap, lookup_seq_lt by exact Hi.
  reflexivity.
Qed.

Lemma tabulate_length {A} (n : nat) (f : nat -> A) : length (tabulate n f) = n.
Proof. unfold tabulate. rewrite length_map. apply length_seq. Qed.

Lemma tabulate_hd {A} (n : nat) (f : nat -> A) (d : A) :
  (0 < n)%nat -> hd d (tabulate n f) = f 0%nat.
Proof. intros Hn. apply hd_lookup, tabulate_lookup, Hn. Qed.

Lemma cell_tabulate {A} (n m : nat) (f : nat -> nat -> A) (i j : nat) :
  (i < n)%nat -> (j < m)%nat ->
  cell (tabulate n (fun i => tabulate m (f i))) i j = Some (f i j).
Proof.
  intros Hi Hj. unfold cell. rewrite tabulate_lookup by exact Hi.
  apply tabulate_lookup, Hj.
Qed.

Lemma cell4_map {A B} (f : A -> B) (a : list (list (list (list A)))) (i j t c : nat) :
  cell4 (map (map (map (map f))) a) i j t c = f <$> cell4 a i j t c.
Proof.
  unfold cell4. rewrite (cell_map (map (map f)) a i j).
  destruct (cell a i j) as [l|]; [|reflexivity].
  cbn [fmap option_fmap option_map]. apply cell_map.
Qed.

Lemma shape4_map {A B} (f : A -> B) (a : list (list (list (list A)))) :
  shape4 (map (map (map (map f))) a) = shape4 a.
Proof.
  unfold shape4. rewrite length_map.
  destruct a as [|x a]; [reflexivity|]. cbn [map hd]. rewrite length_map.
  destruct x as [|y x]; [reflexivity|]. cbn [map hd]. rewrite length_map.
  destruct y as [|z y]; [reflexivity|]. cbn [map hd]. rewrite length_map.
  reflexivity.
Qed.

Lemma permute_2301_spec (a : array4) (H W L C : nat) :
  shape4 a = (H, W, L, C) ->
  (0 < H)%nat -> (0 < W)%nat -> (0 < L)%nat -> (0 < C)%nat ->
  shape4 (permute_2301 a) = (L, C, H, W)
  /\ forall l c h w,
       (l < L)%nat -> (c < C)%nat -> (h < H)%nat -> (w < W)%nat ->
       cell4 (permute_2301 a) l c h w = Some (default 0%Z (cell4 a h w l c)).
Proof.
  intros Hshape HH HW HL HC. unfold permute_2301. rewrite Hshape. split.
  - unfold shape4. rewrite tabulate_length.
    rewrite (tabulate_hd L _ []) by exact HL. rewrite tabulate_length.
    rewrite (tabulate_hd C _ []) by exact HC. rewrite tabulate_length.
    rewrite (tabulate_hd H _ []) by exact HH. rewrite tabulate_length.
    reflexivity.
  - intros l c h w Hl Hc Hh Hw. unfold cell4.
    rewrite (cell_tabulate L C
               (fun l c => tabulate H (fun h => tabulate W (fun w =>
                  default 0%Z (cell4 a h w l c))))) by assumption.
    apply (cell_tabulate H W (fun h w => default 0%Z (cell4 a h w l c)));
      assumption.
Qed.

(** X21: on a four-dimensional array of shape [(H, W, L, C)], all
    positive, [ToTorchFormatTensor] returns a tensor of shape
    [(L, C, H, W)] with [out[l][c][h][w] = a[h][w][l][c] / 255], or
    [a[h][w][l][c]] itself without [div]; with [div] an entry of
    [[0, 255]] goes to [[0, 1]]. *)
Theorem ToTorchFormatTensor_permutes_and_scales (div : bool) (a : array4)
    (H W L C : nat) :
  shape4 a = (H, W, L, C) ->
  (0 < H)%nat -> (0 < W)%nat -> (0 < L)%nat -> (0 < C)%nat ->
  exists t,
    ToTorchFormatTensor_call div (Ndarray a) = Returned (Tensor4 t)
    /\ shape4 t = (L, C, H, W)
    /\ forall l c h w x,
         (l < L)%nat -> (c < C)%nat -> (h < H)%nat -> (w < W)%nat ->
         cell4 a h w l c = Some x ->
         cell4 t l c h w = Some (if div then inject_Z x / 255 else inject_Z x)
         /\ ((0 <= x <= 255)%Z ->
             0 <= inject_Z x / 255 /\ inject_Z x / 255 <= 1).
Proof.
  intros Hshape HH HW HL HC.
  destruct (permute_2301_spec a H W L C Hshape HH HW HL HC) as [Hs Hcells].
  eexists. split; [reflexivity|]. split; [rewrite shape4_map; exact Hs|].
  intros l c h w x Hl Hc Hh Hw Hx. split.
  - rewrite cell4_map, (Hcells l c h w Hl Hc Hh Hw), Hx. reflexivity.
  - intros [Hlo Hhi]. rewrite Zle_Qle in Hlo, Hhi.
    change (inject_Z 0) with 0 in Hlo. change (inject_Z 255) with 255 in Hhi.
    split.
    + apply Qle_shift_div_l; [reflexivity | lra].
    + apply Qle_shift_div_r; [reflexivity | lra].
Qed.

Lemma ToTorchFormatTensor_permutes_and_scales_witness :
  exists t,
    ToTorchFormatTensor_call true (Ndarray [[[[255; 0; 51]; [1; 2; 3]]]]%Z)
    = Returned (Tensor4 t)
    /\ shape4 t = (2, 3, 1, 1)%nat
    /\ forall l c h w x,
         (l < 2)%nat -> (c < 3)%nat -> (h < 1)%nat -> (w < 1)%nat ->
         cell4 [[[[255; 0; 51]; [1; 2; 3]]]]%Z h w l c = Some x ->
         cell4 t l c h w = Some (if true then inject_Z x / 255 else inject_Z x)
         /\ ((0 <= x <= 255)%Z ->
             0 <= inject_Z x / 255 /\ inject_Z x / 255 <= 1).
Proof.
  apply (ToTorchFormatTensor_permutes_and_scales true
           [[[[255; 0; 51]; [1; 2; 3]]]]%Z 1 1 2 3); [reflexivity | lia ..].
Defined.

(** ** From masks to tensors *)

Section MasksToTensor.
Variable convert_L_colour : Image -> array2.

(** X22: [Stack] then [ToTorchFormatTensor], on a group of [T]
    single-band frames of one size [h x w]: the tensor has the shape
    [(T, 1, h, w)], and [out[t][0][i][j]] is the pixel [(i, j)] of the
    frame [t], over 255 with [div].  For a group of masks of mode ['1']
    with [div], a white pixel is 1 and a black one 0. *)
Theorem Stack_then_ToTorchFormatTensor_single_channel (roll div : bool)
    (first : Image) (rest : list Image) (h w : nat) :
  (0 < h)%nat -> (0 < w)%nat ->
  Forall (single_channel_frame h w) (first :: rest) ->
  exists a t,
    Stack_call convert_L_colour roll (first :: rest) = Ok a
    /\ ToTorchFormatTensor_call div (Ndarray a) = Returned (Tensor4 t)
    /\ shape4 t = (S (length rest), 1%nat, h, w)
    /\ (forall k img i j,
          (first :: rest) !! k = Some img -> (i < h)%nat -> (j < w)%nat ->
          cell4 t k 0 i j
          = to_float div <$> grey_level (Image_mode first =? "1")%string img i j)
    /\ (forall k px i j (b : bool),
          Image_mode first = "1"%string -> div = true ->
          (first :: rest) !! k = Some (Image1 px) -> cell px i j = Some b ->
          exists q, cell4 t k 0 i j = Some q /\ q == (if b then 1 else 0)).
Proof.
  intros Hh Hw Hall.
  destruct (Stack_single_channel_cells convert_L_colour roll first rest h w
              Hh Hw Hall) as (a & Hcall & Hshape & Hcells).
  destruct (permute_2301_spec a h w (S (length rest)) 1 Hshape Hh Hw)
    as [Hs Hperm]; [lia | lia |].
  assert (Hentries : forall k img i j,
             (first :: rest) !! k = Some img -> (i < h)%nat -> (j < w)%nat ->
             cell4 (map (map (map (map (to_float div)))) (permute_2301 a)) k 0 i j
             = to_float div
                 <$> grey_level (Image_mode first =? "1")%string img i j).
  { intros k img i j Hk Hi Hj.
    destruct (Hcells k img i j Hk Hi Hj) as (v & Hv & Hc).
    pose proof (lookup_lt_Some _ _ _ Hk) as Hlt. cbn [length] in Hlt.
    rewrite cell4_map, (Hperm k 0%nat i j) by (try assumption; lia).
    rewrite Hc, Hv. reflexivity. }
  exists a. eexists. split; [exact Hcall|]. split; [reflexivity|].
  split; [rewrite shape4_map; exact Hs|]. split; [exact Hentries|].
  intros k px i j b Hmode -> Hk Hb.
  pose proof (proj1 (Forall_lookup _ _) Hall _ _ Hk) as [Hlen Hrows].
  assert (Hij : (i < h)%nat /\ (j < w)%nat).
  { unfold cell in Hb. destruct (px !! i) as [row|] eqn:Hrow; [|discriminate].
    pose proof (lookup_lt_Some _ _ _ Hrow).
    pose proof (lookup_lt_Some _ _ _ Hb) as Hlt.
    rewrite (proj1 (Forall_lookup _ _) Hrows _ _ Hrow) in Hlt. lia. }
  rewrite (Hentries k _ i j Hk (proj1 Hij) (proj2 Hij)).
  cbn [grey_level]. rewrite Hb, Hmode. cbn [String.eqb Ascii.eqb Bool.eqb].
  eexists. split; [reflexivity|]. destruct b; reflexivity.
Qed.
End MasksToTensor.

Lemma Stack_then_ToTorchFormatTensor_single_channel_witness :
  exists a t,
    Stack_call (fun _ => []) false
      [Image1 [[true; false]]; Image1 [[false; false]]] = Ok a
    /\ ToTorchFormatTensor_call true (Ndarray a) = Returned (Tensor4 t)
    /\ shape4 t = (2, 1, 1, 2)%nat
    /\ (forall k img i j,
          [Image1 [[true; false]]; Image1 [[false; false]]] !! k = Some img ->
          (i < 1)%nat -> (j < 2)%nat ->
          cell4 t k 0 i j
          = to_float true
              <$> grey_level (Image_mode (Image1 [[true; false]]) =? "1")%string
                    img i j)
    /\ (forall k px i j (b : bool),
          Image_mode (Image1 [[true; false]]) = "1"%string -> true = true ->
          [Image1 [[true; false]]; Image1 [[false; false]]] !! k
          = Some (Image1 px) ->
          cell px i j = Some b ->
          exists q, cell4 t k 0 i j = Some q /\ q == (if b then 1 else 0)).
Proof.
  apply (Stack_then_ToTorchFormatTensor_single_channel (fun _ => []) false true
           (Image1 [[true; false]]) [Image1 [[false; false]]] 1 2); [lia | lia |].
  repeat constructor.
Defined.

(** ** Tensors of PIL images *)

Lemma length_concat_uniform {A} (n : nat) (l : list (list A)) :
  Forall (fun r => length r = n) l -> length (concat l) = (length l * n)%nat.
Proof.
  induction 1 as [|r l Hr _ IH]; [reflexivity|].
  cbn [concat length]. rewrite length_app, IH, Hr. lia.
Qed.

Lemma lookup_concat_uniform {A} (n : nat) (l : list (list A)) (i j : nat) :
  Forall (fun r => length r = n) l -> (j < n)%nat ->
  concat l !! (i * n + j)%nat
  = match l !! i with
    | Some r => r !! j
    | None => None
    end.
Proof.
  intros Hall Hj. revert i. induction Hall as [|r l Hr _ IH]; intros i.
  - cbn. reflexivity.
  - cbn [concat]. destruct i as [|i].
    + cbn [Nat.mul Nat.add]. rewrite lookup_app_l by lia. reflexivity.
    + rewrite lookup_app_r by (rewrite Hr; lia).
      replace (S i * n + j - length r)%nat with (i * n + j)%nat by (rewrite Hr; lia).
      apply IH.
Qed.

Lemma pack_bits_length (row : list bool) :
  length (pack_bits row) = ((length row + 7) / 8)%nat.
Proof. apply tabulate_length. Qed.

(** X23: on an RGB image of [h] rows and [w] columns,
    [ToTorchFormatTensor] returns a tensor of three planes of [h] rows and
    [w] columns: [out[c][i][j]] is the band [c] of the pixel in row [i]
    and column [j], over 255 with [div]. *)
Theorem ToTorchFormatTensor_PIL_rgb (div : bool) (px : list (list (list Z)))
    (h w : nat) :
  (0 < h)%nat -> (0 < w)%nat -> rgb_frame h w (ImageRGB px) ->
  exists t,
    ToTorchFormatTensor_call div (PIL (ImageRGB px)) = Returned (Tensor3 t)
    /\ shape3 t = (3%nat, h, w)
    /\ forall c i j p x,
         cell px i j = Some p -> p !! c = Some x ->
         match t !! c with
         | Some plane => cell plane i j
         | None => None
         end = Some (to_float div x).
Proof.
  intros Hh Hw Hpx. pose proof Hpx as [Hgrid Hbands].
  destruct (grid_rectangular h w px Hh Hgrid) as [_ Hdims].
  pose proof Hgrid as [Hlen Hrows].
  assert (Hflat : Forall (fun p => length p = 3%nat) (concat px))
    by (apply Forall_concat, Hbands).
  assert (Hsize : length (concat (concat px)) = (h * w * 3)%nat).
  { rewrite (length_concat_uniform 3) by exact Hflat.
    rewrite (length_concat_uniform w) by exact Hrows. rewrite Hlen. reflexivity. }
  unfold ToTorchFormatTensor_call.
  cbn [Image_tobytes Image_size Image_mode]. rewrite Hdims.
  change (String.length "RGB") with 3%nat.
  rewrite Hsize, Nat.eqb_refl.
  eexists. split; [reflexivity|]. split.
  { unfold shape3. rewrite tabulate_length.
    rewrite (tabulate_hd 3 _ []) by lia. rewrite tabulate_length.
    rewrite (tabulate_hd h _ []) by exact Hh. rewrite tabulate_length.
    reflexivity. }
  intros c i j p x Hp Hx.
  assert (Hc : (c < 3)%nat).
  { pose proof (lookup_lt_Some _ _ _ Hx) as Hlt.
    destruct (grid3_cell h w 3 px i j Hpx) as (p' & Hp' & Hlen_p).
    - unfold cell in Hp. destruct (px !! i) eqn:E; [|discriminate].
      rewrite <- Hlen. eapply lookup_lt_Some, E.
    - unfold cell in Hp. destruct (px !! i) as [row|] eqn:E; [|discriminate].
      rewrite <- (proj1 (Forall_lookup _ _) Hrows _ _ E).
      eapply lookup_lt_Some, Hp.
    - congruence. }
  assert (Hij : (i < h)%nat /\ (j < w)%nat).
  { unfold cell in Hp. destruct (px !! i) as [row|] eqn:E; [|discriminate].
    pose proof (lookup_lt_Some _ _ _ E).
    pose proof (lookup_lt_Some _ _ _ Hp) as Hlt.
    rewrite (proj1 (Forall_lookup _ _) Hrows _ _ E) in Hlt. lia. }
  rewrite tabulate_lookup by exact Hc.
  rewrite (cell_tabulate h w
             (fun h0 w0 => to_float div
                (nth ((h0 * w + w0) * 3 + c) (concat (concat px)) 0%Z)))
    by apply Hij.
  f_equal. f_equal. rewrite nth_lookup.
  rewrite (lookup_concat_uniform 3 (concat px) (i * w + j) c Hflat Hc).
  rewrite (lookup_concat_uniform w px i j Hrows (proj2 Hij)).
  unfold cell in Hp. destruct (px !! i) as [row|]; [|discriminate].
  rewrite Hp, Hx. reflexivity.
Qed.

Lemma ToTorchFormatTensor_PIL_rgb_witness :
  exists t,
    ToTorchFormatTensor_call true (PIL (ImageRGB [[[255; 0; 51]; [1; 2; 3]]]%Z))
    = Returned (Tensor3 t)
    /\ shape3 t = (3, 1, 2)%nat
    /\ forall c i j p x,
         cell [[[255; 0; 51]; [1; 2; 3]]]%Z i j = Some p -> p !! c = Some x ->
         match t !! c with
         | Some plane => cell plane i j
         | None => None
         end = Some (to_float true x).
Proof.
  apply (ToTorchFormatTensor_PIL_rgb true [[[255; 0; 51]; [1; 2; 3]]]%Z 1 2);
    [lia | lia |]. repeat constructor.
Defined.

(** X24: the branch of the PIL images refuses, with [RuntimeError] of
    the [view], an image of mode ['1'] that is two pixels wide or more,
    whose bytes hold eight pixels each, and an image of mode ['YCbCr'],
    whose three bands are viewed as [len('YCbCr') = 5]. *)
Theorem ToTorchFormatTensor_PIL_refuses (div : bool) (h w : nat) :
  (0 < h)%nat ->
  (forall bits : list (list bool),
      (2 <= w)%nat -> grid h w bits ->
      ToTorchFormatTensor_call div (PIL (Image1 bits)) = RuntimeError)
  /\ (forall px : list (list (list Z)),
         (0 < w)%nat -> grid3 h w 3 px ->
         ToTorchFormatTensor_call div (PIL (ImageOther YCbCr px)) = RuntimeError).
Proof.
  intros Hh. split.
  - intros bits Hw Hgrid.
    destruct (grid_rectangular h w bits Hh Hgrid) as [_ Hdims].
    destruct Hgrid as [Hlen Hrows].
    unfold ToTorchFormatTensor_call.
    cbn [Image_tobytes Image_size Image_mode]. rewrite Hdims.
    change (String.length "1") with 1%nat.
    rewrite (length_concat_uniform ((w + 7) / 8)).
    + rewrite length_map, Hlen.
      assert (Hlt : ((w + 7) / 8 < w)%nat).
      { apply Nat.Div0.div_lt_upper_bound. lia. }
      destruct (Nat.eqb_spec (h * ((w + 7) / 8)) (h * w * 1)) as [E|_]; [nia|].
      reflexivity.
    + apply Forall_map. eapply Forall_impl; [exact Hrows|].
      intros row Hrow. cbn beta. rewrite pack_bits_length, Hrow. reflexivity.
  - intros px Hw [Hgrid Hbands].
    destruct (grid_rectangular h w px Hh Hgrid) as [_ Hdims].
    destruct Hgrid as [Hlen Hrows].
    unfold ToTorchFormatTensor_call.
    cbn [Image_tobytes Image_size Image_mode other_mode_name]. rewrite Hdims.
    change (String.length "YCbCr") with 5%nat.
    rewrite (length_concat_uniform 3) by (apply Forall_concat, Hbands).
    rewrite (length_concat_uniform w) by exact Hrows. rewrite Hlen.
    destruct (Nat.eqb_spec (h * w * 3) (h * w * 5)) as [E|_]; [nia|].
    reflexivity.
Qed.

Lemma ToTorchFormatTensor_PIL_refuses_witness :
  (forall bits : list (list bool),
      (2 <= 424)%nat -> grid 240 424 bits ->
      ToTorchFormatTensor_call true (PIL (Image1 bits)) = RuntimeError)
  /\ (forall px : list (list (list Z)),
         (0 < 424)%nat -> grid3 240 424 3 px ->
         ToTorchFormatTensor_call true (PIL (ImageOther YCbCr px)) = RuntimeError).
Proof.
  apply (ToTorchFormatTensor_PIL_refuses true 240 424). lia.
Defined.

(** ** Edge cases of the video generator *)

Lemma Image_new_eq (imageWidth imageHeight : Z) (w : world) :
  (0 <= imageWidth)%Z -> (0 <= imageHeight)%Z ->
  Image_new imageWidth imageHeight w
  = (Ok (Image1 (replicate (Z.to_nat imageHeight)
                   (replicate (Z.to_nat imageWidth) false))), w).
Proof.
  intros HW HH. unfold Image_new.
  destruct (Z.ltb_spec imageWidth 0); [lia|].
  destruct (Z.ltb_spec imageHeight 0); [lia|]. reflexivity.
Qed.

Section VideoEdges.
Variables np_cos np_sin : Q -> Q.
Variable ImageDraw_line : Image -> Q * Q * Q * Q -> Z -> Z -> Image.
Variable ImageDraw_ellipse : Image -> Q * Q * Q * Q -> Z -> Image.

Lemma next_frame_without_strokes (s : settings) (w : world) (k : nat)
    (masks : list Image) :
  (0 <= imageWidth s)%Z -> (0 <= imageHeight s)%Z ->
  next_frame np_cos np_sin ImageDraw_line ImageDraw_ellipse s (masks, []) k w
  = (Ok (masks ++ [Image1 (replicate (Z.to_nat (imageHeight s))
                             (replicate (Z.to_nat (imageWidth s)) false))],
         []), w).
Proof.
  intros HW HH. unfold next_frame, bind.
  rewrite Image_new_eq by assumption. reflexivity.
Qed.

Lemma next_frames_without_strokes (s : settings) (w : world) (n a : nat)
    (masks : list Image) :
  (0 <= imageWidth s)%Z -> (0 <= imageHeight s)%Z ->
  foldM (next_frame np_cos np_sin ImageDraw_line ImageDraw_ellipse s)
    (masks, []) (seq a n) w
  = (Ok (masks ++ replicate n
                    (Image1 (replicate (Z.to_nat (imageHeight s))
                               (replicate (Z.to_nat (imageWidth s)) false))),
         []), w).
Proof.
  intros HW HH. revert a masks. induction n as [|n IH]; intros a masks.
  - cbn. rewrite app_nil_r. reflexivity.
  - cbn [seq foldM]. unfold bind.
    rewrite next_frame_without_strokes by assumption.
    rewrite IH, <- app_assoc. reflexivity.
Qed.

(** X25: without strokes ([nStroke <= 0]) and with [video_len >= 1],
    on a canvas whose sizes are not negative, the generator returns
    [video_len] blank masks of the size of the canvas, and makes no
    draw and no array. *)
Theorem video_without_strokes_is_blank (video_len : Z) (s : settings) (w : world) :
  (1 <= video_len)%Z -> (nStroke s <= 0)%Z ->
  (0 <= imageWidth s)%Z -> (0 <= imageHeight s)%Z ->
  get_video_masks_by_moving_random_stroke np_cos np_sin ImageDraw_line
    ImageDraw_ellipse video_len s w
  = (Ok (replicate (Z.to_nat video_len)
           (Image1 (replicate (Z.to_nat (imageHeight s))
                      (replicate (Z.to_nat (imageWidth s)) false)))), w).
Proof.
  intros Hlen Hn HW HH.
  unfold get_video_masks_by_moving_random_stroke, video_masks_and_strokes.
  destruct (Z.leb_spec 1 video_len) as [_|]; [|lia].
  unfold bind at 1, bind at 1, first_frame, bind at 1.
  rewrite Image_new_eq by assumption.
  unfold py_range. replace (Z.to_nat (nStroke s)) with 0%nat by lia.
  cbn [seq foldM ret].
  rewrite next_frames_without_strokes by assumption. cbn [fst ret].
  replace (Z.to_nat video_len) with (S (Z.to_nat (video_len - 1))) by lia.
  reflexivity.
Qed.

(** X26: with [video_len >= 1], a canvas of negative width or height
    is refused by [Image.new] with [ValueError], before any draw. *)
Theorem video_negative_canvas_raises (video_len : Z) (s : settings) (w : world) :
  (1 <= video_len)%Z -> (imageWidth s < 0)%Z \/ (imageHeight s < 0)%Z ->
  get_video_masks_by_moving_random_stroke np_cos np_sin ImageDraw_line
    ImageDraw_ellipse video_len s w
  = (Raise ValueError, w).
Proof.
  intros Hlen Hsize.
  unfold get_video_masks_by_moving_random_stroke, video_masks_and_strokes.
  destruct (Z.leb_spec 1 video_len) as [_|]; [|lia].
  unfold bind at 1, bind at 1, first_frame, bind at 1, Image_new.
  destruct (Z.ltb_spec (imageWidth s) 0); [reflexivity|].
  destruct (Z.ltb_spec (imageHeight s) 0); [reflexivity|]. lia.
Qed.

(** X27: when the range of the vertex counts has no count above 0
    ([nVertexBound[1] <= 1]), every stroke has one point, and the
    generator, asked for at least one frame and one stroke, raises
    [UnboundLocalError] when it draws the first stroke. *)
Theorem video_single_point_strokes_raise (video_len : Z) (s : settings)
    (w : world) :
  (1 <= video_len)%Z -> (1 <= nStroke s)%Z ->
  (0 < imageWidth s)%Z -> (0 < imageHeight s)%Z ->
  (fst (brushWidthBound s) < snd (brushWidthBound s))%Z ->
  (fst (nVertexBound s) < snd (nVertexBound s) <= 1)%Z ->
  0 <= maxInitSpeed s ->
  outcome (get_video_masks_by_moving_random_stroke np_cos np_sin ImageDraw_line
             ImageDraw_ellipse video_len s) w
    (fun _ _ => False)
    (fun e _ => e = UnboundLocalError).
Proof.
  intros Hlen Hn HW HH Hbrush [Hrange Hone] Hinit.
  unfold get_video_masks_by_moving_random_stroke, video_masks_and_strokes.
  destruct (Z.leb_spec 1 video_len) as [_|]; [|lia].
  apply outcome_bind, outcome_bind. unfold first_frame.
  apply outcome_bind. apply wp_Image_new; [lia | lia |]. intros mask.
  unfold py_range. destruct (Z.to_nat (nStroke s)) as [|n] eqn:E; [lia|].
  cbn [seq foldM]. apply outcome_bind. unfold new_stroke.
  apply outcome_bind. apply wp_np_random_randint; [exact Hbrush|].
  intros brushWidth w1 _ H1.
  apply outcome_bind.
  eapply outcome_mono;
    [apply (get_random_stroke_control_points_spec np_cos np_sin (imageWidth s)
              (imageHeight s) (maxHeadSpeed s) (maxHeadAcceleration s)
              (Some (boarderGap s)) (nVertexBound s) (maxInitSpeed s) w1);
     assumption | | intros ? ? []].
  intros [[Xs Ys] velocity] w2
    (x0 & y0 & numVertex & xs & ys & Hheap & HXs & HYs & _ & _ & Hnum & Hlx & Hly & _).
  cbn [fst snd] in HXs, HYs.
  assert (xs = []) by (destruct xs; [reflexivity | cbn in Hlx; lia]).
  assert (ys = []) by (destruct ys; [reflexivity | cbn in Hly; lia]).
  subst xs ys Xs Ys.
  assert (HX : heap w2 !! length (heap w1) = Some [inject_Z x0]).
  { rewrite Hheap. apply list_lookup_middle. reflexivity. }
  assert (HY : heap w2 !! S (length (heap w1)) = Some [inject_Z y0]).
  { rewrite Hheap.
    change (heap w1 ++ [[inject_Z x0]; [inject_Z y0]])
      with (heap w1 ++ [[inject_Z x0]] ++ [[inject_Z y0]]).
    rewrite app_assoc. apply list_lookup_middle.
    rewrite length_app. cbn [length]. lia. }
  apply outcome_bind. unfold draw_mask_by_control_points.
  apply outcome_bind. eapply wp_ndarray_len; [exact HX|].
  apply outcome_bind. apply outcome_ret.
  apply outcome_bind. eapply wp_ndarray_read; [exact HX|].
  apply outcome_bind. eapply wp_ndarray_read; [exact HY|].
  apply outcome_bind. apply outcome_raise. reflexivity.
Qed.
End VideoEdges.

Lemma video_without_strokes_is_blank_witness :
  get_video_masks_by_moving_random_stroke cos_at_0 sin_at_0 no_line no_ellipse 3
    {| imageWidth := 4; imageHeight := 2; nStroke := 0;
       nVertexBound := (5, 20)%Z; maxHeadSpeed := 15;
       maxHeadAcceleration := (15, 314 # 100);
       brushWidthBound := (30, 50)%Z; boarderGap := 50;
       nMovePointRatio := 1 # 2; maxPiontMove := 10;
       maxLineAcceleration := (5, 1 # 2); maxInitSpeed := 10 |}
    (world_of [] [] [])
  = (Ok (replicate (Z.to_nat 3)
           (Image1 (replicate (Z.to_nat 2) (replicate (Z.to_nat 4) false)))),
     world_of [] [] []).
Proof.
  apply (video_without_strokes_is_blank cos_at_0 sin_at_0 no_line no_ellipse 3
           {| imageWidth := 4; imageHeight := 2; nStroke := 0;
              nVertexBound := (5, 20)%Z; maxHeadSpeed := 15;
              maxHeadAcceleration := (15, 314 # 100);
              brushWidthBound := (30, 50)%Z; boarderGap := 50;
              nMovePointRatio := 1 # 2; maxPiontMove := 10;
              maxLineAcceleration := (5, 1 # 2); maxInitSpeed := 10 |}
           (world_of [] [] [])); cbn; lia.
Defined.

Lemma video_negative_canvas_raises_witness :
  get_video_masks_by_moving_random_stroke cos_at_0 sin_at_0 no_line no_ellipse 3
    {| imageWidth := -1; imageHeight := 240; nStroke := 3;
       nVertexBound := (5, 20)%Z; maxHeadSpeed := 15;
       maxHeadAcceleration := (15, 314 # 100);
       brushWidthBound := (30, 50)%Z; boarderGap := 50;
       nMovePointRatio := 1 # 2; maxPiontMove := 10;
       maxLineAcceleration := (5, 1 # 2); maxInitSpeed := 10 |}
    (world_of [] [] [])
  = (Raise ValueError, world_of [] [] []).
Proof.
  apply (video_negative_canvas_raises cos_at_0 sin_at_0 no_line no_ellipse 3
           {| imageWidth := -1; imageHeight := 240; nStroke := 3;
              nVertexBound := (5, 20)%Z; maxHeadSpeed := 15;
              maxHeadAcceleration := (15, 314 # 100);
              brushWidthBound := (30, 50)%Z; boarderGap := 50;
              nMovePointRatio := 1 # 2; maxPiontMove := 10;
              maxLineAcceleration := (5, 1 # 2); maxInitSpeed := 10 |}
           (world_of [] [] [])); cbn; lia.
Defined.

Lemma video_single_point_strokes_raise_witness :
  outcome (get_video_masks_by_moving_random_stroke cos_at_0 sin_at_0 no_line
             no_ellipse 3
             {| imageWidth := 424; imageHeight := 240; nStroke := 3;
                nVertexBound := (0, 1)%Z; maxHeadSpeed := 15;
                maxHeadAcceleration := (15, 314 # 100);
                brushWidthBound := (30, 50)%Z; boarderGap := 50;
                nMovePointRatio := 1 # 2; maxPiontMove := 10;
                maxLineAcceleration := (5, 1 # 2); maxInitSpeed := 10 |})
    (world_of [] [] [])
    (fun _ _ => False)
    (fun e _ => e = UnboundLocalError).
Proof.
  apply (video_single_point_strokes_raise cos_at_0 sin_at_0 no_line no_ellipse 3
           {| imageWidth := 424; imageHeight := 240; nStroke := 3;
              nVertexBound := (0, 1)%Z; maxHeadSpeed := 15;
              maxHeadAcceleration := (15, 314 # 100);
              brushWidthBound := (30, 50)%Z; boarderGap := 50;
              nMovePointRatio := 1 # 2; maxPiontMove := 10;
              maxLineAcceleration := (5, 1 # 2); maxInitSpeed := 10 |}
           (world_of [] [] [])); cbn; try lia. discriminate.
Defined.

(** ** The strokes from frame to frame *)

Lemma keeps_trans (h0 : list (list Q)) (w1 w2 : world) :
  keeps h0 w1 -> keeps (heap w1) w2 -> keeps h0 w2.
Proof.
  intros H1 H2. pose proof (keeps_length _ _ H1) as Hle. unfold keeps in *.
  rewrite <- H2 in H1. rewrite take_take in H1.
  rewrite Nat.min_l in H1 by exact Hle. exact H1.
Qed.

Lemma stroke_shape_keeps (h0 : list (list Q)) (w : world) (st : Stroke)
    (shape : nat * Z) :
  keeps h0 w -> stroke_shape h0 st shape -> stroke_shape (heap w) st shape.
Proof.
  intros Hk (xs & ys & HX & HY & Hrest). exists xs, ys.
  rewrite !(keeps_lookup h0 w) by (try exact Hk; eapply lookup_lt_Some; eassumption).
  auto.
Qed.

Section StrokeShapes.
Variables np_cos np_sin : Q -> Q.
Variable ImageDraw_line : Image -> Q * Q * Q * Q -> Z -> Z -> Image.
Variable ImageDraw_ellipse : Image -> Q * Q * Q * Q -> Z -> Image.
Variable s : settings.
Hypothesis move_range : (0 < maxPiontMove s)%Z.
Hypothesis line_speed_scale : 0 <= fst (maxLineAcceleration s).
Hypothesis line_angle_scale : 0 <= snd (maxLineAcceleration s).
Hypothesis init_speed_scale : 0 <= maxInitSpeed s.

Lemma move_stroke_keeps_shapes (control_points_set : list Stroke)
    (shapes : list (nat * Z)) (j : nat) (w : world) :
  Forall2 (stroke_shape (heap w)) control_points_set shapes ->
  (j < length control_points_set)%nat ->
  outcome (move_stroke np_cos np_sin s control_points_set j) w
    (fun cps' w' =>
       Forall2 (stroke_shape (heap w')) cps' shapes /\ keeps (heap w) w')
    (fun _ _ => False).
Proof.
  intros Hshapes Hj. unfold move_stroke.
  destruct (control_points_set !! j) as [st|] eqn:Hst.
  2:{ apply lookup_ge_None in Hst. unfold Stroke, Velocity in *. lia. }
  destruct st as [[[Xs Ys] velocity] brushWidth].
  destruct (Forall2_lookup_l _ _ _ _ _ Hshapes Hst)
    as ([n b] & Hshape & xs & ys & HX & HY & Hlx & Hly & Hb).
  cbn [fst snd] in HX, HY, Hlx, Hly, Hb.
  apply outcome_bind.
  eapply outcome_mono;
    [apply (random_move_control_points_returns np_cos np_sin Xs Ys
              (imageWidth s) (imageHeight s) velocity (nMovePointRatio s)
              (maxPiontMove s) (maxLineAcceleration s) (boarderGap s)
              (maxInitSpeed s) w xs ys HX HY); [congruence | assumption ..]
    | | auto].
  intros [[new_Xs new_Ys] v'] w' (chosen & X & Y & Hh & _ & _ & _ & Hmoved).
  cbn [fst snd] in Hh. destruct Hmoved as (HlX & HlY & _).
  apply outcome_ret. split; [|apply Hh].
  rewrite <- (list_insert_id shapes j (n, b) Hshape).
  apply Forall2_insert.
  - eapply Forall2_impl; [exact Hshapes|].
    intros st sh. apply stroke_shape_keeps, Hh.
  - exists X, Y. cbn [fst snd].
    split; [apply Hh|]. split; [apply Hh|]. split; [congruence|].
    split; [congruence | exact Hb].
Qed.

(** X28: one more frame.  With a canvas whose sizes are not negative,
    a positive [maxPiontMove] and scales that are not negative, on
    strokes of two points or more whose brush widths are 2 or more, the
    body of the loop over the frames
    appends one mask and keeps the strokes in number and in order, each
    with its number of control points and its brush width; the arrays of
    the frame before are left as they were. *)
Theorem next_frame_keeps_stroke_shapes (masks : list Image)
    (control_points_set : list Stroke) (shapes : list (nat * Z)) (k : nat)
    (w : world) :
  (0 <= imageWidth s)%Z -> (0 <= imageHeight s)%Z ->
  Forall2 (stroke_shape (heap w)) control_points_set shapes ->
  Forall (fun shape => (2 <= fst shape)%nat /\ (2 <= snd shape)%Z) shapes ->
  outcome (next_frame np_cos np_sin ImageDraw_line ImageDraw_ellipse s
             (masks, control_points_set) k) w
    (fun r w' =>
       (exists mask, fst r = masks ++ [mask])
       /\ Forall2 (stroke_shape (heap w')) (snd r) shapes
       /\ keeps (heap w) w')
    (fun _ _ => False).
Proof.
  intros HW HH Hshapes Htwo. unfold next_frame.
  apply outcome_bind. apply wp_Image_new; [exact HW | exact HH |]. intros mask.
  apply outcome_bind.
  eapply outcome_mono;
    [apply (outcome_foldM _ (fun _ (cps : list Stroke) w' =>
              Forall2 (stroke_shape (heap w')) cps shapes
              /\ keeps (heap w) w') (fun _ _ => False))
    | | auto].
  - intros j i cps w' Hi (Hcps & Hkeep). unfold py_range in Hi.
    apply lookup_seq in Hi as [-> Hj]. cbn [Nat.add].
    eapply outcome_mono; [apply move_stroke_keeps_shapes; [exact Hcps|] | | auto].
    + rewrite (Forall2_length _ _ _ Hcps), <- (Forall2_length _ _ _ Hshapes). lia.
    + intros cps' w'' (Hcps' & Hkeep'). split; [exact Hcps'|].
      eapply keeps_trans; eassumption.
  - split; [exact Hshapes | apply keeps_refl].
  - intros cps w' (Hcps & Hkeep).
    apply outcome_bind.
    eapply outcome_mono;
      [apply (outcome_foldM _ (fun _ (_ : Image) w'' => heap w'' = heap w')
                (fun _ _ => False))
      | | auto].
    + intros j st m w'' Hst Hw''. destruct st as [[[Xs Ys] v] brushWidth].
      destruct (Forall2_lookup_l _ _ _ _ _ Hcps Hst)
        as ([n b] & Hshape & xs & ys & HX & HY & Hlx & Hly & Hb).
      cbn [fst snd] in HX, HY, Hlx, Hly, Hb. rewrite <- Hw'' in HX, HY.
      pose proof (proj1 (Forall_lookup _ _) Htwo _ _ Hshape) as [Hn Hbrush].
      cbn [fst snd] in Hn, Hbrush.
      eapply outcome_mono;
        [eapply (draw_mask_by_control_points_returns ImageDraw_line
                   ImageDraw_ellipse m Xs Ys brushWidth 255 w'' xs ys HX HY);
         [congruence | lia | lia] | | auto].
      intros m' w3 H3. cbv beta. congruence.
    + reflexivity.
    + intros mask' w'' Hw''. apply outcome_ret. cbn [fst snd].
      split; [exists mask'; reflexivity|].
      split; [rewrite Hw''; exact Hcps|].
      unfold keeps in *. rewrite Hw''. exact Hkeep.
Qed.
End StrokeShapes.

Lemma next_frame_keeps_stroke_shapes_witness :
  outcome (next_frame cos_at_0 sin_at_0 no_line no_ellipse default_settings
             ([grey_4x4], [(0%nat, 1%nat, (5, 0), 30%Z)]) 0)
    two_point_world
    (fun r w' =>
       (exists mask, fst r = [grey_4x4] ++ [mask])
       /\ Forall2 (stroke_shape (heap w')) (snd r) [(2%nat, 30%Z)]
       /\ keeps (heap two_point_world) w')
    (fun _ _ => False).
Proof.
  apply (next_frame_keeps_stroke_shapes cos_at_0 sin_at_0 no_line no_ellipse
           default_settings); cbn; try lia; try discriminate.
  - constructor; [|constructor]. exists [370; 200], [100; 100]. cbn. auto.
  - constructor; [|constructor]. cbn. split; lia.
Defined.
